(** * The test-oracle generator of dev/generate-tests.py

    A shallow embedding of the combination generator, the oracle executor
    and the validation filters of [dev/generate-tests.py], and the
    properties of the specification that concern them.

    Python values are a first-order datatype; exceptions are an error
    monad; the reference kernel (obtained by [eval] in the source) is a
    function from the bound assignment to an outcome. Where the identity of
    objects matters, for what one generation leaves to the next, the
    generation is given a second time on a store of shared objects
    ([Store]), and shown to yield what the generation on values yields. *)

From Stdlib Require Import ZArith String Ascii List Lia.
From Stdlib Require Import DecimalNat DecimalString Floats.SpecFloat.
From stdpp Require Import base tactics option list gmap strings sorting.

Local Open Scope string_scope.
Local Open Scope list_scope.

(** ** Exceptions and results *)

Inductive exn : Type :=
| ValueError (msg : string)
| TypeError
| KeyError
| AssertionError
| NameError
| UnboundLocalError
| StopIteration
| NonTermination           (* a loop that never exits; nothing catches it *)
| OtherException (tag : string).

Inductive result (A : Type) : Type :=
| Ok (a : A)
| Raise (e : exn).
Arguments Ok {A} a.
Arguments Raise {A} e.

#[global] Instance result_ret : MRet result := @Ok.
#[global] Instance result_bind : MBind result := λ A B f m,
  match m with Ok a => f a | Raise e => Raise e end.

Definition is_Ok {A} (r : result A) : Prop := ∃ a, r = Ok a.

(** [required KeyError (m !! k)]: a subscript that raises when the key is absent. *)
Definition required {A} (e : exn) (o : option A) : result A :=
  match o with Some a => Ok a | None => Raise e end.

(** ** Python string operations used by the generator *)

Module Str.

(** [sub in s] *)
Fixpoint contains (sub s : string) : bool :=
  String.prefix sub s ||
  match s with
  | EmptyString => false
  | String _ rest => contains sub rest
  end.

(** [s.find(sub)]: the lowest index where [sub] starts, or -1. *)
Fixpoint find (sub s : string) : Z :=
  if String.prefix sub s then 0%Z
  else match s with
       | EmptyString => (-1)%Z
       | String _ rest =>
           let r := find sub rest in
           if (r <? 0)%Z then (-1)%Z else (r + 1)%Z
       end.

(** A slice bound [k] as Python normalises it: negative bounds count from the
    end, and every bound is clamped to [0, len s]. *)
Definition slice_index (s : string) (k : Z) : nat :=
  let len := Z.of_nat (String.length s) in
  Z.to_nat (if (k <? 0)%Z then Z.max 0 (k + len) else Z.min k len).

(** [s[:k]] *)
Definition slice_to (s : string) (k : Z) : string :=
  String.substring 0 (slice_index s k) s.

(** [s[k:]] *)
Definition slice_from (s : string) (k : Z) : string :=
  let i := slice_index s k in
  String.substring i (String.length s - i) s.

(** [s.endswith(suffix)] *)
Definition endswith (suffix s : string) : bool :=
  let n := String.length suffix in
  (n <=? String.length s)%nat &&
  String.eqb (String.substring (String.length s - n) n s) suffix.

(** [s.replace(old, new)] for a non-empty [old]: occurrences are replaced from
    left to right without overlap. [skip] counts the characters of a matched
    occurrence that are still to be dropped. *)
Fixpoint replace_from (skip : nat) (old new s : string) : string :=
  match s with
  | EmptyString => EmptyString
  | String c rest =>
      match skip with
      | S k => replace_from k old new rest
      | O =>
          if String.prefix old s
          then new +:+ replace_from (String.length old - 1) old new rest
          else String c (replace_from 0 old new rest)
      end
  end.

Definition replace (old new s : string) : string := replace_from 0 old new s.

(** [s.replace(old, new, 1)]: only the first occurrence. *)
Fixpoint replace_first (old new s : string) : string :=
  if String.prefix old s
  then new +:+ String.substring (String.length old)
                 (String.length s - String.length old) s
  else match s with
       | EmptyString => EmptyString
       | String c rest => String c (replace_first old new rest)
       end.

(** [s.rstrip(c)] for a one-character set. *)
Fixpoint rstrip (c : ascii) (s : string) : string :=
  match s with
  | EmptyString => EmptyString
  | String a rest =>
      match rstrip c rest with
      | EmptyString => if Ascii.eqb a c then EmptyString else String a EmptyString
      | kept => String a kept
      end
  end.

(** [str(n)] for a non-negative integer. *)
Definition of_nat (n : nat) : string := NilEmpty.string_of_uint (Nat.to_uint n).

End Str.

(** ** Python values *)

(** The values that the fixture corpus (JSON) and the kernels exchange.
    [PyDict] is a dict whose keys are integers (an output accumulator written
    by position), [PyObj] a dict whose keys are strings (a JSON object).
    Floats are IEEE values in the representation of [SpecFloat]. *)
#[warnings="-register-all"] Inductive pyval : Type :=
| PyInt (z : Z)
| PyBool (b : bool)
| PyFloat (f : spec_float)
| PyStr (s : string)
| PyNone
| PyList (l : list pyval)
| PyDict (d : gmap Z pyval)
| PyObj (o : gmap string pyval).

(** The float 123.0, as a binary64 mantissa and exponent. *)
Definition float_123 : spec_float := S754_finite false 8655355533852672 (-46).

(** [len(v)] *)
Definition py_len (v : pyval) : result nat :=
  match v with
  | PyList l => Ok (length l)
  | PyDict d => Ok (size d)
  | PyObj o => Ok (size o)
  | PyStr s => Ok (String.length s)
  | _ => Raise TypeError
  end.

(** The items that [for x in v] visits. A dict yields its keys; the keys of a
    [PyDict] are visited in ascending order here, which no caller can
    tell from insertion order, since every caller only compares them with
    integers. *)
Definition py_iter (v : pyval) : result (list pyval) :=
  match v with
  | PyList l => Ok l
  | PyDict d => Ok (PyInt <$> merge_sort Z.le (elements (dom d)))
  | PyObj o => Ok (PyStr <$> elements (dom o))
  | PyStr s => Ok ((λ c, PyStr (String c EmptyString)) <$> list_ascii_of_string s)
  | _ => Raise TypeError
  end.

(** [isinstance(v, type(placeholder))], for the three placeholder types.
    [bool] is a subclass of [int]. *)
Definition isinstance_of (placeholder v : pyval) : bool :=
  match placeholder, v with
  | PyInt _, (PyInt _ | PyBool _) => true
  | PyBool _, PyBool _ => true
  | PyFloat _, PyFloat _ => true
  | _, _ => false
  end.

Definition is_list (v : pyval) : bool :=
  match v with PyList _ => true | _ => false end.

Definition is_dict (v : pyval) : bool :=
  match v with PyDict _ | PyObj _ => true | _ => false end.

(** ** Value typing utility *)

Definition unknown_type : exn := ValueError "Unknown type encountered".

Definition gettypeval (typename : string) : result pyval :=
  if Str.contains "int" typename then Ok (PyInt 123)
  else if Str.contains "bool" typename then Ok (PyBool true)
  else if Str.contains "double" typename || Str.contains "float" typename
       then Ok (PyFloat float_123)
  else Raise unknown_type.

Definition remove_const (typename : string) : string :=
  if Str.contains "Const[" typename
  then Str.rstrip "]"%char (Str.replace_first "Const[" "" typename)
  else typename.

Definition gettypename (spectype : string) : string :=
  let typename :=
    Str.replace "]" "" (Str.replace "[" "" (Str.replace "List" "" spectype)) in
  if Str.endswith "_t" typename then Str.slice_to typename (-2) else typename.

(** ** Sparse-to-dense reconstruction: [Specification.dicttolist] *)

(** The inner loop [while num != count: count += 1; vallist.append(typeval)].
    It exits only if [count] reaches [num]. *)
Fixpoint fill_gap (fuel : nat) (num count : Z) (typeval : pyval)
    (vallist : list pyval) : option (Z * list pyval) :=
  if decide (num = count) then Some (count, vallist)
  else match fuel with
       | O => None
       | S fuel' => fill_gap fuel' num (count + 1)%Z typeval (vallist ++ [typeval])
       end.

(** Iterations after which the inner loop has exited, if it ever does
    (see [fill_gap_never] and [fill_gap_enough]). *)
Definition gap_fuel (num count : Z) : nat := Z.to_nat (num - count).

(** The body of [for num in sorted(outputdict)], over the remaining keys. *)
Fixpoint dicttolist_loop (keys : list Z) (outputdict : gmap Z pyval)
    (typeval : pyval) (count : Z) (vallist : list pyval) : result (list pyval) :=
  match keys with
  | [] => Ok vallist
  | num :: rest =>
      if decide (num = count) then
        v ← required KeyError (outputdict !! num);
        dicttolist_loop rest outputdict typeval (count + 1)%Z (vallist ++ [v])
      else
        match fill_gap (gap_fuel num count) num count typeval vallist with
        | None => Raise NonTermination
        | Some (count', vallist') =>
            v ← required KeyError (outputdict !! num);
            dicttolist_loop rest outputdict typeval (count' + 1)%Z (vallist' ++ [v])
        end
  end.

(** [sorted(outputdict)] *)
Definition sorted_keys (outputdict : gmap Z pyval) : list Z :=
  merge_sort Z.le (elements (dom outputdict)).

Definition dicttolist (outputdict : gmap Z pyval) (typename : string)
    : result (list pyval) :=
  typeval ← gettypeval typename;
  dicttolist_loop (sorted_keys outputdict) outputdict typeval 0%Z [].

Definition getdummyvalue (typename : string) (length : nat) : result (list pyval) :=
  typeval ← gettypeval typename;
  Ok (replicate length typeval).

(** The largest key of the accumulator, -1 when it is empty. *)
Definition max_key (outputdict : gmap Z pyval) : Z :=
  foldr Z.max (-1)%Z (elements (dom outputdict)).

(** The dict [{0: l[0], 1: l[1], ...}] of a dense sequence. *)
Definition dict_of_list (l : list pyval) : gmap Z pyval := map_seqZ 0%Z l.

(** The sequence of length [n] that holds, at each index, what the accumulator
    holds there, and the placeholder where it holds nothing. *)
Definition dense (outputdict : gmap Z pyval) (typeval : pyval) (n : nat) : list pyval :=
  (λ i, default typeval (outputdict !! Z.of_nat i)) <$> seq 0 n.

(** ** Insertion-ordered dictionaries with string keys

    [OrderedDict], and the plain dicts whose iteration order the generator
    relies on: assigning to a present key keeps its position, assigning to a
    new key appends it. *)

Definition odict (A : Type) : Type := list (string * A).

Fixpoint od_get {A} (d : odict A) (k : string) : option A :=
  match d with
  | [] => None
  | (k', v) :: rest => if decide (k = k') then Some v else od_get rest k
  end.

Fixpoint od_set {A} (d : odict A) (k : string) (v : A) : odict A :=
  match d with
  | [] => [(k, v)]
  | (k', v') :: rest =>
      if decide (k = k') then (k, v) :: rest else (k', v') :: od_set rest k v
  end.

Definition od_mem {A} (d : odict A) (k : string) : bool :=
  bool_decide (is_Some (od_get d k)).

Definition od_keys {A} (d : odict A) : list string := d.*1.

(** [d[k].append(x)]; a missing key is left to the caller, who has just set it. *)
Definition od_append {A} (d : odict (list A)) (k : string) (x : A) : odict (list A) :=
  match od_get d k with
  | Some l => od_set d k (l ++ [x])
  | None => d
  end.

(** ** Argument model and test cases *)

Record Argument : Type := mkArgument {
  name : string;
  typename : string;
  direction : string;
  role : string
}.

(** One generated test: the dict with keys "inargs", "success" and, on
    success only, "outargs". *)
Record TestCase : Type := mkTestCase {
  inargs : odict pyval;
  outargs : option (odict pyval);
  success : bool
}.

Definition no_role_kernels : list string :=
  [ "awkward_NumpyArray_sort_asstrings_uint8"; "awkward_argsort"; "awkward_sort" ].

(** ** The reference kernel

    The call of [funcPy] with [temp] as keyword arguments either returns or
    raises; in both cases the mutable
    objects bound in [temp] are left in some state, which the generator reads
    afterwards. *)
Inductive kernel_outcome : Type :=
| Returned (temp' : odict pyval)
| Raised (e : exn) (temp' : odict pyval).

Definition kernel : Type := odict pyval → kernel_outcome.

(** The callables that [eval(self.name, globals(), locals())] can find. *)
Definition kernel_env : Type := string → option kernel.

(** ** Subscripts into the fixture corpus *)

(** [v[x]] for an index [x] produced by [range(len(v))]. *)
Definition py_getitem_int (v : pyval) (x : nat) : result pyval :=
  match v with
  | PyList l => required (OtherException "IndexError") (l !! x)
  | PyDict d => required KeyError (d !! Z.of_nat x)
  | PyObj _ => Raise KeyError
  | PyStr s => Ok (PyStr (String.substring x 1 s))
  | _ => Raise TypeError
  end.

(** [v[key]] for a string key. *)
Definition py_getitem_str (v : pyval) (key : string) : result pyval :=
  match v with
  | PyObj o => required KeyError (o !! key)
  | PyDict _ => Raise KeyError
  | _ => Raise TypeError
  end.

(** ** Validation filters *)

(** [n < 0] *)
Definition py_lt0 (n : pyval) : result bool :=
  match n with
  | PyInt z => Ok (z <? 0)%Z
  | PyBool _ => Ok false
  | PyFloat f => Ok (SFltb f (S754_zero false))
  | _ => Raise TypeError
  end.

(** [any(n < 0 for n in items)]: stops at the first negative item. *)
Fixpoint any_negative (items : list pyval) : result bool :=
  match items with
  | [] => Ok false
  | n :: rest => b ← py_lt0 n; if b : bool then Ok true else any_negative rest
  end.

Definition any_negative_in (v : pyval) : result bool :=
  items ← py_iter v; any_negative items.

(** [Specification.validateoverflow]: the loop over [self.args], with the
    flag it maintains. *)
Fixpoint validateoverflow_loop (args : list Argument) (testvals : TestCase)
    (flag : bool) : result bool :=
  match args with
  | [] => Ok flag
  | arg :: rest =>
      if Str.contains "uint" (typename arg) then
        vin ← required KeyError (od_get (inargs testvals) (name arg));
        neg_in ← any_negative_in vin;
        neg ← (if neg_in : bool then Ok true
               else match outargs testvals with
                    | Some outs =>
                        match od_get outs (name arg) with
                        | Some vout => any_negative_in vout
                        | None => Ok false
                        end
                    | None => Ok false
                    end);
        validateoverflow_loop rest testvals (if neg : bool then false else flag)
      else validateoverflow_loop rest testvals flag
  end.

Definition validateoverflow (args : list Argument) (testvals : TestCase) : result bool :=
  validateoverflow_loop args testvals true.

(** [Specification.typevalidates] *)
Fixpoint typevalidates (testdict : odict pyval) (arglist : list Argument) : result bool :=
  match arglist with
  | [] => Ok true
  | arg :: rest =>
      v ← required KeyError (od_get testdict (name arg));
      match v with
      | PyList [] => Ok false
      | PyList (first :: _) =>
          typeval ← gettypeval (typename arg);
          if isinstance_of typeval first then typevalidates testdict rest else Ok false
      | _ =>
          typeval ← gettypeval (typename arg);
          if isinstance_of typeval v then typevalidates testdict rest else Ok false
      end
  end.

(** ** Combination generator: the first part of [Specification.gettests] *)

(** The variables that the loop over [self.args] carries. [pseudogroup]
    is a local of [gettests] that is assigned only inside the loop: it is
    unbound until some argument with a role assigns it, and it keeps its
    value from one argument to the next. *)
Record bind_state : Type := mkBindState {
  instancedict : odict (list string);
  funcpassdict : odict (list pyval);
  count : nat;
  pseudogroup : option string
}.

Definition bind_init : bind_state := mkBindState [] [] 0 None.

(** The fixture key that an argument's role group resolves to: the group's
    key without its last character when only that is present, the group's
    key when it is present, and otherwise whatever [pseudogroup] held. *)
Definition resolve_pseudogroup (testdata : gmap string pyval) (group : string)
    (previous : option string) : option string :=
  let singular := Str.slice_to group (-1) in
  if negb (bool_decide (is_Some (testdata !! group)))
     && bool_decide (is_Some (testdata !! singular))
  then Some singular
  else if bool_decide (is_Some (testdata !! group)) then Some group
  else previous.

(** [for x in range(n): funcpassdict[arg.name].append(testdata[pseudogroup][x][role])],
    from index [x] on. *)
Fixpoint collect_instances (fixture : pyval) (role : string) (x n : nat)
    (acc : list pyval) : result (list pyval) :=
  match n with
  | O => Ok acc
  | S n' =>
      instance ← py_getitem_int fixture x;
      v ← py_getitem_str instance role;
      collect_instances fixture role (S x) n' (acc ++ [v])
  end.

(** One iteration of [for arg in self.args]. *)
Definition bind_arg (testdata : gmap string pyval) (st : bind_state)
    (arg : Argument) : result bind_state :=
  let fpd := od_set (funcpassdict st) (name arg) [] in
  if decide (role arg = "default") then
    let group := Str.of_nat (count st) in
    if od_mem (instancedict st) group then Raise AssertionError
    else
      let inst := od_set (instancedict st) group [name arg] in
      fpd' ← (if decide (direction arg = "out")
              then Ok (od_append fpd (name arg) (PyDict ∅))
              else num ← required KeyError (testdata !! "num");
                   Ok (od_append fpd (name arg) num));
      if decide (length <$> od_get fpd' (name arg) = Some 1)
      then Ok (mkBindState inst fpd' (S (count st)) (pseudogroup st))
      else Raise AssertionError
  else
    let dash := Str.find "-" (role arg) in
    let group := Str.slice_to (role arg) dash in
    let inst0 := if od_mem (instancedict st) group then instancedict st
                 else od_set (instancedict st) group [] in
    let inst := od_append inst0 group (name arg) in
    let pg := resolve_pseudogroup testdata group (pseudogroup st) in
    pseudo ← required UnboundLocalError pg;
    let role' := pseudo +:+ Str.slice_from (role arg) dash in
    fixture ← required KeyError (testdata !! pseudo);
    n ← py_len fixture;
    vals ← collect_instances fixture role' 0 n [];
    Ok (mkBindState inst (od_set fpd (name arg) vals) (count st) pg).

Fixpoint bind_args (testdata : gmap string pyval) (st : bind_state)
    (args : list Argument) : result bind_state :=
  match args with
  | [] => Ok st
  | arg :: rest => st' ← bind_arg testdata st arg; bind_args testdata st' rest
  end.

(** [zip] applied to the sequences of [temp]: the tuples of a group, one per position, as long as the
    shortest sequence; no tuple at all when there is no sequence. *)
Fixpoint zip_star {A} (temp : list (list A)) : list (list A) :=
  match temp with
  | [] => []
  | [l] => (λ x, [x]) <$> l
  | l :: rest => zip_with cons l (zip_star rest)
  end.

(** [itertools.product] applied to the pools: the rightmost pool varies
    fastest. *)
Definition product {A} (pools : list (list A)) : list (list A) :=
  fold_left (λ acc pool, x ← acc; y ← pool; [x ++ [y]]) pools [[]].

(** [combinations]: for each group in [instancedictlist], the zipped value
    sequences of its arguments. *)
Definition group_tuples (st : bind_state) (group : string * list string)
    : result (list (list pyval)) :=
  temp ← mapM (M := result) (λ arg, required KeyError (od_get (funcpassdict st) arg)) group.2;
  Ok (zip_star temp).

(** The raw combinations, before anything is executed or filtered: the
    groups in the order of [instancedict], and the product of their tuples. *)
Definition raw_combinations (args : list Argument) (testdata : gmap string pyval)
    : result (odict (list string) * list (list (list pyval))) :=
  st ← bind_args testdata bind_init args;
  combinations ← mapM (M := result) (group_tuples st) (instancedict st);
  Ok (instancedict st, product combinations).

(** [origtemp]: every argument of every group bound to its value in the
    combination [x]. *)
Definition bind_combination (inst : odict (list string)) (x : list (list pyval))
    : odict pyval :=
  fold_left
    (λ origtemp gt,
       fold_left (λ o kv, od_set o kv.1 kv.2) (zip (gt.1).2 gt.2) origtemp)
    (zip inst x) [].

(** ** Oracle executor: the body of the loop over the combinations *)

(** [dicttolist] on whatever dict the accumulator is. With string keys the
    comparison [num == count] never holds and the inner loop never exits. *)
Definition dicttolist_any (outputdict : pyval) (typename : string)
    : result (list pyval) :=
  match outputdict with
  | PyDict d => dicttolist d typename
  | PyObj o =>
      typeval ← gettypeval typename;
      if decide (size o = 0) then Ok [] else Raise NonTermination
  | _ => Raise TypeError
  end.

(** How the loop of the [try] block ends: with both mappings filled, or with
    an exception and [intests] as far as it was filled. *)
Inductive recorded : Type :=
| Recorded (intests outtests : odict pyval)
| Aborted (e : exn) (intests : odict pyval).

(** The loop after a call that returned (the [try] block). *)
Fixpoint record_success (args : list Argument) (temp intests outtests : odict pyval)
    : recorded :=
  match args with
  | [] => Recorded intests outtests
  | arg :: rest =>
      match od_get temp (name arg) with
      | None => Aborted KeyError intests
      | Some v =>
          if decide (direction arg = "out") then
            if is_dict v then
              match dicttolist_any v (typename arg) with
              | Raise e => Aborted e intests
              | Ok temparglist =>
                  match getdummyvalue (typename arg) (length temparglist) with
                  | Raise e => Aborted e intests
                  | Ok dummy =>
                      record_success rest temp
                        (od_set intests (name arg) (PyList dummy))
                        (od_set outtests (name arg) (PyList temparglist))
                  end
              end
            else Aborted AssertionError intests
          else record_success rest temp (od_set intests (name arg) v) outtests
      end
  end.

(** The loop of the [except ValueError] block. *)
Fixpoint record_failure (args : list Argument) (temp intests : odict pyval)
    : result (odict pyval) :=
  match args with
  | [] => Ok intests
  | arg :: rest =>
      v ← required KeyError (od_get temp (name arg));
      if decide (direction arg = "out") then
        n ← py_len v;
        dummy ← getdummyvalue (typename arg) n;
        record_failure rest temp (od_set intests (name arg) (PyList dummy))
      else record_failure rest temp (od_set intests (name arg) v)
  end.

(** The call and the [try]/[except ValueError] around it; the result is
    [tempdict] with its "inargs" entry set. *)
Definition execute (args : list Argument) (funcPy : kernel) (temp : odict pyval)
    : result TestCase :=
  match funcPy temp with
  | Returned temp' =>
      match record_success args temp' [] [] with
      | Recorded intests outtests => Ok (mkTestCase intests (Some outtests) true)
      | Aborted (ValueError _) intests =>
          intests' ← record_failure args temp' intests;
          Ok (mkTestCase intests' None false)
      | Aborted e _ => Raise e
      end
  | Raised (ValueError _) temp' =>
      intests ← record_failure args temp' [];
      Ok (mkTestCase intests None false)
  | Raised e _ => Raise e
  end.

(** The condition under which [tempdict] is appended to [allvals]. *)
Definition retained (args : list Argument) (tempdict : TestCase) : result bool :=
  types_ok ← typevalidates (inargs tempdict) args;
  if types_ok : bool then validateoverflow args tempdict else Ok false.

(** One iteration of [for x in product(...)]: the test case to append, if any.
    [copy.deepcopy] is the identity on values. *)
Definition run_combination (env : kernel_env) (kernel_name : string)
    (args : list Argument) (inst : odict (list string)) (x : list (list pyval))
    : result (option TestCase) :=
  let origtemp := bind_combination inst x in
  let temp := origtemp in
  funcPy ← required NameError (env kernel_name);
  tempdict ← execute args funcPy temp;
  keep ← retained args tempdict;
  Ok (if keep : bool then Some tempdict else None).

Fixpoint gettests_loop (env : kernel_env) (kernel_name : string)
    (args : list Argument) (inst : odict (list string))
    (combos : list (list (list pyval))) (allvals : list TestCase)
    : result (list TestCase) :=
  match combos with
  | [] => Ok allvals
  | x :: rest =>
      r ← run_combination env kernel_name args inst x;
      gettests_loop env kernel_name args inst rest
        (match r with Some tempdict => allvals ++ [tempdict] | None => allvals end)
  end.

(** [Specification.gettests] *)
Definition gettests (env : kernel_env) (kernel_name : string)
    (args : list Argument) (testdata : gmap string pyval) : result (list TestCase) :=
  raw ← raw_combinations args testdata;
  gettests_loop env kernel_name args raw.1 raw.2 [].

(** ** Kernel specification *)

(** An entry of a specialization's "args" in the YAML file; "role" is optional. *)
Record yaml_arg : Type := mkYamlArg {
  yaml_name : string;
  yaml_type : string;
  yaml_dir : string;
  yaml_role : option string
}.

(** A specialization of the YAML file: its "name" and its "args". *)
Record yaml_spec : Type := mkYamlSpec {
  yaml_spec_name : string;
  yaml_spec_args : list yaml_arg
}.

Record Specification : Type := mkSpecification {
  templatized_kernel_name : string;
  kernel_name : string;
  args : list Argument;
  tests : list TestCase
}.

(** [Specification.__init__] *)
Definition Specification_init (env : kernel_env) (templatized : string)
    (spec : yaml_spec) (testdata : gmap string pyval) (blacklisted : bool)
    : result Specification :=
  let args :=
    (λ arg, mkArgument (yaml_name arg) (yaml_type arg) (yaml_dir arg)
              (default "default" (yaml_role arg))) <$> yaml_spec_args spec in
  tests ← (if blacklisted then Ok []
           else if bool_decide (templatized ∈ no_role_kernels) then Ok []
           else gettests env (yaml_spec_name spec) args testdata);
  Ok (mkSpecification templatized (yaml_spec_name spec) args tests).

(** ** Range validator of the unit-test path: [checkintrange] *)

(** The order between the value of a float and an integer; none for NaN. *)
Definition float_compare_Z (f : spec_float) (z : Z) : option comparison :=
  match f with
  | S754_nan => None
  | S754_infinity true => Some Lt
  | S754_infinity false => Some Gt
  | S754_zero _ => Some (0 ?= z)%Z
  | S754_finite s m e =>
      let v := if s then Z.neg m else Z.pos m in
      Some (if (0 <=? e)%Z then (v * 2 ^ e ?= z)%Z else (v ?= z * 2 ^ (- e))%Z)
  end.

(** [min_val <= data <= max_val] *)
Definition py_between (min_val max_val : Z) (data : pyval) : result bool :=
  match data with
  | PyInt z => Ok ((min_val <=? z)%Z && (z <=? max_val)%Z)
  | PyBool b =>
      let z := if b then 1%Z else 0%Z in
      Ok ((min_val <=? z)%Z && (z <=? max_val)%Z)
  | PyFloat f =>
      Ok (match float_compare_Z f min_val with
          | Some (Gt | Eq) =>
              match float_compare_Z f max_val with
              | Some (Lt | Eq) => true
              | _ => false
              end
          | _ => false
          end)
  | _ => Raise TypeError
  end.

(** [for data in items: if not (min_val <= data <= max_val): flag = False] *)
Fixpoint check_items (min_val max_val : Z) (items : list pyval) (flag : bool)
    : result bool :=
  match items with
  | [] => Ok flag
  | data :: rest =>
      ok ← py_between min_val max_val data;
      check_items min_val max_val rest (if ok : bool then flag else false)
  end.

(** [for row in rows: for data in row: ...] *)
Fixpoint check_rows (min_val max_val : Z) (rows : list pyval) (flag : bool)
    : result bool :=
  match rows with
  | [] => Ok flag
  | row :: rest =>
      items ← py_iter row;
      flag' ← check_items min_val max_val items flag;
      check_rows min_val max_val rest flag'
  end.

Section RangeValidator.

(** [np.iinfo(dtype)] as the pair of its [min] and [max]; NumPy is not part
    of the sources, so the validator is parameterised by it. *)
Variable iinfo : string → result (Z * Z).

(** One iteration of [for arg, val in test_args]. *)
Definition checkintrange_arg (args : list Argument) (flag : bool)
    (arg : string) (val : pyval) : result bool :=
  argument ← required StopIteration (list_find (λ a, name a = arg) args);
  let typename := remove_const (typename argument.2) in
  if Str.contains "int" typename || Str.contains "uint" typename then
    let dtype := gettypename typename in
    bounds ← iinfo dtype;
    let min_val := bounds.1 in
    let max_val := bounds.2 in
    if Str.contains "List[List" typename then
      rows ← py_iter val; check_rows min_val max_val rows flag
    else if Str.contains "List" typename then
      items ← py_iter val; check_items min_val max_val items flag
    else
      ok ← py_between min_val max_val val;
      Ok (if ok : bool then flag else false)
  else Ok flag.

Fixpoint checkintrange_loop (test_args : list (string * pyval))
    (args : list Argument) (flag : bool) : result bool :=
  match test_args with
  | [] => Ok flag
  | (arg, val) :: rest =>
      flag' ← checkintrange_arg args flag arg val;
      checkintrange_loop rest args flag'
  end.

Definition checkintrange (test_args : list (string * pyval)) (error : bool)
    (args : list Argument) : result bool :=
  if negb error then checkintrange_loop test_args args true else Ok true.

End RangeValidator.

(** Modelled from the spec: NumPy's [iinfo] is missing from the sources; the
    spec calls its result the [min, max] of the type's bit width. The names
    are the fixed-width ones that [gettypename] yields for the kernels'
    type descriptors. *)
Definition np_iinfo (dtype : string) : result (Z * Z) :=
  if decide (dtype = "int8") then Ok (- 2 ^ 7, 2 ^ 7 - 1)%Z
  else if decide (dtype = "int16") then Ok (- 2 ^ 15, 2 ^ 15 - 1)%Z
  else if decide (dtype = "int32") then Ok (- 2 ^ 31, 2 ^ 31 - 1)%Z
  else if decide (dtype = "int64") then Ok (- 2 ^ 63, 2 ^ 63 - 1)%Z
  else if decide (dtype = "uint8") then Ok (0, 2 ^ 8 - 1)%Z
  else if decide (dtype = "uint16") then Ok (0, 2 ^ 16 - 1)%Z
  else if decide (dtype = "uint32") then Ok (0, 2 ^ 32 - 1)%Z
  else if decide (dtype = "uint64") then Ok (0, 2 ^ 64 - 1)%Z
  else Raise TypeError.

(** ** The wording of the specification, for comparison with the code *)

(** Numbers: the values that compare with an integer. *)
Definition is_number (v : pyval) : bool :=
  match v with PyInt _ | PyBool _ | PyFloat _ => true | _ => false end.

(** Every scalar of a value, through any nesting of sequences. *)
Fixpoint scalars (v : pyval) : list pyval :=
  match v with
  | PyList l => concat (scalars <$> l)
  | _ => [v]
  end.

(** A number lies within [lo, hi]. *)
Definition within (lo hi : Z) (v : pyval) : Prop :=
  match v with
  | PyInt z => (lo ≤ z ≤ hi)%Z
  | PyBool b => (lo ≤ (if b then 1 else 0) ≤ hi)%Z
  | PyFloat f =>
      (float_compare_Z f lo = Some Gt ∨ float_compare_Z f lo = Some Eq) ∧
      (float_compare_Z f hi = Some Lt ∨ float_compare_Z f hi = Some Eq)
  | _ => False
  end.

(** A number that is not below zero. *)
Definition not_negative (v : pyval) : Prop :=
  match v with
  | PyInt z => (0 ≤ z)%Z
  | PyBool _ => True
  | PyFloat f => SFltb f (S754_zero false) = false
  | _ => False
  end.

(** The nesting that a type descriptor declares, as [checkintrange] reads it. *)
Definition declared_nesting (typename : string) : nat :=
  if Str.contains "List[List" typename then 2
  else if Str.contains "List" typename then 1
  else 0.

(** A value nested exactly [n] deep, with numbers at the leaves. *)
Fixpoint nested_numbers (n : nat) (v : pyval) : Prop :=
  match n with
  | O => is_number v = true
  | S n' => match v with
            | PyList l => Forall (nested_numbers n') l
            | _ => False
            end
  end.

(** A record of the unit-test corpus that fits the declared arguments: each
    entry names a declared argument, and the entry of an integer argument has
    a known bit width and the declared nesting. *)
Definition well_shaped (iinfo : string → result (Z * Z))
    (test_args : list (string * pyval)) (args : list Argument) : Prop :=
  Forall (λ entry,
    ∃ argument, list_find (λ a, name a = entry.1) args = Some argument ∧
      let typename := remove_const (typename argument.2) in
      Str.contains "int" typename = true →
      is_Ok (iinfo (gettypename typename)) ∧
      nested_numbers (declared_nesting typename) entry.2) test_args.

(** Every scalar of every integer-typed entry lies within the bounds of the
    entry's declared type. *)
Definition all_within_range (iinfo : string → result (Z * Z))
    (test_args : list (string * pyval)) (args : list Argument) : Prop :=
  ∀ arg val argument lo hi,
    (arg, val) ∈ test_args →
    list_find (λ a, name a = arg) args = Some argument →
    let typename := remove_const (typename argument.2) in
    Str.contains "int" typename = true →
    iinfo (gettypename typename) = Ok (lo, hi) →
    Forall (within lo hi) (scalars val).

(** The invariant of retained test cases as the specification words it: every
    value of an argument, input or output, has the declared type, lies within
    the bounds of the declared bit width, and holds no negative number when
    the declared type is unsigned. *)
Definition has_declared_type (typename : string) (v : pyval) : Prop :=
  ∃ typeval, gettypeval typename = Ok typeval ∧
    Forall (λ s, isinstance_of typeval s = true) (scalars v).

Definition within_bit_width (typename : string) (v : pyval) : Prop :=
  Str.contains "int" typename = true →
  ∃ lo hi, np_iinfo (gettypename (remove_const typename)) = Ok (lo, hi) ∧
    Forall (λ s, is_number s = true → within lo hi s) (scalars v).

Definition unsigned_not_negative (typename : string) (v : pyval) : Prop :=
  Str.contains "uint" typename = true →
  Forall (λ s, is_number s = true → not_negative s) (scalars v).

(** The values recorded for an argument in a test case. *)
Definition recorded_value (t : TestCase) (arg : Argument) (v : pyval) : Prop :=
  od_get (inargs t) (name arg) = Some v ∨
  ∃ outs, outargs t = Some outs ∧ od_get outs (name arg) = Some v.

Definition claimed_invariant (args : list Argument) (t : TestCase) : Prop :=
  ∀ arg v, arg ∈ args → recorded_value t arg v →
    has_declared_type (typename arg) v ∧
    within_bit_width (typename arg) v ∧
    unsigned_not_negative (typename arg) v.

(** The record of a domain error as the specification words it: the inputs
    as given and, for each output, placeholders as many as the accumulator
    that was passed in holds. [temp] is the assignment before the call. *)
Definition claimed_error_record (args : list Argument) (temp : odict pyval)
    (t : TestCase) : Prop :=
  success t = false ∧ outargs t = None ∧
  ∀ arg, arg ∈ args →
    if decide (direction arg = "out") then
      ∃ typeval acc n,
        gettypeval (typename arg) = Ok typeval ∧
        od_get temp (name arg) = Some acc ∧ py_len acc = Ok n ∧
        od_get (inargs t) (name arg) = Some (PyList (replicate n typeval))
    else
      ∃ v, od_get temp (name arg) = Some v ∧ od_get (inargs t) (name arg) = Some v.

(** What the type validator establishes for one value: a non-empty sequence
    whose first item is an instance of the placeholder's type, or a value that
    is not a sequence and is such an instance. *)
Definition first_item_typed (typeval v : pyval) : Prop :=
  match v with
  | PyList [] => False
  | PyList (first :: _) => isinstance_of typeval first = true
  | _ => isinstance_of typeval v = true
  end.

(** The group that each argument belongs to, in declaration order: a
    default-role argument forms a group named after the number of
    default-role arguments before it, an argument with a role belongs to the
    group named by the text before the role's first dash. *)
Fixpoint group_names (count : nat) (args : list Argument) : list string :=
  match args with
  | [] => []
  | arg :: rest =>
      if decide (role arg = "default")
      then Str.of_nat count :: group_names (S count) rest
      else Str.slice_to (role arg) (Str.find "-" (role arg)) :: group_names count rest
  end.

(** The distinct items of a list, each at the position of its first occurrence. *)
Definition first_occurrences (l : list string) : list string :=
  fold_left (λ acc g, if decide (g ∈ acc) then acc else acc ++ [g]) l [].

Definition declared_groups (args : list Argument) : list string :=
  first_occurrences (group_names 0 args).

(** The cartesian product in lexicographic order: the first pool varies
    slowest. *)
Fixpoint lex_product {A} (pools : list (list A)) : list (list A) :=
  match pools with
  | [] => [[]]
  | pool :: rest => x ← pool; xs ← lex_product rest; [x :: xs]
  end.




(** ** Sample kernels and fixtures *)

Module Sample.

(** A kernel that writes one string into its output [y]. *)
Definition writes_text : kernel := λ temp,
  Returned (od_set temp "y" (PyDict {[ 0%Z := PyStr "a" ]})).

(** A kernel that writes one value into [y] and then signals a domain error. *)
Definition fails_after_write : kernel := λ temp,
  Raised (ValueError "out of range") (od_set temp "y" (PyDict {[ 0%Z := PyInt 9 ]})).

(** A kernel that overwrites its input [x], writes one value into [y] and
    then signals a domain error. *)
Definition overwrites_then_fails : kernel := λ temp,
  Raised (ValueError "out of range")
    (od_set (od_set temp "x" (PyList [PyInt 99])) "y" (PyDict {[ 0%Z := PyInt 9 ]})).

(** A kernel that returns without writing anything. *)
Definition does_nothing : kernel := λ temp, Returned temp.

Definition env (f : kernel) : kernel_env :=
  λ kernel_name, if decide (kernel_name = "kernel") then Some f else None.

Definition x_in (typename : string) : Argument :=
  mkArgument "x" typename "in" "default".

Definition y_out (typename : string) : Argument :=
  mkArgument "y" typename "out" "default".

Definition num (items : list pyval) : gmap string pyval :=
  {[ "num" := PyList items ]}.

(** Two arguments with roles, the second of a group without fixture data. *)
Definition stale_args : list Argument :=
  [ mkArgument "a" "List[int64_t]" "in" "foo-x";
    mkArgument "b" "List[int64_t]" "in" "bar-y" ].

Definition foo_fixture : gmap string pyval :=
  {[ "foo" := PyList [ PyObj {[ "foo-x" := PyList [PyInt 1];
                                "foo-y" := PyList [PyInt 2] ]} ] ]}.

(** A kernel that appends a zero to each of the lists it is passed. *)
Definition appends_zero : kernel := λ temp,
  Returned ((λ kv, (kv.1, match kv.2 with
                          | PyList l => PyList (l ++ [PyInt 0])
                          | v => v
                          end)) <$> temp).

(** Three inputs in two role groups, with two instances of the first group
    and three of the second. *)
Definition two_group_args : list Argument :=
  [ mkArgument "a" "List[int64_t]" "in" "foo-x";
    mkArgument "b" "List[int64_t]" "in" "foo-y";
    mkArgument "c" "List[int64_t]" "in" "bar-z" ].

Definition two_group_fixture : gmap string pyval :=
  {[ "foo" := PyList [ PyObj {[ "foo-x" := PyList [PyInt 1];
                                "foo-y" := PyList [PyInt 2] ]};
                       PyObj {[ "foo-x" := PyList [PyInt 3];
                                "foo-y" := PyList [PyInt 4] ]} ];
     "bar" := PyList [ PyObj {[ "bar-z" := PyList [PyInt 5] ]};
                       PyObj {[ "bar-z" := PyList [PyInt 6] ]};
                       PyObj {[ "bar-z" := PyList [PyInt 7] ]} ] ]}.

(** A group whose plural key is absent and whose singular key is present. *)
Definition plural_args : list Argument :=
  [ mkArgument "a" "List[int64_t]" "in" "foos-x" ].

End Sample.

(** The candidate of a default-role argument: an empty accumulator for an
    output, the whole "num" fixture for an input. *)
Definition default_value (num : pyval) (arg : Argument) : pyval :=
  if decide (direction arg = "out") then PyDict ∅ else num.

(** The groups of default-role arguments: one group per argument, named
    after its position. *)
Fixpoint default_groups (count : nat) (args : list Argument) : odict (list string) :=
  match args with
  | [] => []
  | arg :: rest => (Str.of_nat count, [name arg]) :: default_groups (S count) rest
  end.

(** ** The other validator of the unit-test path: [checkuint] *)

Fixpoint checkuint_loop (test_args : list (string * pyval)) (args : list Argument)
    (flag : bool) : result bool :=
  match test_args with
  | [] => Ok flag
  | (arg, val) :: rest =>
      argument ← required StopIteration (list_find (λ a, name a = arg) args);
      let typename := remove_const (typename argument.2) in
      neg ← (if Str.contains "List[uint" typename then any_negative_in val
             else Ok false);
      checkuint_loop rest args (if neg : bool then false else flag)
  end.

Definition checkuint (test_args : list (string * pyval)) (args : list Argument)
    : result bool :=
  checkuint_loop test_args args true.

(** [getunittests]: the dict display that unpacks the outputs and then the
    inputs. *)
Definition getunittests (test_inputs test_outputs : odict pyval) : odict pyval :=
  fold_left (λ unit_tests kv, od_set unit_tests kv.1 kv.2)
    (test_outputs ++ test_inputs) [].

(** ** The call line that [genunittests] writes *)

Definition tab : string := String "009" EmptyString.
Definition newline : string := String "010" EmptyString.

(** [key + " = " + key + ","] *)
Definition keyword_argument (key : string) : string :=
  ((key +:+ " = ") +:+ key) +:+ ",".

(** The variable [line] of [genunittests], from its first assignment to the
    closing parenthesis: one keyword argument per output key, then one per
    input key that is not an output key, the last character cut off. *)
Definition funcPy_line (outputs inputs : list string) : string :=
  let line := tab +:+ "funcPy(" in
  let line := fold_left (λ line key, line +:+ keyword_argument key) outputs line in
  let line :=
    fold_left (λ line key,
                 if bool_decide (key ∈ outputs) then line
                 else line +:+ keyword_argument key) inputs line in
  let line := String.substring 0 (String.length line - 1) line in
  line +:+ (")" +:+ newline).

(** [sep.join(pieces)] *)
Fixpoint join (sep : string) (pieces : list string) : string :=
  match pieces with
  | [] => ""
  | [piece] => piece
  | piece :: rest => piece +:+ sep +:+ join sep rest
  end.

(** ** [readspec] *)

(** A kernel of the YAML file: its "name", "definition", "automatic-tests"
    and "specializations". *)
Record yaml_kernel : Type := mkYamlKernel {
  yaml_kernel_name : string;
  yaml_definition : string;
  yaml_automatic_tests : bool;
  yaml_specializations : list yaml_spec
}.

(** [for childfunc in spec["specializations"]: dict[childfunc["name"]] = Specification(...)] *)
Fixpoint readspec_children (env : kernel_env) (spec : yaml_kernel)
    (data : gmap string pyval) (children : list yaml_spec)
    (dict : odict Specification) : result (odict Specification) :=
  match children with
  | [] => Ok dict
  | childfunc :: rest =>
      s ← Specification_init env (yaml_kernel_name spec) childfunc data
            (negb (yaml_automatic_tests spec));
      readspec_children env spec data rest (od_set dict (yaml_spec_name childfunc) s)
  end.

(** [for spec in indspec], with the two dicts it fills. *)
Fixpoint readspec_loop (env : kernel_env) (data : gmap string pyval)
    (indspec : list yaml_kernel) (specdict specdict_unit : odict Specification)
    : result (odict Specification * odict Specification) :=
  match indspec with
  | [] => Ok (specdict, specdict_unit)
  | spec :: rest =>
      specdict_unit' ←
        readspec_children env spec data (yaml_specializations spec) specdict_unit;
      specdict' ←
        (if Str.contains "def " (yaml_definition spec)
         then readspec_children env spec data (yaml_specializations spec) specdict
         else Ok specdict);
      readspec_loop env data rest specdict' specdict_unit'
  end.

(** [readspec], from the kernels of the YAML file and the "tests" of the JSON
    file once both are loaded. *)
Definition readspec (env : kernel_env) (indspec : list yaml_kernel)
    (data : gmap string pyval) : result (odict Specification * odict Specification) :=
  readspec_loop env data indspec [] [].

(** Every specialization of the YAML file, in order. *)
Definition all_specializations (indspec : list yaml_kernel) : list yaml_spec :=
  indspec ≫= yaml_specializations.

(** ** The data source of to_rdataframe.py

    The C++ class [RAwkwardArrayDS] that [AwkwardArrayDSGenerator.generate]
    hands to the interpreter. A column is its name and the size of its
    vector; sizes and entry numbers are 64-bit unsigned. *)

Module RAwkwardArrayDS.

Definition wrap64 (z : Z) : Z := (z mod 2 ^ 64)%Z.

(** [std::to_string] of a size. *)
Definition to_string (z : Z) : string := Str.of_nat (Z.to_nat z).

(** The text added to [err] for column [col], compared with column 0. *)
Definition mismatch (first col : string * Z) : string :=
  "Column " +:+ col.1 +:+ " and column " +:+ first.1 +:+
  " have different lengths: " +:+ to_string first.2 +:+ " and " +:+ to_string col.2.

(** The loop of [ColLenghtChecker] over the columns after the first. *)
Fixpoint ColLenghtChecker_loop (first : string * Z) (rest : list (string * Z))
    (err : string) : string :=
  match rest with
  | [] => err
  | col :: rest' =>
      ColLenghtChecker_loop first rest'
        (if decide (first.2 ≠ col.2) then err +:+ mismatch first col else err)
  end.

(** [ColLenghtChecker]: throws [std::runtime_error(err)] when [err] is not
    empty. *)
Definition ColLenghtChecker (columns : list (string * Z)) : result unit :=
  match columns with
  | [] | [_] => Ok tt
  | first :: rest =>
      let err := ColLenghtChecker_loop first rest "" in
      if decide (err = "") then Ok tt else Raise (OtherException err)
  end.

(** The loop of [Initialize] over the [fNSlots] ranges. *)
Fixpoint entry_ranges (slots : nat) (init reminder nEntriesInRange : Z)
    : list (Z * Z) :=
  match slots with
  | O => []
  | S slots' =>
      let end0 := wrap64 (init + nEntriesInRange) in
      let reminder' := if decide (0 ≠ reminder)%Z then wrap64 (reminder - 1) else reminder in
      let end1 := if decide (0 ≠ reminder)%Z then wrap64 (end0 + 1) else end0 in
      (init, end1) :: entry_ranges slots' end1 reminder' nEntriesInRange
  end.

(** [Initialize]: the entry ranges it leaves in [fEntryRanges]. The class has
    at least one column; a division by zero slots is an error here. *)
Definition Initialize (first : string * Z) (others : list (string * Z))
    (fNSlots : Z) : result (list (Z * Z)) :=
  _ ← ColLenghtChecker (first :: others);
  let nEntries := first.2 in
  if decide (fNSlots = 0)%Z then Raise (OtherException "division by zero")
  else
    let nEntriesInRange := (nEntries / fNSlots)%Z in
    let reminder := if decide (1 = fNSlots)%Z then 0%Z else (nEntries mod fNSlots)%Z in
    Ok (entry_ranges (Z.to_nat fNSlots) 0%Z reminder nEntriesInRange).

End RAwkwardArrayDS.

(** The type descriptors of the kernel specification: a base type wrapped
    in [n] sequence markers, and the same marked constant. *)
Fixpoint list_descriptor (n : nat) (base : string) : string :=
  match n with
  | O => base
  | S n' => "List[" +:+ list_descriptor n' base +:+ "]"
  end.

Definition const_descriptor (descriptor : string) : string :=
  "Const[" +:+ descriptor +:+ "]".

(** ** [getdtypes] *)

(** [s.count(sub)] for a non-empty [sub]: occurrences are counted from left
    to right without overlap. [skip] counts the characters of a matched
    occurrence that are still to be passed. *)
Fixpoint str_count_from (skip : nat) (sub s : string) : nat :=
  match s with
  | EmptyString => 0
  | String c rest =>
      match skip with
      | S k => str_count_from k sub rest
      | O =>
          if String.prefix sub s
          then S (str_count_from (String.length sub - 1) sub rest)
          else str_count_from 0 sub rest
      end
  end.

Definition str_count (sub s : string) : nat := str_count_from 0 sub s.

(** The body of the loop of [getdtypes] over the arguments. *)
Definition getdtypes_step (dtypes : list string) (arg : Argument) : list string :=
  let typename := remove_const (typename arg) in
  if Str.contains "List" typename then
    let count := str_count "List" typename in
    let typename := gettypename typename in
    let typename := if String.eqb typename "bool" then typename +:+ "_" else typename in
    let typename := if String.eqb typename "float" then typename +:+ "32" else typename in
    if Nat.eqb count 1 then dtypes ++ ["cupy." +:+ typename]
    else if Nat.eqb count 2 then dtypes ++ ["cupy." +:+ typename]
    else dtypes
  else dtypes.

Definition getdtypes (args : list Argument) : list string :=
  fold_left getdtypes_step args [].

(** ** The generation on a store of shared objects

    The definitions above take a kernel as a function on values and
    [copy.deepcopy] as the identity. What has to be shown of two generations
    in a row, though, is about objects: the combinations hold the very
    objects of the fixture corpus, and a callable can change any object it
    is passed. Here the objects that the generator shares live in a store,
    the combinations hold references, a call passes references and the state
    in which the callable leaves an object is written to the store, and
    [copy.deepcopy] makes new objects. *)

(** [execute] from the outcome of the call on. *)
Definition record_outcome (args : list Argument) (outcome : kernel_outcome)
    : result TestCase :=
  match outcome with
  | Returned temp' =>
      match record_success args temp' [] [] with
      | Recorded intests outtests => Ok (mkTestCase intests (Some outtests) true)
      | Aborted (ValueError _) intests =>
          intests' ← record_failure args temp' intests;
          Ok (mkTestCase intests' None false)
      | Aborted e _ => Raise e
      end
  | Raised (ValueError _) temp' =>
      intests ← record_failure args temp' [];
      Ok (mkTestCase intests None false)
  | Raised e _ => Raise e
  end.

(** The objects as the call has left them. *)
Definition left_state (outcome : kernel_outcome) : odict pyval :=
  match outcome with Returned temp' | Raised _ temp' => temp' end.

Module Store.

(** A reference: to an object of the fixture corpus, reached from
    [testdata] by the subscripts of [path], or to an object made since the
    corpus was loaded. The corpus comes from [json.load], so that no two
    paths reach one object. *)
Inductive subscript : Type :=
| Key (k : string)
| Index (x : nat).

Inductive ref : Type :=
| Corpus (path : list subscript)
| Alloc (n : nat).

#[global] Instance subscript_eq_dec : EqDecision subscript.
Proof. solve_decision. Defined.

#[global] Instance ref_eq_dec : EqDecision ref.
Proof. solve_decision. Defined.

Record store : Type := mkStore {
  corpus : gmap string pyval;
  objects : list pyval
}.

(** [v[s]] *)
Definition subscripted (v : pyval) (s : subscript) : result pyval :=
  match s with
  | Key k => py_getitem_str v k
  | Index x => py_getitem_int v x
  end.

Fixpoint follow (v : pyval) (path : list subscript) : result pyval :=
  match path with
  | [] => Ok v
  | s :: rest => child ← subscripted v s; follow child rest
  end.

(** The object that a reference leads to, in its present state. *)
Definition deref (σ : store) (r : ref) : option pyval :=
  match r with
  | Corpus path =>
      match follow (PyObj (corpus σ)) path with
      | Ok v => Some v
      | Raise _ => None
      end
  | Alloc n => objects σ !! n
  end.

(** The value [v] with the object at [path] in the state [new]. *)
Fixpoint assign (v : pyval) (path : list subscript) (new : pyval) : pyval :=
  match path with
  | [] => new
  | Key k :: rest =>
      match v with
      | PyObj o =>
          match o !! k with
          | Some child => PyObj (<[k := assign child rest new]> o)
          | None => v
          end
      | _ => v
      end
  | Index x :: rest =>
      match v with
      | PyList l =>
          match l !! x with
          | Some child => PyList (<[x := assign child rest new]> l)
          | None => v
          end
      | PyDict d =>
          match d !! Z.of_nat x with
          | Some child => PyDict (<[Z.of_nat x := assign child rest new]> d)
          | None => v
          end
      | _ => v
      end
  end.

(** The store once the object that [r] leads to is in the state [new]. *)
Definition write (σ : store) (r : ref) (new : pyval) : store :=
  match r with
  | Corpus path =>
      match assign (PyObj (corpus σ)) path new with
      | PyObj o => mkStore o (objects σ)
      | _ => σ
      end
  | Alloc n => mkStore (corpus σ) (<[n := new]> (objects σ))
  end.

(** Computations that read and change the store and may raise. *)
Definition stateful (A : Type) : Type := store → store * result A.

#[global] Instance stateful_ret : MRet stateful := λ A a σ, (σ, Ok a).
#[global] Instance stateful_bind : MBind stateful := λ A B k m σ,
  match m σ with
  | (σ', Ok a) => k a σ'
  | (σ', Raise e) => (σ', Raise e)
  end.

Definition lift {A} (r : result A) : stateful A := λ σ, (σ, r).

(** [testdata], as it is now. *)
Definition testdata : stateful (gmap string pyval) := λ σ, (σ, Ok (corpus σ)).

(** A new object. *)
Definition alloc (v : pyval) : stateful ref := λ σ,
  (mkStore (corpus σ) (objects σ ++ [v]), Ok (Alloc (length (objects σ)))).

(** The present state of an object. A reference that leads nowhere does
    not exist in Python; none is ever made here. *)
Definition load (r : ref) : stateful pyval := λ σ,
  (σ, required (OtherException "dangling reference") (deref σ r)).

(** *** The combination generator *)

Record bind_state : Type := mkBindState {
  instancedict : odict (list string);
  funcpassdict : odict (list ref);
  count : nat;
  pseudogroup : option string
}.

Definition bind_init : bind_state := mkBindState [] [] 0 None.

(** [funcpassdict[arg.name].append(testdata[pseudogroup][x][role])]: what is
    appended is the object of the corpus itself. *)
Fixpoint collect_instances (fixture : pyval) (pseudo role : string) (x n : nat)
    (acc : list ref) : result (list ref) :=
  match n with
  | O => Ok acc
  | S n' =>
      instance ← py_getitem_int fixture x;
      py_getitem_str instance role ;;
      collect_instances fixture pseudo role (S x) n'
        (acc ++ [Corpus [Key pseudo; Index x; Key role]])
  end.

(** One iteration of [for arg in self.args]. The accumulator of a
    default-role output is a new dict, the candidate of a default-role input
    is the object [testdata["num"]]. *)
Definition bind_arg (st : bind_state) (arg : Argument) : stateful bind_state :=
  let fpd := od_set (funcpassdict st) (name arg) [] in
  if decide (role arg = "default") then
    let group := Str.of_nat (count st) in
    if od_mem (instancedict st) group then lift (Raise AssertionError)
    else
      let inst := od_set (instancedict st) group [name arg] in
      r ← (if decide (direction arg = "out") then alloc (PyDict ∅)
           else data ← testdata;
                lift (required KeyError (data !! "num")) ;;
                mret (Corpus [Key "num"]));
      let fpd' := od_append fpd (name arg) r in
      if decide (length <$> od_get fpd' (name arg) = Some 1)
      then mret (mkBindState inst fpd' (S (count st)) (pseudogroup st))
      else lift (Raise AssertionError)
  else
    let dash := Str.find "-" (role arg) in
    let group := Str.slice_to (role arg) dash in
    let inst0 := if od_mem (instancedict st) group then instancedict st
                 else od_set (instancedict st) group [] in
    let inst := od_append inst0 group (name arg) in
    data ← testdata;
    let pg := resolve_pseudogroup data group (pseudogroup st) in
    pseudo ← lift (required UnboundLocalError pg);
    let role' := pseudo +:+ Str.slice_from (role arg) dash in
    fixture ← lift (required KeyError (data !! pseudo));
    n ← lift (py_len fixture);
    vals ← lift (collect_instances fixture pseudo role' 0 n []);
    mret (mkBindState inst (od_set fpd (name arg) vals) (count st) pg).

Fixpoint bind_args (st : bind_state) (args : list Argument) : stateful bind_state :=
  match args with
  | [] => mret st
  | arg :: rest => st' ← bind_arg st arg; bind_args st' rest
  end.

Definition group_tuples (st : bind_state) (group : string * list string)
    : result (list (list ref)) :=
  temp ← mapM (M := result) (λ arg, required KeyError (od_get (funcpassdict st) arg)) group.2;
  Ok (zip_star temp).

Definition raw_combinations (args : list Argument)
    : stateful (odict (list string) * list (list (list ref))) :=
  st ← bind_args bind_init args;
  combinations ← lift (mapM (M := result) (group_tuples st) (instancedict st));
  mret (instancedict st, product combinations).

(** [origtemp]: the arguments bound to the objects of the combination. *)
Definition bind_combination (inst : odict (list string)) (x : list (list ref))
    : odict ref :=
  fold_left
    (λ origtemp gt,
       fold_left (λ o kv, od_set o kv.1 kv.2) (zip (gt.1).2 gt.2) origtemp)
    (zip inst x) [].

(** *** The oracle executor *)

Fixpoint memo_get (memo : list (ref * ref)) (r : ref) : option ref :=
  match memo with
  | [] => None
  | (original, copy) :: rest =>
      if decide (original = r) then Some copy else memo_get rest r
  end.

(** [copy.deepcopy(origtemp)]: a new dict in which every name is bound to a
    new object in the state of the one it was bound to. The memo binds two
    names of one object to one copy. An object and a part of it that are
    bound under two names are copied apart; nothing reads the difference,
    since the state of every argument after the call is taken from the
    outcome of the call. *)
Fixpoint deepcopy_loop (items : odict ref) (memo : list (ref * ref))
    (temp : odict ref) : stateful (odict ref) :=
  match items with
  | [] => mret temp
  | (key, r) :: rest =>
      match memo_get memo r with
      | Some copy => deepcopy_loop rest memo (od_set temp key copy)
      | None =>
          v ← load r;
          copy ← alloc v;
          deepcopy_loop rest ((r, copy) :: memo) (od_set temp key copy)
      end
  end.

Definition deepcopy (origtemp : odict ref) : stateful (odict ref) :=
  deepcopy_loop origtemp [] [].

(** The keyword arguments of the call: each name with the present state of
    its object. *)
Definition load_all (temp : odict ref) : stateful (odict pyval) := λ σ,
  (σ, mapM (M := result)
        (λ kr, v ← required (OtherException "dangling reference") (deref σ kr.2);
               Ok (kr.1, v))
        temp).

(** Every object that was passed, in the state in which the call left it. *)
Definition write_back (temp : odict ref) (temp' : odict pyval) (σ : store) : store :=
  fold_left
    (λ σ kr, match od_get temp' kr.1 with
             | Some v => write σ kr.2 v
             | None => σ
             end)
    temp σ.

(** The end of a call: the objects are as the callable left them. *)
Definition leave (temp : odict ref) (outcome : kernel_outcome)
    : stateful kernel_outcome := λ σ,
  (write_back temp (left_state outcome) σ, Ok outcome).

(** The call of [funcPy] with the objects of [temp] as keyword arguments. *)
Definition call (funcPy : kernel) (temp : odict ref) : stateful kernel_outcome :=
  passed ← load_all temp;
  leave temp (funcPy passed).

(** One iteration of [for x in product(...)]. The test case holds copies of
    what was recorded, that is values. *)
Definition run_combination (env : kernel_env) (kernel_name : string)
    (args : list Argument) (inst : odict (list string)) (x : list (list ref))
    : stateful (option TestCase) :=
  let origtemp := bind_combination inst x in
  temp ← deepcopy origtemp;
  funcPy ← lift (required NameError (env kernel_name));
  outcome ← call funcPy temp;
  tempdict ← lift (record_outcome args outcome);
  keep ← lift (retained args tempdict);
  mret (if keep : bool then Some tempdict else None).

Fixpoint gettests_loop (env : kernel_env) (kernel_name : string)
    (args : list Argument) (inst : odict (list string))
    (combos : list (list (list ref))) (allvals : list TestCase)
    : stateful (list TestCase) :=
  match combos with
  | [] => mret allvals
  | x :: rest =>
      r ← run_combination env kernel_name args inst x;
      gettests_loop env kernel_name args inst rest
        (match r with Some tempdict => allvals ++ [tempdict] | None => allvals end)
  end.

(** [Specification.gettests], from the store as it is to the store as the
    generation leaves it. *)
Definition gettests (env : kernel_env) (kernel_name : string)
    (args : list Argument) : stateful (list TestCase) :=
  raw ← raw_combinations args;
  gettests_loop env kernel_name args raw.1 raw.2 [].

End Store.

(** *** The store and the values

    What relates a generation on the store to a generation on values. *)

(** [σ'] has the corpus of [σ] and its objects, unchanged, and maybe more
    objects. *)
Definition extends (σ σ' : Store.store) : Prop :=
  Store.corpus σ' = Store.corpus σ ∧
  Store.objects σ `prefix_of` Store.objects σ'.

(** The object that [r] leads to is in the state [v]. *)
Definition holds (σ : Store.store) (r : Store.ref) (v : pyval) : Prop :=
  Store.deref σ r = Some v.

(** An object made after the store was [σ]. *)
Definition made_since (σ : Store.store) (r : Store.ref) : Prop :=
  ∃ n, r = Store.Alloc n ∧ (length (Store.objects σ) ≤ n)%nat.

(** Two dicts with the same keys in the same order and related values. *)
Definition od_rel {A B} (P : A → B → Prop) (d1 : odict A) (d2 : odict B) : Prop :=
  Forall2 (λ x y, x.1 = y.1 ∧ P x.2 y.2) d1 d2.

(** Two results that raise the same exception or return related values. *)
Definition result_rel {A B} (P : A → B → Prop) (r1 : result A) (r2 : result B)
    : Prop :=
  match r1, r2 with
  | Ok a, Ok b => P a b
  | Raise e1, Raise e2 => e1 = e2
  | _, _ => False
  end.

(** From the store [σ], the computation [m] makes no change to what was in
    the store and ends as [r] does. *)
Definition simulates {A B} (R : Store.store → A → B → Prop) (σ : Store.store)
    (m : Store.stateful A) (r : result B) : Prop :=
  extends σ (m σ).1 ∧ result_rel (R (m σ).1) (m σ).2 r.

(** The candidates that the loop over the arguments has bound are the
    objects whose states the loop on values has bound. *)
Definition bound (σ : Store.store) (sth : Store.bind_state) (st : bind_state)
    : Prop :=
  Store.instancedict sth = instancedict st ∧
  Store.count sth = count st ∧
  Store.pseudogroup sth = pseudogroup st ∧
  od_rel (Forall2 (holds σ)) (Store.funcpassdict sth) (funcpassdict st).

(** * Properties *)

Local Open Scope nat_scope.

(** ** Results *)

Lemma bind_Ok {A B} (m : result A) (f : A → result B) b :
  m ≫= f = Ok b ↔ ∃ a, m = Ok a ∧ f a = Ok b.
Proof.
  destruct m as [a|e]; simpl; split.
  - eauto.
  - intros (a' & [= <-] & ?); done.
  - done.
  - intros (a' & ? & _); done.
Qed.

(** ** The gap loop *)

Lemma fill_gap_enough fuel num count typeval vallist :
  (count ≤ num)%Z → Z.to_nat (num - count) ≤ fuel →
  fill_gap fuel num count typeval vallist
  = Some (num, vallist ++ replicate (Z.to_nat (num - count)) typeval).
Proof.
  revert count vallist.
  induction fuel as [|fuel IH]; intros count vallist Hle Hfuel; simpl.
  - assert (num = count) as -> by lia.
    rewrite decide_True by done. by rewrite Z.sub_diag, app_nil_r.
  - destruct (decide (num = count)) as [->|Hne].
    + by rewrite Z.sub_diag, app_nil_r.
    + rewrite IH by lia.
      replace (Z.to_nat (num - count)) with (S (Z.to_nat (num - (count + 1)))) by lia.
      simpl. by rewrite <- app_assoc.
Qed.

Lemma fill_gap_never fuel num count typeval vallist :
  (num < count)%Z → fill_gap fuel num count typeval vallist = None.
Proof.
  revert count vallist.
  induction fuel as [|fuel IH]; intros count vallist Hlt; simpl;
    (rewrite decide_False by lia); [done | apply IH; lia].
Qed.

(** ** The dense sequence that the reconstruction computes *)

Lemma dense_length d typeval n : length (dense d typeval n) = n.
Proof. unfold dense. by rewrite length_fmap, length_seq. Qed.

Lemma dense_lookup d typeval n i :
  i < n → dense d typeval n !! i = Some (default typeval (d !! Z.of_nat i)).
Proof.
  intros Hi. unfold dense. rewrite list_lookup_fmap, lookup_seq_lt by done. done.
Qed.

Lemma dense_gap d typeval n m v :
  (∀ i, n ≤ i < n + m → d !! Z.of_nat i = None) →
  d !! Z.of_nat (n + m) = Some v →
  dense d typeval (S (n + m)) = (dense d typeval n ++ replicate m typeval) ++ [v].
Proof.
  intros Hgap Hv. apply list_eq. intros i.
  destruct (decide (i < S (n + m))) as [Hi|Hi].
  - rewrite dense_lookup by done.
    destruct (decide (i < n)) as [Hn|Hn].
    + rewrite <- app_assoc, lookup_app_l by (rewrite dense_length; lia).
      by rewrite dense_lookup.
    + destruct (decide (i < n + m)) as [Hm|Hm].
      * rewrite lookup_app_l by (rewrite length_app, dense_length, length_replicate; lia).
        rewrite lookup_app_r by (rewrite dense_length; lia).
        rewrite Hgap by lia. simpl. symmetry. apply lookup_replicate_2.
        rewrite dense_length. lia.
      * assert (i = n + m) as -> by lia. rewrite Hv. simpl.
        rewrite lookup_app_r by (rewrite length_app, dense_length, length_replicate; lia).
        rewrite length_app, dense_length, length_replicate.
        by rewrite Nat.sub_diag.
  - rewrite !lookup_ge_None_2; [done| |].
    + rewrite !length_app, dense_length, length_replicate. simpl. lia.
    + rewrite dense_length. lia.
Qed.

Lemma foldr_max_init a b (l : list Z) :
  (a ≤ b)%Z → Z.max b (foldr Z.max a l) = foldr Z.max b l.
Proof. intros Hab. induction l as [|x l IH]; simpl; lia. Qed.

Lemma dicttolist_loop_dense d typeval keys count :
  StronglySorted Z.lt keys →
  (0 ≤ count)%Z →
  (∀ k, k ∈ keys ↔ (count ≤ k)%Z ∧ is_Some (d !! k)) →
  dicttolist_loop keys d typeval count (dense d typeval (Z.to_nat count))
  = Ok (dense d typeval (Z.to_nat (foldr Z.max (count - 1)%Z keys + 1))).
Proof.
  intros Hsorted. revert count.
  induction Hsorted as [|num rest Hrest IH Hall]; intros count Hcount Hkeys.
  - simpl. by replace (count - 1 + 1)%Z with count by lia.
  - assert ((count ≤ num)%Z ∧ is_Some (d !! num)) as [Hle [v Hv]]
      by (apply Hkeys; left).
    assert (∀ k, k ∈ rest ↔ (num + 1 ≤ k)%Z ∧ is_Some (d !! k)) as Hkeys'.
    { intros k. split.
      - intros Hk. split.
        + rewrite Forall_forall in Hall. specialize (Hall k Hk). lia.
        + apply Hkeys. by right.
      - intros [Hk1 Hk2].
        assert (k ∈ num :: rest) as Hin by (apply Hkeys; split; [lia|done]).
        apply elem_of_cons in Hin as [->|?]; [lia|done]. }
    assert (dense d typeval (Z.to_nat (num + 1))
            = (dense d typeval (Z.to_nat count)
               ++ replicate (Z.to_nat (num - count)) typeval) ++ [v]) as Hdense.
    { replace (Z.to_nat (num + 1)) with (S (Z.to_nat count + Z.to_nat (num - count))) by lia.
      apply dense_gap.
      - intros i Hi. apply eq_None_not_Some. intros Hsome.
        assert (Z.of_nat i ∈ num :: rest) as Hin by (apply Hkeys; split; [lia|done]).
        apply elem_of_cons in Hin as [?|Hin]; [lia|].
        rewrite Forall_forall in Hall. specialize (Hall _ Hin). lia.
      - replace (Z.of_nat (Z.to_nat count + Z.to_nat (num - count))) with num by lia.
        done. }
    assert (foldr Z.max (count - 1)%Z (num :: rest) = foldr Z.max (num + 1 - 1)%Z rest)
      as Hmax.
    { simpl. replace (num + 1 - 1)%Z with num by lia.
      apply foldr_max_init. lia. }
    rewrite Hmax, <- (IH (num + 1)%Z) by (done || lia).
    simpl. destruct (decide (num = count)) as [->|Hne].
    + rewrite Hv. simpl. rewrite Hdense, Z.sub_diag. simpl. by rewrite app_nil_r.
    + unfold gap_fuel. rewrite fill_gap_enough by (done || lia).
      rewrite Hv. simpl. by rewrite Hdense.
Qed.

Lemma StronglySorted_le_lt (l : list Z) :
  StronglySorted Z.le l → NoDup l → StronglySorted Z.lt l.
Proof.
  induction 1 as [|x l Hl IH Hall]; intros Hnd; [constructor|].
  apply NoDup_cons in Hnd as [Hx Hnd]. constructor; [by apply IH|].
  rewrite Forall_forall in *. intros y Hy.
  specialize (Hall y Hy). assert (x ≠ y) by (intros ->; done). lia.
Qed.

Lemma sorted_keys_perm d : sorted_keys d ≡ₚ elements (dom d).
Proof. apply merge_sort_Permutation. Qed.

Lemma sorted_keys_sorted d : StronglySorted Z.lt (sorted_keys d).
Proof.
  apply StronglySorted_le_lt.
  - apply (StronglySorted_merge_sort Z.le).
  - rewrite sorted_keys_perm. apply NoDup_elements.
Qed.

Lemma elem_of_sorted_keys d k : k ∈ sorted_keys d ↔ is_Some (d !! k).
Proof. rewrite sorted_keys_perm, elem_of_elements. apply elem_of_dom. Qed.

Lemma max_key_sorted d : foldr Z.max (-1)%Z (sorted_keys d) = max_key d.
Proof.
  unfold max_key. apply (foldr_permutation (=) Z.max).
  - solve_proper.
  - intros. lia.
  - apply sorted_keys_perm.
Qed.

Lemma dicttolist_is_dense d typename typeval :
  gettypeval typename = Ok typeval →
  (∀ k, is_Some (d !! k) → (0 ≤ k)%Z) →
  dicttolist d typename = Ok (dense d typeval (Z.to_nat (max_key d + 1))).
Proof.
  intros Htv Hnonneg. unfold dicttolist. rewrite Htv. simpl.
  rewrite <- max_key_sorted.
  apply (dicttolist_loop_dense d typeval (sorted_keys d) 0).
  - apply sorted_keys_sorted.
  - done.
  - intros k. rewrite elem_of_sorted_keys. split; [intros Hk; split; [by apply Hnonneg|done] | by intros [_ ?]].
Qed.

Lemma foldr_max_ge_init a (l : list Z) : (a ≤ foldr Z.max a l)%Z.
Proof. induction l; simpl; lia. Qed.

Lemma foldr_max_ge_elem a (l : list Z) k : k ∈ l → (k ≤ foldr Z.max a l)%Z.
Proof.
  induction l as [|x l IH]; [by intros ?%elem_of_nil|].
  intros [->|Hk%IH]%elem_of_cons; simpl; lia.
Qed.

Lemma foldr_max_elem a (l : list Z) :
  foldr Z.max a l = a ∨ foldr Z.max a l ∈ l.
Proof.
  induction l as [|x l [IH|IH]]; simpl; [by left| |].
  - destruct (Z.max_spec x (foldr Z.max a l)) as [[_ ->]|[_ ->]];
      [by left | right; left].
  - right. destruct (Z.max_spec x (foldr Z.max a l)) as [[_ ->]|[_ ->]];
      [by right | left].
Qed.

Lemma max_key_ge d k : is_Some (d !! k) → (k ≤ max_key d)%Z.
Proof.
  intros Hk. apply foldr_max_ge_elem. by apply elem_of_elements, elem_of_dom.
Qed.

Lemma gettypeval_cases typename typeval :
  gettypeval typename = Ok typeval →
  (Str.contains "int" typename = true ∧ typeval = PyInt 123) ∨
  (Str.contains "int" typename = false ∧ Str.contains "bool" typename = true
   ∧ typeval = PyBool true) ∨
  (Str.contains "int" typename = false ∧ Str.contains "bool" typename = false
   ∧ Str.contains "double" typename || Str.contains "float" typename = true
   ∧ typeval = PyFloat float_123).
Proof.
  unfold gettypeval.
  destruct (Str.contains "int" typename); [intros [= <-]; by left|].
  destruct (Str.contains "bool" typename); [intros [= <-]; right; by left|].
  destruct (Str.contains "double" typename || Str.contains "float" typename);
    [intros [= <-]; right; by right | done].
Qed.

(** C4. On a successful execution, an output accumulator whose keys are
    non-negative integers is turned into the dense sequence of length
    (largest key + 1) that holds each written value at its index and the
    placeholder of the type at every index that was not written; the keys are
    scanned in ascending order, and the placeholder is 123 for an integer
    type, True for bool and 123.0 for double and float. *)
Theorem dicttolist_fills_gaps (outputdict : gmap Z pyval) (typename : string)
    (typeval : pyval) :
  gettypeval typename = Ok typeval →
  (∀ k, is_Some (outputdict !! k) → (0 ≤ k)%Z) →
  ∃ vallist,
    dicttolist outputdict typename = Ok vallist ∧
    Z.of_nat (length vallist) = (max_key outputdict + 1)%Z ∧
    (∀ k v, outputdict !! k = Some v → vallist !! Z.to_nat k = Some v) ∧
    (∀ i, i < length vallist → outputdict !! Z.of_nat i = None →
          vallist !! i = Some typeval) ∧
    StronglySorted Z.lt (sorted_keys outputdict) ∧
    (∀ k, k ∈ sorted_keys outputdict ↔ is_Some (outputdict !! k)) ∧
    ((Str.contains "int" typename = true ∧ typeval = PyInt 123) ∨
     (Str.contains "int" typename = false ∧ Str.contains "bool" typename = true
      ∧ typeval = PyBool true) ∨
     (Str.contains "int" typename = false ∧ Str.contains "bool" typename = false
      ∧ Str.contains "double" typename || Str.contains "float" typename = true
      ∧ typeval = PyFloat float_123)).
Proof.
  intros Htv Hnonneg.
  pose proof (foldr_max_ge_init (-1) (elements (dom outputdict))) as Hmax.
  fold (max_key outputdict) in Hmax.
  exists (dense outputdict typeval (Z.to_nat (max_key outputdict + 1))).
  split; [by apply dicttolist_is_dense|].
  rewrite dense_length.
  split; [lia|]. split; [|split; [|split; [|split]]].
  - intros k v Hk.
    assert (0 ≤ k ≤ max_key outputdict)%Z as Hrange
      by (split; [apply Hnonneg | apply max_key_ge]; by rewrite Hk).
    rewrite dense_lookup by lia. by rewrite Z2Nat.id, Hk by lia.
  - intros i Hi Hnone. rewrite dense_lookup by done. by rewrite Hnone.
  - apply sorted_keys_sorted.
  - apply elem_of_sorted_keys.
  - by apply gettypeval_cases.
Qed.

Lemma dicttolist_fills_gaps_witness :
  ∃ vallist,
    dicttolist {[ 0%Z := PyInt 5; 3%Z := PyInt 7 ]} "List[int64_t]" = Ok vallist ∧
    vallist = [PyInt 5; PyInt 123; PyInt 123; PyInt 7].
Proof.
  destruct (dicttolist_fills_gaps {[ 0%Z := PyInt 5; 3%Z := PyInt 7 ]}
              "List[int64_t]" (PyInt 123)) as (vallist & Hrun & _).
  - reflexivity.
  - intros k [v Hv]. apply lookup_insert_Some in Hv as [[<- _]|[_ Hv]]; [lia|].
    apply lookup_singleton_Some in Hv as [<- _]. lia.
  - exists vallist. split; [exact Hrun|].
    vm_compute in Hrun. by injection Hrun as <-.
Defined.

Lemma max_key_dict_of_list l : (max_key (dict_of_list l) + 1)%Z = Z.of_nat (length l).
Proof.
  pose proof (foldr_max_ge_init (-1) (elements (dom (dict_of_list l)))) as Hge.
  destruct (foldr_max_elem (-1) (elements (dom (dict_of_list l)))) as [Hm|Hm];
    fold (max_key (dict_of_list l)) in *.
  - destruct l as [|x l]; [done|]. exfalso.
    assert (0 ≤ max_key (dict_of_list (x :: l)))%Z; [|lia].
    apply max_key_ge. unfold dict_of_list. rewrite lookup_map_seqZ_is_Some.
    simpl. lia.
  - apply elem_of_elements, elem_of_dom in Hm.
    unfold dict_of_list in Hm at 2. rewrite lookup_map_seqZ_is_Some in Hm.
    destruct (decide (length l = 0)) as [Hl|Hl]; [lia|].
    assert (Z.of_nat (length l) - 1 ≤ max_key (dict_of_list l))%Z; [|lia].
    apply max_key_ge. unfold dict_of_list. rewrite lookup_map_seqZ_is_Some. lia.
Qed.

(** C7. The reconstruction is idempotent: applied to the mapping from each
    index to the value at that index of a sequence it has produced, it
    produces the same sequence. *)
Theorem dicttolist_idempotent (outputdict : gmap Z pyval) (typename : string)
    (vallist : list pyval) :
  dicttolist outputdict typename = Ok vallist →
  dicttolist (dict_of_list vallist) typename = Ok vallist.
Proof.
  intros Hrun. unfold dicttolist in Hrun.
  apply bind_Ok in Hrun as (typeval & Htv & _).
  rewrite (dicttolist_is_dense _ _ typeval Htv).
  - f_equal. rewrite max_key_dict_of_list, Nat2Z.id.
    apply list_eq. intros i. destruct (decide (i < length vallist)) as [Hi|Hi].
    + rewrite dense_lookup by done. unfold dict_of_list.
      rewrite lookup_map_seqZ_0, Nat2Z.id by lia.
      destruct (lookup_lt_is_Some_2 vallist i Hi) as [v ->]. done.
    + rewrite !lookup_ge_None_2; [done |lia | rewrite dense_length; lia].
  - intros k. unfold dict_of_list. rewrite lookup_map_seqZ_is_Some. lia.
Qed.

Lemma dicttolist_idempotent_witness :
  dicttolist (dict_of_list [PyInt 5; PyInt 123; PyInt 123; PyInt 7]) "List[int64_t]"
  = Ok [PyInt 5; PyInt 123; PyInt 123; PyInt 7].
Proof.
  apply (dicttolist_idempotent {[ 0%Z := PyInt 5; 3%Z := PyInt 7 ]}).
  vm_compute. reflexivity.
Defined.

(** ** The range validator *)

Lemma prefix_cons a s1 b s2 :
  String.prefix (String a s1) (String b s2)
  = if Ascii.ascii_dec a b then String.prefix s1 s2 else false.
Proof. reflexivity. Qed.

Lemma contains_cons sub c s :
  Str.contains sub (String c s) = String.prefix sub (String c s) || Str.contains sub s.
Proof. reflexivity. Qed.

Lemma contains_uint_int s :
  Str.contains "uint" s = true → Str.contains "int" s = true.
Proof.
  induction s as [|c s IH]; [done|].
  rewrite !contains_cons.
  intros [Hp|Hc]%orb_true_iff.
  - apply orb_true_iff. right. rewrite prefix_cons in Hp.
    destruct (Ascii.ascii_dec _ c); [|done].
    destruct s as [|c' s]; [done|].
    rewrite contains_cons. by rewrite Hp.
  - apply orb_true_iff. right. by apply IH.
Qed.

Lemma py_between_within lo hi v :
  is_number v = true →
  ∃ ok, py_between lo hi v = Ok ok ∧ (ok = true ↔ within lo hi v).
Proof.
  destruct v as [z|b|f| | | | |]; try done; intros _; simpl.
  - eexists; split; [done|]. rewrite andb_true_iff, !Z.leb_le. done.
  - eexists; split; [done|]. rewrite andb_true_iff, !Z.leb_le. done.
  - eexists; split; [done|].
    destruct (float_compare_Z f lo) as [[]|], (float_compare_Z f hi) as [[]|];
      intuition congruence.
Qed.

Lemma scalars_numbers (l : list pyval) :
  Forall (λ v, is_number v = true) l → concat (scalars <$> l) = l.
Proof.
  induction 1 as [|v l Hv _ IH]; [done|].
  rewrite fmap_cons, concat_cons, IH. by destruct v.
Qed.

Lemma check_items_spec lo hi items flag :
  Forall (λ v, is_number v = true) items →
  ∃ b, check_items lo hi items flag = Ok b ∧
    (b = true ↔ flag = true ∧ Forall (within lo hi) items).
Proof.
  intros Hitems. revert flag.
  induction Hitems as [|v items Hv _ IH]; intros flag; simpl.
  - exists flag. split; [done|]. rewrite Forall_nil. tauto.
  - destruct (py_between_within lo hi v Hv) as (ok & -> & Hok). simpl.
    destruct (IH (if ok then flag else false)) as (b & -> & Hb).
    exists b. split; [done|]. rewrite Hb, Forall_cons.
    destruct ok; [|split; [intros [[=] _]|intros (_ & Hw & _)]].
    + assert (within lo hi v) by (by apply Hok). tauto.
    + apply Hok in Hw. done.
Qed.

Lemma check_rows_spec lo hi rows flag :
  Forall (nested_numbers 1) rows →
  ∃ b, check_rows lo hi rows flag = Ok b ∧
    (b = true ↔ flag = true ∧ Forall (within lo hi) (concat (scalars <$> rows))).
Proof.
  intros Hrows. revert flag.
  induction Hrows as [|row rows Hrow _ IH]; intros flag; simpl.
  - exists flag. split; [done|]. rewrite Forall_nil. tauto.
  - destruct row as [| | | | |l| |]; try done. simpl in Hrow |- *.
    destruct (check_items_spec lo hi l flag Hrow) as (flag' & -> & Hflag'). simpl.
    destruct (IH flag') as (b & -> & Hb).
    exists b. split; [done|].
    rewrite Hb, Hflag', Forall_app, (scalars_numbers l Hrow). tauto.
Qed.

Lemma checkintrange_arg_spec iinfo args flag arg val :
  (∃ argument, list_find (λ a, name a = arg) args = Some argument ∧
     let typename := remove_const (typename argument.2) in
     Str.contains "int" typename = true →
     is_Ok (iinfo (gettypename typename)) ∧
     nested_numbers (declared_nesting typename) val) →
  ∃ b, checkintrange_arg iinfo args flag arg val = Ok b ∧
    (b = true ↔ flag = true ∧
       ∀ argument lo hi,
         list_find (λ a, name a = arg) args = Some argument →
         Str.contains "int" (remove_const (typename argument.2)) = true →
         iinfo (gettypename (remove_const (typename argument.2))) = Ok (lo, hi) →
         Forall (within lo hi) (scalars val)).
Proof.
  intros (argument & Hfind & Hshape). unfold checkintrange_arg.
  rewrite Hfind. simpl in *.
  destruct (Str.contains "int" (remove_const (typename argument.2))) eqn:Hint.
  - simpl. destruct (Hshape eq_refl) as [[[lo hi] Hinfo] Hnest].
    rewrite Hinfo. simpl. unfold declared_nesting in Hnest.
    assert (∀ P : Prop,
      (∀ argument0 lo0 hi0, Some argument = Some argument0 →
         Str.contains "int" (remove_const (typename argument0.2)) = true →
         iinfo (gettypename (remove_const (typename argument0.2))) = Ok (lo0, hi0) →
         Forall (within lo0 hi0) (scalars val)) ↔ Forall (within lo hi) (scalars val))
      as Hiff.
    { intros _. split.
      - intros H. by apply (H argument).
      - intros H argument0 lo0 hi0 [= <-] _ Hinfo0.
        rewrite Hinfo in Hinfo0. by injection Hinfo0 as <- <-. }
    setoid_rewrite (Hiff True).
    destruct (Str.contains "List[List" (remove_const (typename argument.2))).
    + destruct val as [| | | | |rows| |]; try done. simpl in Hnest |- *.
      apply check_rows_spec. done.
    + destruct (Str.contains "List" (remove_const (typename argument.2))).
      * destruct val as [| | | | |items| |]; try done. simpl in Hnest |- *.
        rewrite (scalars_numbers items Hnest). by apply check_items_spec.
      * simpl in Hnest.
        destruct (py_between_within lo hi val Hnest) as (ok & -> & Hok). simpl.
        exists (if ok then flag else false). split; [done|].
        assert (scalars val = [val]) as -> by (by destruct val).
        rewrite Forall_singleton, <- Hok. destruct ok, flag; intuition congruence.
  - assert (Str.contains "uint" (remove_const (typename argument.2)) = false) as ->.
    { apply not_true_is_false. intros Hu%contains_uint_int. congruence. }
    simpl. exists flag. split; [done|].
    split; [|tauto]. intros ->. split; [done|].
    intros argument0 lo hi [= <-]. congruence.
Qed.

Lemma checkintrange_loop_spec iinfo test_args args flag :
  well_shaped iinfo test_args args →
  ∃ b, checkintrange_loop iinfo test_args args flag = Ok b ∧
    (b = true ↔ flag = true ∧ all_within_range iinfo test_args args).
Proof.
  intros Hshape. revert flag.
  induction Hshape as [|[arg val] test_args Hentry _ IH]; intros flag; simpl.
  - exists flag. split; [done|]. split; [|tauto]. intros ->. split; [done|].
    intros ????? Hin. by apply elem_of_nil in Hin.
  - destruct (checkintrange_arg_spec iinfo args flag arg val Hentry)
      as (flag' & -> & Hflag'). simpl.
    destruct (IH flag') as (b & -> & Hb). exists b. split; [done|].
    rewrite Hb, Hflag'. unfold all_within_range. split.
    + intros [[-> Hhere] Hrest]. split; [done|].
      intros arg' val' argument lo hi [[= -> ->]|Hin]%elem_of_cons; eauto.
    + intros [-> Hall]. repeat split.
      * intros argument lo hi. apply Hall. left.
      * intros arg' val' argument lo hi Hin. apply Hall. by right.
Qed.

(** C8. The range validator of the unit-test path accepts every record whose
    error flag is set, whatever its values; a record whose error flag is not
    set, and whose entries fit the declared arguments, is accepted if and
    only if every scalar of every integer-typed entry, through its list or
    list-of-list nesting, lies within the [min, max] of the bit width of the
    entry's declared type. *)
Theorem checkintrange_accepts (iinfo : string → result (Z * Z))
    (test_args : list (string * pyval)) (args : list Argument) :
  checkintrange iinfo test_args true args = Ok true ∧
  (well_shaped iinfo test_args args →
   ∃ accepted, checkintrange iinfo test_args false args = Ok accepted ∧
     (accepted = true ↔ all_within_range iinfo test_args args)).
Proof.
  split; [done|]. intros Hshape. unfold checkintrange. simpl.
  destruct (checkintrange_loop_spec iinfo test_args args true Hshape)
    as (b & Hrun & Hb).
  exists b. split; [done|]. rewrite Hb. tauto.
Qed.

Lemma checkintrange_accepts_witness :
  ∃ accepted,
    checkintrange np_iinfo
      [("x", PyList [PyInt 1; PyInt 300]); ("n", PyInt 7)] false
      [mkArgument "x" "Const[List[uint8_t]]" "in" "default";
       mkArgument "n" "int64_t" "in" "default"] = Ok accepted ∧
    (accepted = true ↔
     all_within_range np_iinfo
       [("x", PyList [PyInt 1; PyInt 300]); ("n", PyInt 7)]
       [mkArgument "x" "Const[List[uint8_t]]" "in" "default";
        mkArgument "n" "int64_t" "in" "default"]).
Proof.
  apply checkintrange_accepts.
  apply Forall_cons_2; [|apply Forall_cons_2; [|apply Forall_nil_2]].
  - eexists. split; [reflexivity|]. cbv zeta. intros _.
    split; [eexists; reflexivity|]. vm_compute. repeat constructor.
  - eexists. split; [reflexivity|]. cbv zeta. intros _.
    split; [eexists; reflexivity|]. reflexivity.
Defined.

(** ** Ordered dictionaries *)

Lemma od_get_set {A} (d : odict A) k v k' :
  od_get (od_set d k v) k' = if decide (k' = k) then Some v else od_get d k'.
Proof.
  induction d as [|[k0 v0] d IH]; simpl.
  - by destruct (decide (k' = k)).
  - destruct (decide (k = k0)) as [->|Hne]; simpl.
    + by destruct (decide (k' = k0)).
    + rewrite IH. destruct (decide (k' = k0)) as [->|]; [|done].
      by rewrite decide_False.
Qed.

Lemma od_get_set_eq {A} (d : odict A) k v : od_get (od_set d k v) k = Some v.
Proof. by rewrite od_get_set, decide_True. Qed.

Lemma od_get_set_ne {A} (d : odict A) k v k' :
  k' ≠ k → od_get (od_set d k v) k' = od_get d k'.
Proof. intros. by rewrite od_get_set, decide_False. Qed.

(** ** C10: kernels without roles *)

(** C10. A kernel whose templatized name is one of
    "awkward_NumpyArray_sort_asstrings_uint8", "awkward_argsort" and
    "awkward_sort" is constructed with an empty list of tests, whether or not
    it is enabled for automatic tests and whatever the fixture corpus holds. *)
Theorem no_role_kernel_has_no_tests (env : kernel_env) (templatized : string)
    (spec : yaml_spec) (testdata : gmap string pyval) (blacklisted : bool) :
  templatized ∈ no_role_kernels →
  ∃ s, Specification_init env templatized spec testdata blacklisted = Ok s ∧
       tests s = [] ∧ templatized_kernel_name s = templatized.
Proof.
  intros Hin. unfold Specification_init.
  destruct blacklisted; [by eexists|].
  rewrite bool_decide_eq_true_2 by done. by eexists.
Qed.

Lemma no_role_kernel_has_no_tests_witness :
  ∃ s, Specification_init (Sample.env Sample.does_nothing) "awkward_sort"
         (mkYamlSpec "kernel" [mkYamlArg "x" "List[int64_t]" "in" None])
         (Sample.num [PyInt 1]) false = Ok s ∧
       tests s = [] ∧ templatized_kernel_name s = "awkward_sort".
Proof.
  apply no_role_kernel_has_no_tests.
  unfold no_role_kernels. do 2 right. left.
Defined.

(** ** C3: the record of a domain error *)

Lemma record_failure_frame args temp intests result k :
  record_failure args temp intests = Ok result →
  k ∉ name <$> args → od_get result k = od_get intests k.
Proof.
  revert intests. induction args as [|arg args IH]; intros intests; simpl.
  - by intros [= <-].
  - intros Hrun Hk. apply not_elem_of_cons in Hk as [Hne Hk].
    apply bind_Ok in Hrun as (v & _ & Hrun).
    destruct (decide (direction arg = "out")).
    + apply bind_Ok in Hrun as (n & _ & Hrun).
      apply bind_Ok in Hrun as (dummy & _ & Hrun).
      rewrite (IH _ Hrun Hk). by apply od_get_set_ne.
    + rewrite (IH _ Hrun Hk). by apply od_get_set_ne.
Qed.

Lemma record_failure_spec args temp intests result arg :
  record_failure args temp intests = Ok result →
  NoDup (name <$> args) → arg ∈ args →
  if decide (direction arg = "out") then
    ∃ typeval acc n,
      gettypeval (typename arg) = Ok typeval ∧
      od_get temp (name arg) = Some acc ∧ py_len acc = Ok n ∧
      od_get result (name arg) = Some (PyList (replicate n typeval))
  else
    ∃ v, od_get temp (name arg) = Some v ∧ od_get result (name arg) = Some v.
Proof.
  revert intests. induction args as [|arg0 args IH]; intros intests Hrun Hnd Hin.
  - by apply elem_of_nil in Hin.
  - rewrite fmap_cons in Hnd. apply NoDup_cons in Hnd as [Hfresh Hnd].
    simpl in Hrun. apply bind_Ok in Hrun as (v & Hv & Hrun).
    apply elem_of_cons in Hin as [->|Hin].
    + destruct (od_get temp (name arg0)) as [v'|] eqn:Hget; [|done].
      injection Hv as ->.
      destruct (decide (direction arg0 = "out")).
      * apply bind_Ok in Hrun as (n & Hn & Hrun).
        apply bind_Ok in Hrun as (dummy & Hdummy & Hrun).
        unfold getdummyvalue in Hdummy.
        apply bind_Ok in Hdummy as (typeval & Htv & [= <-]).
        exists typeval, v, n. repeat split; [done..|].
        rewrite (record_failure_frame _ _ _ _ _ Hrun Hfresh).
        apply od_get_set_eq.
      * exists v. split; [done|].
        rewrite (record_failure_frame _ _ _ _ _ Hrun Hfresh).
        apply od_get_set_eq.
    + destruct (decide (direction arg0 = "out")).
      * apply bind_Ok in Hrun as (n & _ & Hrun).
        apply bind_Ok in Hrun as (dummy & _ & Hrun). by eapply IH.
      * by eapply IH.
Qed.

Lemma record_failure_total args temp intests :
  (∀ arg, arg ∈ args →
     ∃ v, od_get temp (name arg) = Some v ∧
       (direction arg = "out" →
        is_Ok (py_len v) ∧ is_Ok (gettypeval (typename arg)))) →
  is_Ok (record_failure args temp intests).
Proof.
  revert intests. induction args as [|arg args IH]; intros intests Hall; simpl.
  - by eexists.
  - destruct (Hall arg) as (v & -> & Hout); [left|]. simpl.
    assert (∀ arg', arg' ∈ args →
      ∃ v, od_get temp (name arg') = Some v ∧
        (direction arg' = "out" →
         is_Ok (py_len v) ∧ is_Ok (gettypeval (typename arg')))) as Hrest
      by (intros; apply Hall; by right).
    destruct (decide (direction arg = "out")) as [Hdir|]; [|by apply IH].
    destruct (Hout Hdir) as [[n ->] [typeval Htv]]. simpl.
    unfold getdummyvalue. rewrite Htv. simpl. by apply IH.
Qed.

(** C3, amended. When the reference callable raises the domain error
    ([ValueError]), the test case that results has [success] false and no
    [outargs]; each input argument is recorded with the value it holds after
    the call, and each output argument is recorded in [inargs] as a sequence
    of the placeholder of its type alone, as long as its accumulator is after
    the call: what the callable did to the objects before it raised is
    recorded. The test case results whenever every accumulator has a length
    and every output type is recognised. When the callable leaves the
    objects as they were passed, the record is the one of the specification:
    the inputs as given, and buffers of the length of the accumulators that
    were passed in. *)
Theorem domain_error_record (args : list Argument) (funcPy : kernel)
    (temp temp' : odict pyval) (msg : string) :
  funcPy temp = Raised (ValueError msg) temp' →
  NoDup (name <$> args) →
  (∀ tempdict, execute args funcPy temp = Ok tempdict →
     success tempdict = false ∧ outargs tempdict = None ∧
     ∀ arg, arg ∈ args →
       if decide (direction arg = "out") then
         ∃ typeval acc n,
           gettypeval (typename arg) = Ok typeval ∧
           od_get temp' (name arg) = Some acc ∧ py_len acc = Ok n ∧
           od_get (inargs tempdict) (name arg) = Some (PyList (replicate n typeval))
       else
         ∃ v, od_get temp' (name arg) = Some v ∧
              od_get (inargs tempdict) (name arg) = Some v) ∧
  ((∀ arg, arg ∈ args →
      ∃ v, od_get temp' (name arg) = Some v ∧
        (direction arg = "out" →
         is_Ok (py_len v) ∧ is_Ok (gettypeval (typename arg)))) →
   is_Ok (execute args funcPy temp)) ∧
  (temp' = temp →
   ∀ tempdict, execute args funcPy temp = Ok tempdict →
     claimed_error_record args temp tempdict).
Proof.
  intros Hraise Hnd.
  assert (∀ tempdict, execute args funcPy temp = Ok tempdict →
     success tempdict = false ∧ outargs tempdict = None ∧
     ∀ arg, arg ∈ args →
       if decide (direction arg = "out") then
         ∃ typeval acc n,
           gettypeval (typename arg) = Ok typeval ∧
           od_get temp' (name arg) = Some acc ∧ py_len acc = Ok n ∧
           od_get (inargs tempdict) (name arg) = Some (PyList (replicate n typeval))
       else
         ∃ v, od_get temp' (name arg) = Some v ∧
              od_get (inargs tempdict) (name arg) = Some v) as Hrecord.
  { unfold execute. rewrite Hraise.
    intros tempdict Hrun. apply bind_Ok in Hrun as (intests & Hrun & [= <-]).
    simpl. repeat split. intros arg Hin.
    by apply (record_failure_spec args temp' [] intests arg). }
  split; [exact Hrecord|]. split.
  - intros Hall. unfold execute. rewrite Hraise.
    destruct (record_failure_total args temp' [] Hall) as [intests ->].
    by eexists.
  - intros <- tempdict Hrun. by apply Hrecord.
Qed.

Lemma domain_error_record_witness :
  is_Ok (execute [Sample.x_in "List[int64_t]"; Sample.y_out "List[int64_t]"]
           Sample.fails_after_write
           [("x", PyList [PyInt 1; PyInt 2]); ("y", PyDict ∅)]).
Proof.
  apply (domain_error_record
    [Sample.x_in "List[int64_t]"; Sample.y_out "List[int64_t]"]
    Sample.fails_after_write
    [("x", PyList [PyInt 1; PyInt 2]); ("y", PyDict ∅)]
    [("x", PyList [PyInt 1; PyInt 2]); ("y", PyDict {[ 0%Z := PyInt 9 ]})]
    "out of range").
  - reflexivity.
  - apply (bool_decide_unpack _). vm_compute. exact I.
  - intros arg [->|[->|[]%elem_of_nil]%elem_of_cons]%elem_of_cons;
      eexists; (split; [reflexivity|]); intros; split; eexists; reflexivity.
Defined.

(** C3 as worded fails: a kernel that overwrites its input and writes one
    output before it raises the domain error. The input is recorded as
    [[99]], not as the [[1, 2]] that was given, and the buffer of the output
    has one item although its accumulator was passed in empty. *)
Lemma domain_error_record_counterexample :
  ∃ inst x t,
    raw_combinations [Sample.x_in "List[int64_t]"; Sample.y_out "List[int64_t]"]
      (Sample.num [PyInt 1; PyInt 2]) = Ok (inst, [x]) ∧
    bind_combination inst x = [("x", PyList [PyInt 1; PyInt 2]); ("y", PyDict ∅)] ∧
    Sample.overwrites_then_fails (bind_combination inst x)
    = Raised (ValueError "out of range")
        [("x", PyList [PyInt 99]); ("y", PyDict {[ 0%Z := PyInt 9 ]})] ∧
    gettests (Sample.env Sample.overwrites_then_fails) "kernel"
      [Sample.x_in "List[int64_t]"; Sample.y_out "List[int64_t]"]
      (Sample.num [PyInt 1; PyInt 2]) = Ok [t] ∧
    t = mkTestCase [("x", PyList [PyInt 99]); ("y", PyList [PyInt 123])] None false ∧
    ¬ claimed_error_record
        [Sample.x_in "List[int64_t]"; Sample.y_out "List[int64_t]"]
        (bind_combination inst x) t.
Proof.
  eexists _, _, _. split; [vm_compute; reflexivity|].
  split; [reflexivity|]. split; [reflexivity|].
  split; [vm_compute; reflexivity|]. split; [reflexivity|].
  intros (_ & _ & Hall).
  destruct (Hall (Sample.x_in "List[int64_t]")) as (v & Hgiven & Hrecorded); [left|].
  vm_compute in Hgiven, Hrecorded. congruence.
Qed.

Lemma record_success_frame arguments temp : ∀ intests outtests intests' outtests' k,
  record_success arguments temp intests outtests = Recorded intests' outtests' →
  k ∉ name <$> arguments →
  od_get intests' k = od_get intests k ∧ od_get outtests' k = od_get outtests k.
Proof.
  induction arguments as [|arg arguments IH];
    intros intests outtests intests' outtests' k Hrun Hk.
  - by injection Hrun as <- <-.
  - rewrite fmap_cons in Hk. apply not_elem_of_cons in Hk as [Hne Hk].
    simpl in Hrun. destruct (od_get temp (name arg)) as [v|]; [|done].
    destruct (decide (direction arg = "out")).
    + destruct (is_dict v); [|done].
      destruct (dicttolist_any v (typename arg)) as [l|]; [|done].
      destruct (getdummyvalue (typename arg) (length l)) as [dummy|]; [|done].
      destruct (IH _ _ _ _ k Hrun Hk) as [-> ->].
      by rewrite !od_get_set_ne.
    + destruct (IH _ _ _ _ k Hrun Hk) as [-> ->].
      by rewrite od_get_set_ne.
Qed.

Lemma record_success_spec arguments temp : ∀ intests outtests intests' outtests' arg,
  record_success arguments temp intests outtests = Recorded intests' outtests' →
  NoDup (name <$> arguments) → arg ∈ arguments →
  if decide (direction arg = "out") then
    ∃ acc l typeval,
      od_get temp (name arg) = Some acc ∧ is_dict acc = true ∧
      dicttolist_any acc (typename arg) = Ok l ∧
      gettypeval (typename arg) = Ok typeval ∧
      od_get outtests' (name arg) = Some (PyList l) ∧
      od_get intests' (name arg) = Some (PyList (replicate (length l) typeval))
  else
    ∃ v, od_get temp (name arg) = Some v ∧ od_get intests' (name arg) = Some v ∧
         od_get outtests' (name arg) = od_get outtests (name arg).
Proof.
  induction arguments as [|arg0 arguments IH];
    intros intests outtests intests' outtests' arg Hrun Hnd Hin.
  - by apply elem_of_nil in Hin.
  - rewrite fmap_cons in Hnd. apply NoDup_cons in Hnd as [Hfresh Hnd].
    simpl in Hrun. destruct (od_get temp (name arg0)) as [v|] eqn:Hget; [|done].
    apply elem_of_cons in Hin as [->|Hin].
    + destruct (decide (direction arg0 = "out")).
      * destruct (is_dict v) eqn:Hdict; [|done].
        destruct (dicttolist_any v (typename arg0)) as [l|] eqn:Hl; [|done].
        destruct (getdummyvalue (typename arg0) (length l)) as [dummy|] eqn:Hd;
          [|done].
        unfold getdummyvalue in Hd. apply bind_Ok in Hd as (typeval & Htv & [= <-]).
        destruct (record_success_frame _ _ _ _ _ _ _ Hrun Hfresh) as [-> ->].
        exists v, l, typeval. by rewrite !od_get_set_eq.
      * destruct (record_success_frame _ _ _ _ _ _ _ Hrun Hfresh) as [-> ->].
        exists v. by rewrite od_get_set_eq.
    + assert (name arg ≠ name arg0) as Hne.
      { intros Heq. apply Hfresh. rewrite <- Heq. apply list_elem_of_fmap. eauto. }
      destruct (decide (direction arg0 = "out")).
      * destruct (is_dict v); [|done].
        destruct (dicttolist_any v (typename arg0)) as [l|]; [|done].
        destruct (getdummyvalue (typename arg0) (length l)) as [dummy|]; [|done].
        pose proof (IH _ _ _ _ arg Hrun Hnd Hin) as Hspec.
        destruct (decide (direction arg = "out")); [done|].
        destruct Hspec as (w & ? & ? & ->). exists w. by rewrite od_get_set_ne.
      * by eapply IH.
Qed.

(** ** C5: unrecognised type descriptors *)




Lemma is_dict_py_len v : is_dict v = true → is_Ok (py_len v).
Proof. destruct v; try done; by eexists. Qed.

Lemma dicttolist_any_typeval v typename l :
  dicttolist_any v typename = Ok l → is_Ok (gettypeval typename).
Proof.
  destruct v; try done; simpl; unfold dicttolist;
    destruct (gettypeval typename); try done; by eexists.
Qed.

Lemma dicttolist_any_ValueError v typename msg :
  dicttolist_any v typename = Raise (ValueError msg) →
  gettypeval typename = Raise (ValueError msg).
Proof.
  assert (∀ keys d typeval count vallist,
    dicttolist_loop keys d typeval count vallist ≠ Raise (ValueError msg)) as Hloop.
  { induction keys as [|num keys IH]; intros d typeval count vallist; [done|].
    simpl. destruct (decide (num = count)).
    - destruct (d !! num); [apply IH|done].
    - destruct (fill_gap _ _ _ _ _) as [[count' vallist']|]; [|done].
      destruct (d !! num); [apply IH|done]. }
  destruct v as [| | | | | |d|o]; try done; simpl; unfold dicttolist.
  - destruct (gettypeval typename); [|by intros [= ->]]. simpl. intros H. by apply Hloop in H.
  - destruct (gettypeval typename); [|by intros [= ->]]. simpl. by destruct (decide _).
Qed.

(** The [ValueError] of [gettypeval] in the [try] block is caught by the
    [except] block, whose loop reaches the same argument and raises it again. *)
Lemma record_failure_after_abort args temp msg :
  ∀ intests outtests partial intests',
  record_success args temp intests outtests = Aborted (ValueError msg) partial →
  record_failure args temp intests' = Raise (ValueError msg).
Proof.
  induction args as [|arg args IH]; intros intests outtests partial intests' Hs; [done|].
  simpl in *. destruct (od_get temp (name arg)) as [v|]; [|done]. simpl.
  destruct (decide (direction arg = "out")); [|by eapply IH].
  destruct (is_dict v) eqn:Hdict; [|done].
  destruct (is_dict_py_len v Hdict) as [n ->]. simpl.
  destruct (dicttolist_any v (typename arg)) as [l|err] eqn:Hl.
  - destruct (dicttolist_any_typeval _ _ _ Hl) as [typeval Htv].
    unfold getdummyvalue in *. rewrite Htv in *. simpl in *. by eapply IH.
  - injection Hs as -> _. apply dicttolist_any_ValueError in Hl.
    unfold getdummyvalue. by rewrite Hl.
Qed.













(** ** C2: what the retained test cases satisfy *)

Lemma gettests_loop_retained env kernel_name args inst combos allvals tests t :
  gettests_loop env kernel_name args inst combos allvals = Ok tests →
  t ∈ tests →
  t ∈ allvals ∨
  ∃ x, x ∈ combos ∧ run_combination env kernel_name args inst x = Ok (Some t).
Proof.
  revert allvals. induction combos as [|x combos IH]; intros allvals Hrun Hin.
  - injection Hrun as <-. by left.
  - simpl in Hrun. apply bind_Ok in Hrun as (r & Hx & Hrun).
    destruct (IH _ Hrun Hin) as [Hacc|(x' & Hx' & Hrun')].
    + destruct r as [t'|]; [|by left].
      apply elem_of_app in Hacc as [?|Heq%list_elem_of_singleton]; [by left|].
      subst t'.
      right. exists x. split; [left|done].
    + right. exists x'. split; [by right|done].
Qed.

Lemma run_combination_retained env kernel_name args inst x t :
  run_combination env kernel_name args inst x = Ok (Some t) →
  ∃ funcPy, env kernel_name = Some funcPy ∧
    execute args funcPy (bind_combination inst x) = Ok t ∧
    typevalidates (inargs t) args = Ok true ∧
    validateoverflow args t = Ok true.
Proof.
  unfold run_combination. intros Hrun.
  apply bind_Ok in Hrun as (funcPy & Henv & Hrun).
  apply bind_Ok in Hrun as (tempdict & Hexec & Hrun).
  apply bind_Ok in Hrun as (keep & Hkeep & Hrun).
  destruct keep; [|done]. injection Hrun as ->.
  exists funcPy. destruct (env kernel_name); [|done]. injection Henv as ->.
  split; [done|]. split; [done|].
  unfold retained in Hkeep. apply bind_Ok in Hkeep as (types_ok & Htypes & Hkeep).
  by destruct types_ok.
Qed.

Lemma typevalidates_true testdict arglist arg :
  typevalidates testdict arglist = Ok true → arg ∈ arglist →
  ∃ v typeval, od_get testdict (name arg) = Some v ∧
    gettypeval (typename arg) = Ok typeval ∧ first_item_typed typeval v.
Proof.
  induction arglist as [|arg0 arglist IH]; intros Hrun Hin.
  - by apply elem_of_nil in Hin.
  - simpl in Hrun. apply bind_Ok in Hrun as (v & Hv & Hrun).
    destruct (od_get testdict (name arg0)) as [v'|] eqn:Hget; [|done].
    injection Hv as ->.
    assert (∃ typeval, gettypeval (typename arg0) = Ok typeval ∧
              first_item_typed typeval v ∧ typevalidates testdict arglist = Ok true)
      as (typeval & Htv & Hfirst & Hrest).
    { destruct v as [| | | | |[|first l]| |]; try done;
        apply bind_Ok in Hrun as (typeval & Htv & Hrun); exists typeval;
        simpl; destruct (isinstance_of typeval _) eqn:Hinst; done. }
    apply elem_of_cons in Hin as [->|Hin]; [by eauto|by apply IH].
Qed.

Lemma py_lt0_false n : py_lt0 n = Ok false → not_negative n.
Proof.
  destruct n; try done; simpl; intros [= H]; [|done].
  by apply Z.ltb_ge.
Qed.

Lemma any_negative_false items :
  any_negative items = Ok false → Forall not_negative items.
Proof.
  induction items as [|n items IH]; [constructor|].
  simpl. intros Hrun. apply bind_Ok in Hrun as (b & Hn & Hrun).
  destruct b; [done|]. constructor; [by apply py_lt0_false|by apply IH].
Qed.

Lemma any_negative_in_false v :
  any_negative_in v = Ok false →
  ∃ items, py_iter v = Ok items ∧ Forall not_negative items.
Proof.
  unfold any_negative_in. intros Hrun.
  apply bind_Ok in Hrun as (items & Hiter & Hrun).
  exists items. split; [done|by apply any_negative_false].
Qed.

Lemma validateoverflow_loop_true args t flag arg :
  validateoverflow_loop args t flag = Ok true → arg ∈ args →
  Str.contains "uint" (typename arg) = true →
  ∀ v, recorded_value t arg v →
    ∃ items, py_iter v = Ok items ∧ Forall not_negative items.
Proof.
  assert (∀ l flag, validateoverflow_loop l t flag = Ok true → flag = true)
    as Hflag.
  { clear. induction l as [|arg l IH]; intros flag; [by intros [= ->]|].
    simpl. destruct (Str.contains "uint" (typename arg)); [|apply IH].
    intros Hrun. apply bind_Ok in Hrun as (vin & _ & Hrun).
    apply bind_Ok in Hrun as (neg_in & _ & Hrun).
    apply bind_Ok in Hrun as (neg & _ & Hrun).
    apply IH in Hrun. by destruct neg. }
  revert flag. induction args as [|arg0 args IH]; intros flag Hrun Hin Hu v Hv.
  - by apply elem_of_nil in Hin.
  - simpl in Hrun. apply elem_of_cons in Hin as [->|Hin].
    + rewrite Hu in Hrun.
      apply bind_Ok in Hrun as (vin & Hvin & Hrun).
      apply bind_Ok in Hrun as (neg_in & Hneg_in & Hrun).
      apply bind_Ok in Hrun as (neg & Hneg & Hrun).
      apply Hflag in Hrun. destruct neg; [done|]. destruct neg_in; [done|].
      destruct (od_get (inargs t) (name arg0)) as [vin'|] eqn:Hget; [|done].
      injection Hvin as ->.
      destruct Hv as [Hv|(outs & Houts & Hv)].
      * rewrite Hget in Hv. injection Hv as <-. by apply any_negative_in_false.
      * rewrite Houts, Hv in Hneg. by apply any_negative_in_false.
    + destruct (Str.contains "uint" (typename arg0)); [|by eapply IH].
      apply bind_Ok in Hrun as (vin & _ & Hrun).
      apply bind_Ok in Hrun as (neg_in & _ & Hrun).
      apply bind_Ok in Hrun as (neg & _ & Hrun). by eapply IH.
Qed.

Lemma not_negative_number v : not_negative v → is_number v = true.
Proof. by destruct v. Qed.

Lemma iterated_not_negative v items :
  py_iter v = Ok items → Forall not_negative items →
  Forall (λ s, is_number s = true → not_negative s) (scalars v).
Proof.
  intros Hiter Hitems.
  destruct v as [| | | | |l| |]; try (repeat constructor; done).
  injection Hiter as ->.
  change (scalars (PyList items)) with (concat (scalars <$> items)).
  rewrite scalars_numbers.
  - eapply Forall_impl; [done|]. by intros.
  - eapply Forall_impl; [done|]. apply not_negative_number.
Qed.

(** C2, as the code has it. Every test case retained in the list of tests has
    passed the type validator on its [inargs]: the value of each argument is
    a non-empty sequence whose first item is an instance of the type of the
    argument's placeholder, or a value that is not a sequence and is such an
    instance. For every argument whose declared type is unsigned, no number
    in its input value or, when present, its output value is negative, through
    any nesting. Nothing is checked against the bit width, on the items after
    the first, or on the types of [outargs]. *)
Theorem retained_tests_validated (env : kernel_env) (kernel_name : string)
    (args : list Argument) (testdata : gmap string pyval)
    (tests : list TestCase) (t : TestCase) (arg : Argument) :
  gettests env kernel_name args testdata = Ok tests →
  t ∈ tests → arg ∈ args →
  (∃ v typeval, od_get (inargs t) (name arg) = Some v ∧
     gettypeval (typename arg) = Ok typeval ∧ first_item_typed typeval v) ∧
  (∀ v, recorded_value t arg v → unsigned_not_negative (typename arg) v).
Proof.
  intros Hrun Ht Harg. unfold gettests in Hrun.
  apply bind_Ok in Hrun as ([inst combos] & _ & Hrun). simpl in Hrun.
  destruct (gettests_loop_retained _ _ _ _ _ _ _ _ Hrun Ht)
    as [[]%elem_of_nil|(x & _ & Hx)].
  apply run_combination_retained in Hx as (funcPy & _ & _ & Htypes & Hover).
  split; [by eapply typevalidates_true|].
  intros v Hv Hu.
  destruct (validateoverflow_loop_true _ _ _ _ Hover Harg Hu v Hv)
    as (items & Hiter & Hitems).
  by eapply iterated_not_negative.
Qed.

Lemma retained_tests_validated_witness :
  (∃ v typeval,
     od_get [("x", PyList [PyInt 1; PyInt 2]); ("y", PyList [PyInt 123])] "x" = Some v ∧
     gettypeval "List[uint8_t]" = Ok typeval ∧ first_item_typed typeval v) ∧
  unsigned_not_negative "List[uint8_t]" (PyList [PyInt 1; PyInt 2]).
Proof.
  destruct (retained_tests_validated (Sample.env Sample.writes_text) "kernel"
              [Sample.x_in "List[uint8_t]"; Sample.y_out "List[int64_t]"]
              (Sample.num [PyInt 1; PyInt 2])
              [mkTestCase [("x", PyList [PyInt 1; PyInt 2]); ("y", PyList [PyInt 123])]
                 (Some [("y", PyList [PyStr "a"])]) true]
              (mkTestCase [("x", PyList [PyInt 1; PyInt 2]); ("y", PyList [PyInt 123])]
                 (Some [("y", PyList [PyStr "a"])]) true)
              (Sample.x_in "List[uint8_t]")) as [Htyped Hunsigned].
  - vm_compute. reflexivity.
  - left.
  - left.
  - split; [exact Htyped|]. apply Hunsigned. left. reflexivity.
Defined.

(** C2 as worded fails: a retained test case whose input holds an integer
    beyond the bit width of its type and a float after its first item, and
    whose output holds a string. *)
Lemma retained_tests_counterexample :
  ∃ t, gettests (Sample.env Sample.writes_text) "kernel"
         [Sample.x_in "List[int8_t]"; Sample.y_out "List[int64_t]"]
         (Sample.num [PyInt 1000; PyFloat float_123]) = Ok [t] ∧
    recorded_value t (Sample.x_in "List[int8_t]")
      (PyList [PyInt 1000; PyFloat float_123]) ∧
    ¬ within_bit_width "List[int8_t]" (PyList [PyInt 1000; PyFloat float_123]) ∧
    ¬ has_declared_type "List[int8_t]" (PyList [PyInt 1000; PyFloat float_123]) ∧
    recorded_value t (Sample.y_out "List[int64_t]") (PyList [PyStr "a"]) ∧
    ¬ has_declared_type "List[int64_t]" (PyList [PyStr "a"]) ∧
    ¬ claimed_invariant
        [Sample.x_in "List[int8_t]"; Sample.y_out "List[int64_t]"] t.
Proof.
  eexists. split; [vm_compute; reflexivity|].
  assert (¬ within_bit_width "List[int8_t]" (PyList [PyInt 1000; PyFloat float_123]))
    as Hwidth.
  { intros Hw. destruct (Hw eq_refl) as (lo & hi & Hinfo & Hall).
    vm_compute in Hinfo. injection Hinfo as <- <-.
    apply Forall_cons_1 in Hall as [Hfirst _].
    specialize (Hfirst eq_refl). simpl in Hfirst. lia. }
  split; [by left|]. split; [done|]. split.
  { intros (typeval & Htv & Hall). vm_compute in Htv. injection Htv as <-.
    apply Forall_cons_1 in Hall as [_ Hall].
    apply Forall_cons_1 in Hall as [Hsecond _]. done. }
  split; [right; by eexists|]. split.
  { intros (typeval & Htv & Hall). vm_compute in Htv. injection Htv as <-.
    apply Forall_cons_1 in Hall as [Hfirst _]. done. }
  intros Hinv.
  destruct (Hinv (Sample.x_in "List[int8_t]") (PyList [PyInt 1000; PyFloat float_123]))
    as (_ & Hw & _); [left|by left|done].
Qed.

(** ** C1: kernels whose arguments all have the default role *)

Lemma of_nat_inj i j : Str.of_nat i = Str.of_nat j → i = j.
Proof.
  unfold Str.of_nat. intros Heq.
  apply DecimalNat.Unsigned.to_uint_inj.
  apply (f_equal NilEmpty.uint_of_string) in Heq.
  rewrite !NilEmpty.usu in Heq. by injection Heq.
Qed.

Lemma od_mem_false {A} (d : odict A) k : od_mem d k = false ↔ od_get d k = None.
Proof.
  unfold od_mem. rewrite bool_decide_eq_false, <- eq_None_not_Some. done.
Qed.

Lemma od_mem_true {A} (d : odict A) k : od_mem d k = true ↔ is_Some (od_get d k).
Proof. unfold od_mem. apply bool_decide_eq_true. Qed.

Lemma od_get_Some_keys {A} (d : odict A) k : is_Some (od_get d k) ↔ k ∈ od_keys d.
Proof.
  unfold od_keys. induction d as [|[k0 v0] d IH]; simpl.
  - rewrite elem_of_nil. split; [by intros [? ?]|done].
  - rewrite elem_of_cons. destruct (decide (k = k0)) as [->|Hne].
    + split; [by left|by eexists].
    + rewrite IH. split; [by right|by intros [?|?]].
Qed.

Lemma od_set_fresh {A} (d : odict A) k v :
  od_get d k = None → od_set d k v = d ++ [(k, v)].
Proof.
  induction d as [|[k0 v0] d IH]; simpl; [done|].
  destruct (decide (k = k0)); [done|]. intros Hget. by rewrite IH.
Qed.

Lemma od_set_set {A} (d : odict A) k v w : od_set (od_set d k v) k w = od_set d k w.
Proof.
  induction d as [|[k0 v0] d IH]; simpl.
  - by rewrite decide_True.
  - destruct (decide (k = k0)) as [->|Hne]; simpl.
    + by rewrite decide_True.
    + by rewrite decide_False, IH.
Qed.

Lemma bind_arg_default testdata st arg num :
  role arg = "default" →
  od_get (instancedict st) (Str.of_nat (count st)) = None →
  direction arg = "out" ∨ testdata !! "num" = Some num →
  bind_arg testdata st arg
  = Ok (mkBindState
          (instancedict st ++ [(Str.of_nat (count st), [name arg])])
          (od_set (funcpassdict st) (name arg) [default_value num arg])
          (S (count st)) (pseudogroup st)).
Proof.
  intros Hrole Hfresh Hnum. unfold bind_arg, default_value.
  rewrite decide_True by done.
  rewrite (proj2 (od_mem_false _ _) Hfresh), (od_set_fresh _ _ _ Hfresh).
  unfold od_append. rewrite od_get_set_eq.
  destruct (decide (direction arg = "out")) as [Hdir|Hdir]; simpl.
  - by rewrite od_set_set, od_get_set_eq.
  - destruct Hnum as [?| ->]; [done|]. simpl.
    by rewrite od_set_set, od_get_set_eq.
Qed.

Lemma bind_args_default testdata num args : ∀ st,
  Forall (λ arg, role arg = "default") args →
  Forall (λ arg, direction arg = "out") args ∨ testdata !! "num" = Some num →
  (∀ g, g ∈ od_keys (instancedict st) → ∃ j, j < count st ∧ g = Str.of_nat j) →
  bind_args testdata st args
  = Ok (mkBindState
          (instancedict st ++ default_groups (count st) args)
          (fold_left (λ fpd arg, od_set fpd (name arg) [default_value num arg])
             args (funcpassdict st))
          (count st + length args) (pseudogroup st)).
Proof.
  induction args as [|arg args IH]; intros st Hroles Hnum Hkeys; simpl.
  - rewrite app_nil_r, Nat.add_0_r. by destruct st.
  - apply Forall_cons_1 in Hroles as [Hrole Hroles].
    rewrite (bind_arg_default testdata st arg num); [|done| |].
    + simpl. rewrite IH; simpl.
      * by rewrite <- app_assoc, Nat.add_succ_r.
      * done.
      * destruct Hnum as [Hout|?]; [left|by right].
        by apply Forall_cons_1 in Hout as [_ ?].
      * intros g. unfold od_keys. rewrite fmap_app, elem_of_app.
        intros [Hg|Hg%list_elem_of_singleton].
        -- destruct (Hkeys g Hg) as (j & ? & ->). exists j. split; [lia|done].
        -- exists (count st). split; [lia|done].
    + apply eq_None_not_Some. intros Hsome%od_get_Some_keys.
      destruct (Hkeys _ Hsome) as (j & Hj & Heq%of_nat_inj). lia.
    + destruct Hnum as [Hout|?]; [left|by right].
      by apply Forall_cons_1 in Hout as [? _].
Qed.

Lemma fold_od_set_frame {A} (f : Argument → A) args : ∀ fpd k,
  k ∉ name <$> args →
  od_get (fold_left (λ fpd arg, od_set fpd (name arg) (f arg)) args fpd) k
  = od_get fpd k.
Proof.
  induction args as [|arg args IH]; intros fpd k Hk; [done|].
  rewrite fmap_cons in Hk. apply not_elem_of_cons in Hk as [Hne Hk].
  simpl. rewrite IH by done. by apply od_get_set_ne.
Qed.

Lemma fold_od_set_get {A} (f : Argument → A) args : ∀ fpd arg,
  arg ∈ args →
  ∃ arg', arg' ∈ args ∧ name arg' = name arg ∧
    od_get (fold_left (λ fpd arg, od_set fpd (name arg) (f arg)) args fpd) (name arg)
    = Some (f arg').
Proof.
  induction args as [|arg0 args IH]; intros fpd arg Hin.
  - by apply elem_of_nil in Hin.
  - simpl. destruct (decide (name arg ∈ name <$> args)) as [Hlater|Hlast].
    + apply list_elem_of_fmap in Hlater as (arg1 & Hname & Hin1).
      destruct (IH (od_set fpd (name arg0) (f arg0)) arg1 Hin1)
        as (arg' & Hin' & Hname' & Hget).
      exists arg'. split; [by right|]. split; [congruence|].
      by rewrite Hname.
    + apply elem_of_cons in Hin as [->|Hin].
      * exists arg0. split; [left|]. split; [done|].
        rewrite fold_od_set_frame by done. apply od_get_set_eq.
      * exfalso. apply Hlast. apply list_elem_of_fmap. by exists arg.
Qed.

Lemma fold_od_set_get_NoDup {A} (f : Argument → A) args fpd arg :
  NoDup (name <$> args) → arg ∈ args →
  od_get (fold_left (λ fpd arg, od_set fpd (name arg) (f arg)) args fpd) (name arg)
  = Some (f arg).
Proof.
  revert fpd. induction args as [|arg0 args IH]; intros fpd Hnd Hin.
  - by apply elem_of_nil in Hin.
  - rewrite fmap_cons in Hnd. apply NoDup_cons in Hnd as [Hfresh Hnd].
    simpl. apply elem_of_cons in Hin as [->|Hin]; [|by apply IH].
    rewrite fold_od_set_frame by done. apply od_get_set_eq.
Qed.

Lemma mapM_result_cons {A B} (f : A → result B) x l :
  mapM (M := result) f (x :: l) = (y ← f x; k ← mapM (M := result) f l; Ok (y :: k)).
Proof. reflexivity. Qed.

Lemma group_tuples_single st g n v :
  od_get (funcpassdict st) n = Some [v] → group_tuples st (g, [n]) = Ok [[v]].
Proof. intros Hget. unfold group_tuples. simpl. by rewrite Hget. Qed.

(** The tuples of the groups of default-role arguments: one tuple of one
    value for each. *)
Lemma group_tuples_default st (f : Argument → pyval) args count :
  (∀ arg, arg ∈ args → od_get (funcpassdict st) (name arg) = Some [f arg]) →
  mapM (M := result) (group_tuples st) (default_groups count args)
  = Ok ((λ arg, [[f arg]]) <$> args).
Proof.
  revert count. induction args as [|arg args IH]; intros count Hget; [done|].
  change (default_groups count (arg :: args))
    with ((Str.of_nat count, [name arg]) :: default_groups (S count) args).
  rewrite mapM_result_cons, (group_tuples_single _ _ _ (f arg)) by (apply Hget; left).
  simpl. by rewrite IH by (intros; apply Hget; by right).
Qed.

Lemma product_singletons {A} (tuples : list A) :
  product ((λ t, [t]) <$> tuples) = [tuples].
Proof.
  unfold product.
  assert (∀ acc : list A,
    fold_left (λ acc pool, x ← acc; y ← pool; [x ++ [y]])
      ((λ t, [t]) <$> tuples) [acc] = [acc ++ tuples]) as Hfold.
  { induction tuples as [|t tuples IH]; intros acc; simpl.
    - by rewrite app_nil_r.
    - rewrite IH. by rewrite <- app_assoc. }
  apply (Hfold []).
Qed.

Lemma od_keys_default_groups count args :
  od_keys (default_groups count args) = Str.of_nat <$> seq count (length args).
Proof.
  revert count. induction args as [|arg args IH]; intros count; [done|].
  simpl. f_equal. apply IH.
Qed.

(** C1, as the code has it. For a kernel all of whose arguments have the
    default role, the combination generator produces exactly one raw
    combination, whatever the length of the "num" fixture: each argument
    forms a group of its own, named after its position, with a single
    candidate, which is the whole "num" fixture for an input and an empty
    accumulator for an output. *)
Theorem default_roles_single_combination (args : list Argument)
    (testdata : gmap string pyval) (num : pyval) :
  Forall (λ arg, role arg = "default") args →
  Forall (λ arg, direction arg = "out") args ∨ testdata !! "num" = Some num →
  ∃ inst x,
    raw_combinations args testdata = Ok (inst, [x]) ∧
    inst = default_groups 0 args ∧
    od_keys inst = Str.of_nat <$> seq 0 (length args) ∧
    length x = length args ∧
    (NoDup (name <$> args) → x = (λ arg, [default_value num arg]) <$> args).
Proof.
  intros Hroles Hnum. unfold raw_combinations.
  rewrite (bind_args_default testdata num args bind_init Hroles Hnum)
    by (by intros g Hg%elem_of_nil).
  simpl.
  set (fpd := fold_left (λ fpd arg, od_set fpd (name arg) [default_value num arg])
                args []).
  assert (∃ f : Argument → pyval,
    (∀ arg, arg ∈ args → od_get fpd (name arg) = Some [f arg]) ∧
    (NoDup (name <$> args) → ∀ arg, arg ∈ args → f arg = default_value num arg))
    as (f & Hf & Hexact).
  { exists (λ arg, match od_get fpd (name arg) with
                   | Some [v] => v
                   | _ => PyNone
                   end).
    split.
    - intros arg Hin.
      destruct (fold_od_set_get (λ a, [default_value num a]) args [] arg Hin)
        as (arg' & _ & _ & Hget).
      fold fpd in Hget. by rewrite Hget.
    - intros Hnd arg Hin. unfold fpd.
      by rewrite (fold_od_set_get_NoDup (λ a, [default_value num a])). }
  rewrite (group_tuples_default _ f args 0) by done. simpl.
  replace ((λ arg, [[f arg]]) <$> args)
    with ((λ t, [t]) <$> ((λ arg, [f arg]) <$> args))
    by (by rewrite <- list_fmap_compose).
  rewrite product_singletons.
  eexists _, _. split; [done|]. split; [done|].
  split; [apply od_keys_default_groups|].
  split; [by rewrite length_fmap|].
  intros Hnd. apply list_fmap_ext. intros i arg Hi.
  rewrite Hexact; [done..|]. by eapply list_elem_of_lookup_2.
Qed.

Lemma default_roles_single_combination_witness :
  ∃ inst x,
    raw_combinations [Sample.x_in "List[int64_t]"; Sample.y_out "List[int64_t]"]
      (Sample.num [PyInt 1; PyInt 2; PyInt 3]) = Ok (inst, [x]) ∧
    inst = [("0", ["x"]); ("1", ["y"])] ∧
    od_keys inst = ["0"; "1"] ∧
    length x = 2 ∧
    (NoDup ["x"; "y"] → x = [[PyList [PyInt 1; PyInt 2; PyInt 3]]; [PyDict ∅]]).
Proof.
  apply (default_roles_single_combination
           [Sample.x_in "List[int64_t]"; Sample.y_out "List[int64_t]"]
           (Sample.num [PyInt 1; PyInt 2; PyInt 3])
           (PyList [PyInt 1; PyInt 2; PyInt 3])).
  - repeat constructor.
  - right. reflexivity.
Defined.

(** C1 as worded fails: with three entries in the "num" fixture, a kernel
    with one default-role input has one raw combination, not three. *)
Lemma default_roles_counterexample :
  ∃ inst combos,
    raw_combinations [Sample.x_in "List[int64_t]"]
      (Sample.num [PyInt 1; PyInt 2; PyInt 3]) = Ok (inst, combos) ∧
    Sample.num [PyInt 1; PyInt 2; PyInt 3] !! "num"
      = Some (PyList [PyInt 1; PyInt 2; PyInt 3]) ∧
    length combos ≠ length [PyInt 1; PyInt 2; PyInt 3].
Proof.
  eexists _, _. split; [vm_compute; reflexivity|]. split; [reflexivity|].
  simpl. lia.
Qed.

(** ** C6: the fixture key of a role group *)

(** The first half of C6: when the key of the group is absent and the key
    without its last character is present, the argument is bound from the
    fixture data of the shortened key. *)
Lemma bind_arg_singular_fallback testdata st arg fixture :
  role arg ≠ "default" →
  let dash := Str.find "-" (role arg) in
  let group := Str.slice_to (role arg) dash in
  let singular := Str.slice_to group (-1) in
  testdata !! group = None →
  testdata !! singular = Some fixture →
  ∀ st', bind_arg testdata st arg = Ok st' →
    pseudogroup st' = Some singular ∧
    ∃ n vals, py_len fixture = Ok n ∧
      collect_instances fixture (singular +:+ Str.slice_from (role arg) dash) 0 n []
      = Ok vals ∧
      od_get (funcpassdict st') (name arg) = Some vals.
Proof.
  intros Hrole dash group singular Hgroup Hsingular st'.
  unfold bind_arg. rewrite decide_False by done. fold dash group.
  unfold resolve_pseudogroup. fold singular. rewrite Hgroup, Hsingular.
  rewrite bool_decide_eq_false_2 by (by intros [? ?]).
  rewrite bool_decide_eq_true_2 by (by eexists). simpl.
  rewrite Hsingular. simpl. intros Hrun.
  apply bind_Ok in Hrun as (n & Hn & Hrun).
  apply bind_Ok in Hrun as (vals & Hvals & [= <-]). simpl.
  split; [done|]. exists n, vals. by rewrite od_get_set_eq.
Qed.

(** The second half of C6 holds for the first argument with a role: with
    neither key present, [pseudogroup] is unbound and the generation fails. *)
Lemma bind_arg_missing_unbound testdata st arg :
  role arg ≠ "default" →
  let group := Str.slice_to (role arg) (Str.find "-" (role arg)) in
  testdata !! group = None →
  testdata !! Str.slice_to group (-1) = None →
  pseudogroup st = None →
  bind_arg testdata st arg = Raise UnboundLocalError.
Proof.
  intros Hrole group Hgroup Hsingular Hunbound.
  unfold bind_arg. rewrite decide_False by done. fold group.
  unfold resolve_pseudogroup. rewrite Hgroup, Hsingular, Hunbound.
  by rewrite !bool_decide_eq_false_2 by (by intros [? ?]).
Qed.

(** The second half of C6 fails after an argument whose group was found:
    [pseudogroup] still holds that group's key, and the argument of the
    missing group is bound from it. *)
Lemma bind_arg_missing_stale testdata st arg previous :
  role arg ≠ "default" →
  let group := Str.slice_to (role arg) (Str.find "-" (role arg)) in
  testdata !! group = None →
  testdata !! Str.slice_to group (-1) = None →
  pseudogroup st = Some previous →
  resolve_pseudogroup testdata group (pseudogroup st) = Some previous.
Proof.
  intros Hrole group Hgroup Hsingular Hprevious.
  unfold resolve_pseudogroup. rewrite Hgroup, Hsingular, Hprevious.
  by rewrite !bool_decide_eq_false_2 by (by intros [? ?]).
Qed.

(** C6, where the code departs from it. The kernel has the arguments [a] of
    role "foo-x" and [b] of role "bar-y"; the corpus has the key "foo" and
    neither "bar" nor "ba". The generation does not fail: [b] is bound from
    the entry "foo-y" of the fixture of "foo", and a test case is produced. *)
Theorem missing_group_bound_from_previous :
  Sample.foo_fixture !! "bar" = None ∧
  Sample.foo_fixture !! "ba" = None ∧
  raw_combinations Sample.stale_args Sample.foo_fixture
  = Ok ([("foo", ["a"]); ("bar", ["b"])],
        [[[PyList [PyInt 1]]; [PyList [PyInt 2]]]]) ∧
  gettests (Sample.env Sample.does_nothing) "kernel"
    Sample.stale_args Sample.foo_fixture
  = Ok [mkTestCase [("a", PyList [PyInt 1]); ("b", PyList [PyInt 2])]
          (Some []) true] ∧
  raw_combinations (tail Sample.stale_args) Sample.foo_fixture
  = Raise UnboundLocalError.
Proof. repeat split; vm_compute; reflexivity. Qed.

Lemma singular_fallback_sample :
  raw_combinations Sample.plural_args Sample.foo_fixture
  = Ok ([("foos", ["a"])], [[[PyList [PyInt 1]]]]).
Proof. vm_compute. reflexivity. Qed.

(** ** C9: determinism and order of the generated tests *)

Lemma mapM_result_Forall2 {A B} (f : A → result B) l rs :
  mapM (M := result) f l = Ok rs ↔ Forall2 (λ x r, f x = Ok r) l rs.
Proof.
  revert rs. induction l as [|x l IH]; intros rs.
  - split.
    + intros [= <-]. constructor.
    + intros Hall. by apply Forall2_nil_inv_l in Hall as ->.
  - rewrite mapM_result_cons. split.
    + intros Hrun. apply bind_Ok in Hrun as (y & Hy & Hrun).
      apply bind_Ok in Hrun as (k & Hk & [= <-]).
      constructor; [done|by apply IH].
    + intros Hall. apply Forall2_cons_inv_l in Hall as (y & k & Hy & Hk & ->).
      rewrite Hy. simpl. apply IH in Hk. by rewrite Hk.
Qed.

Lemma gettests_loop_results env kernel_name args inst combos allvals tests :
  gettests_loop env kernel_name args inst combos allvals = Ok tests ↔
  ∃ results,
    Forall2 (λ x r, run_combination env kernel_name args inst x = Ok r) combos results ∧
    tests = allvals ++ omap id results.
Proof.
  revert allvals. induction combos as [|x combos IH]; intros allvals; simpl.
  - split.
    + intros [= <-]. exists []. split; [constructor|by rewrite app_nil_r].
    + intros (results & Hall & ->). apply Forall2_nil_inv_l in Hall as ->.
      by rewrite app_nil_r.
  - split.
    + intros Hrun. apply bind_Ok in Hrun as (r & Hr & Hrun).
      apply IH in Hrun as (results & Hall & ->).
      exists (r :: results). split; [by constructor|].
      destruct r; simpl; [by rewrite <- app_assoc|done].
    + intros (results & Hall & ->).
      apply Forall2_cons_inv_l in Hall as (r & results' & Hr & Hall & ->).
      rewrite Hr. simpl. apply IH. exists results'. split; [done|].
      destruct r; simpl; [by rewrite <- app_assoc|done].
Qed.

Lemma list_bind_assoc {A B C} (f : A → list B) (g : B → list C) (l : list A) :
  (l ≫= f) ≫= g = l ≫= (λ x, f x ≫= g).
Proof.
  induction l as [|x l IH]; [done|].
  by rewrite !bind_cons, bind_app, IH.
Qed.

Lemma list_bind_ret {A} (l : list A) : l ≫= (λ x, [x]) = l.
Proof. induction l as [|x l IH]; [done|]. rewrite bind_cons, IH. done. Qed.

(** [itertools.product] enumerates in lexicographic order. *)
Lemma product_lex {A} (pools : list (list A)) : product pools = lex_product pools.
Proof.
  unfold product.
  assert (∀ acc : list (list A),
    fold_left (λ acc pool, x ← acc; y ← pool; [x ++ [y]]) pools acc
    = (a ← acc; xs ← lex_product pools; [a ++ xs])) as Hfold.
  { induction pools as [|pool pools IH]; intros acc; simpl.
    - rewrite <- (list_bind_ret acc) at 1. apply list_bind_ext; [|done].
      intros a. by rewrite app_nil_r.
    - rewrite IH, list_bind_assoc. apply list_bind_ext; [|done]. intros a.
      rewrite !list_bind_assoc. apply list_bind_ext; [|done]. intros y.
      rewrite bind_singleton, list_bind_assoc. apply list_bind_ext; [|done].
      intros xs. rewrite bind_singleton. by rewrite <- app_assoc. }
  rewrite Hfold. simpl. rewrite app_nil_r. apply list_bind_ret.
Qed.

Lemma od_keys_set {A} (d : odict A) k v :
  od_keys (od_set d k v)
  = if decide (k ∈ od_keys d) then od_keys d else od_keys d ++ [k].
Proof.
  unfold od_keys. induction d as [|[k0 v0] d IH]; csimpl.
  - done.
  - destruct (decide (k = k0)) as [->|Hne]; csimpl.
    + rewrite decide_True; [done|left].
    + rewrite IH. destruct (decide (k ∈ d.*1)) as [Hin|Hin].
      * rewrite decide_True; [done|by right].
      * rewrite decide_False; [done|]. by intros [?|?]%elem_of_cons.
Qed.

Lemma od_keys_append {A} (d : odict (list A)) k x :
  od_keys (od_append d k x) = od_keys d.
Proof.
  unfold od_append. destruct (od_get d k) eqn:Hget; [|done].
  rewrite od_keys_set, decide_True; [done|].
  apply od_get_Some_keys. by eexists.
Qed.

Lemma bind_arg_keys testdata st arg st' :
  bind_arg testdata st arg = Ok st' →
  group_names (count st') [] = [] ∧
  (∀ rest, group_names (count st) (arg :: rest)
           = hd "" (group_names (count st) [arg]) :: group_names (count st') rest) ∧
  od_keys (instancedict st')
  = let g := hd "" (group_names (count st) [arg]) in
    if decide (g ∈ od_keys (instancedict st)) then od_keys (instancedict st)
    else od_keys (instancedict st) ++ [g].
Proof.
  unfold bind_arg. simpl. intros Hrun. split; [done|].
  destruct (decide (role arg = "default")) as [Hrole|Hrole].
  - destruct (od_mem (instancedict st) (Str.of_nat (count st))) eqn:Hmem; [done|].
    apply bind_Ok in Hrun as (fpd' & _ & Hrun).
    destruct (decide _); [|done]. injection Hrun as <-. simpl.
    split; [done|].
    apply od_keys_set.
  - apply bind_Ok in Hrun as (pseudo & _ & Hrun).
    apply bind_Ok in Hrun as (fixture & _ & Hrun).
    apply bind_Ok in Hrun as (n & _ & Hrun).
    apply bind_Ok in Hrun as (vals & _ & [= <-]). simpl.
    split; [done|].
    rewrite od_keys_append.
    destruct (od_mem (instancedict st) _) eqn:Hmem.
    + apply od_mem_true, od_get_Some_keys in Hmem. by rewrite decide_True.
    + apply od_keys_set.
Qed.

Lemma bind_args_keys testdata args : ∀ st st',
  bind_args testdata st args = Ok st' →
  od_keys (instancedict st')
  = fold_left (λ acc g, if decide (g ∈ acc) then acc else acc ++ [g])
      (group_names (count st) args) (od_keys (instancedict st)).
Proof.
  induction args as [|arg args IH]; intros st st' Hrun.
  - by injection Hrun as <-.
  - simpl in Hrun. apply bind_Ok in Hrun as (st1 & Harg & Hrun).
    destruct (bind_arg_keys _ _ _ _ Harg) as (_ & Hnames & Hkeys).
    rewrite (IH _ _ Hrun), Hnames, Hkeys. done.
Qed.

(** *** The store is only extended *)

Lemma extends_refl σ : extends σ σ.
Proof. by split. Qed.

Lemma extends_trans σ1 σ2 σ3 : extends σ1 σ2 → extends σ2 σ3 → extends σ1 σ3.
Proof.
  intros [Hc1 Ho1] [Hc2 Ho2]. split; [congruence|by etrans].
Qed.

Lemma holds_extends σ σ' r v : extends σ σ' → holds σ r v → holds σ' r v.
Proof.
  intros [Hcorpus [k Hobjects]]. unfold holds. destruct r as [path|n]; simpl.
  - by rewrite Hcorpus.
  - rewrite Hobjects. apply lookup_app_l_Some.
Qed.

Lemma extends_alloc σ v : extends σ (Store.alloc v σ).1.
Proof. split; [done|]. simpl. by apply prefix_app_r. Qed.

Lemma holds_alloc σ v :
  holds (Store.alloc v σ).1 (Store.Alloc (length (Store.objects σ))) v.
Proof.
  unfold holds. simpl. by rewrite lookup_app_r, Nat.sub_diag by lia.
Qed.

(** The state of an object made since [σ0] can change: the store still
    extends [σ0]. *)
Lemma extends_write σ0 σ r v :
  extends σ0 σ → made_since σ0 r → extends σ0 (Store.write σ r v).
Proof.
  intros [Hcorpus [k Hobjects]] (n & -> & Hn). split; [done|]. simpl.
  rewrite Hobjects.
  rewrite insert_app_r_alt by done. by apply prefix_app_r.
Qed.

(** *** Related dicts and results *)

Lemma od_rel_impl {A B} (P Q : A → B → Prop) d1 d2 :
  od_rel P d1 d2 → (∀ a b, P a b → Q a b) → od_rel Q d1 d2.
Proof.
  intros Hrel Himpl. eapply Forall2_impl; [exact Hrel|].
  intros [k1 a] [k2 b] [? ?]. split; [done|by apply Himpl].
Qed.

Lemma od_rel_get {A B} (P : A → B → Prop) d1 d2 k :
  od_rel P d1 d2 → option_Forall2 P (od_get d1 k) (od_get d2 k).
Proof.
  induction 1 as [|[k1 a] [k2 b] d1 d2 [Hk Hab] _ IH]; simpl in *; [constructor|].
  subst k2. destruct (decide (k = k1)); [by constructor|done].
Qed.

Lemma od_rel_set {A B} (P : A → B → Prop) d1 d2 k a b :
  od_rel P d1 d2 → P a b → od_rel P (od_set d1 k a) (od_set d2 k b).
Proof.
  intros Hrel Hab.
  induction Hrel as [|[k1 a1] [k2 b1] d1 d2 [Hk Hab1] Hrel IH]; simpl in *.
  - by repeat constructor.
  - subst k2. unfold od_rel in *. destruct (decide (k = k1)); by constructor.
Qed.

Lemma od_rel_append {A B} (P : A → B → Prop) (d1 : odict (list A))
    (d2 : odict (list B)) k a b :
  od_rel (Forall2 P) d1 d2 → P a b →
  od_rel (Forall2 P) (od_append d1 k a) (od_append d2 k b).
Proof.
  intros Hrel Hab. unfold od_append.
  destruct (od_rel_get _ _ _ k Hrel) as [l1 l2 Hl|]; [|done].
  apply od_rel_set; [done|]. apply Forall2_app; [done|by repeat constructor].
Qed.

Lemma od_rel_keys {A B} (P : A → B → Prop) d1 d2 :
  od_rel P d1 d2 → od_keys d1 = od_keys d2.
Proof.
  unfold od_keys. induction 1 as [|[k1 a] [k2 b] d1 d2 [Hk _] _ IH]; [done|].
  rewrite !fmap_cons. simpl in Hk. by f_equal.
Qed.

Lemma result_rel_bind {A B C D} (P : A → B → Prop) (Q : C → D → Prop)
    (r1 : result A) (r2 : result B) (k1 : A → result C) (k2 : B → result D) :
  result_rel P r1 r2 → (∀ a b, P a b → result_rel Q (k1 a) (k2 b)) →
  result_rel Q (r1 ≫= k1) (r2 ≫= k2).
Proof. destruct r1, r2; simpl; try done. intros ? Hk. by apply Hk. Qed.

Lemma result_rel_mapM {A B C D} (P : C → D → Prop) (f : A → result C)
    (g : B → result D) l1 l2 :
  Forall2 (λ x y, result_rel P (f x) (g y)) l1 l2 →
  result_rel (Forall2 P) (mapM (M := result) f l1) (mapM (M := result) g l2).
Proof.
  induction 1 as [|x y l1 l2 Hxy _ IH]; [by constructor|].
  rewrite !mapM_result_cons.
  eapply result_rel_bind; [exact Hxy|]. intros c d Hcd.
  eapply result_rel_bind; [exact IH|]. intros cs ds Hcds. by constructor.
Qed.

Lemma result_rel_eq {A} (r1 r2 : result A) : result_rel eq r1 r2 → r1 = r2.
Proof. destruct r1, r2; simpl; intros Hrel; by simplify_eq. Qed.

(** *** Computations on the store *)

Lemma stateful_bind_run {A B} (m : Store.stateful A) (k : A → Store.stateful B) σ :
  (m ≫= k) σ
  = match m σ with
    | (σ', Ok a) => k a σ'
    | (σ', Raise e) => (σ', Raise e)
    end.
Proof. reflexivity. Qed.

Lemma simulates_ret {A B} (R : Store.store → A → B → Prop) σ a b :
  R σ a b → simulates R σ (mret a) (Ok b).
Proof. intros Hab. split; [apply extends_refl|done]. Qed.

Lemma simulates_lift {A B} (R : Store.store → A → B → Prop) σ r1 r2 :
  result_rel (R σ) r1 r2 → simulates R σ (Store.lift r1) r2.
Proof. intros Hrel. split; [apply extends_refl|done]. Qed.

Lemma simulates_bind {A B C D} (R : Store.store → A → B → Prop)
    (R' : Store.store → C → D → Prop) σ (m : Store.stateful A) (r : result B)
    (k : A → Store.stateful C) (k' : B → result D) :
  simulates R σ m r →
  (∀ σ' a b, extends σ σ' → R σ' a b → simulates R' σ' (k a) (k' b)) →
  simulates R' σ (m ≫= k) (r ≫= k').
Proof.
  unfold simulates. rewrite stateful_bind_run.
  destruct (m σ) as [σ1 [a|e]]; simpl; intros [Hext Hrel] Hk.
  - destruct r as [b|]; [|done]. simpl.
    destruct (Hk σ1 a b Hext Hrel) as [Hext' Hrel'].
    split; [by eapply extends_trans|done].
  - destruct r as [|e']; [done|]. done.
Qed.

(** *** The combination generator binds the objects whose states it binds
    on values *)

Lemma od_rel_get_length {A B} (P : A → B → Prop) (d1 : odict (list A))
    (d2 : odict (list B)) k :
  od_rel (Forall2 P) d1 d2 → length <$> od_get d1 k = length <$> od_get d2 k.
Proof.
  intros Hrel. destruct (od_rel_get _ _ _ k Hrel) as [l1 l2 Hl|]; [|done].
  simpl. f_equal. by eapply Forall2_length.
Qed.

Lemma holds_corpus_num σ num :
  Store.corpus σ !! "num" = Some num →
  holds σ (Store.Corpus [Store.Key "num"]) num.
Proof. intros Hnum. unfold holds. simpl. by rewrite Hnum. Qed.

Lemma holds_corpus_instance σ pseudo x role fixture instance v :
  Store.corpus σ !! pseudo = Some fixture →
  py_getitem_int fixture x = Ok instance →
  py_getitem_str instance role = Ok v →
  holds σ (Store.Corpus [Store.Key pseudo; Store.Index x; Store.Key role]) v.
Proof.
  intros Hfixture Hinstance Hv. unfold holds. simpl.
  rewrite Hfixture. simpl. rewrite Hinstance. simpl. by rewrite Hv.
Qed.

Lemma collect_instances_sim σ fixture pseudo role :
  Store.corpus σ !! pseudo = Some fixture →
  ∀ n x acc_h acc, Forall2 (holds σ) acc_h acc →
    result_rel (Forall2 (holds σ))
      (Store.collect_instances fixture pseudo role x n acc_h)
      (collect_instances fixture role x n acc).
Proof.
  intros Hfixture. induction n as [|n IH]; intros x acc_h acc Hacc; [done|].
  simpl. destruct (py_getitem_int fixture x) as [instance|e] eqn:Hinstance; [|done].
  simpl. destruct (py_getitem_str instance role) as [v|e] eqn:Hv; [|done].
  simpl. apply IH. apply Forall2_app; [done|].
  constructor; [|constructor]. by eapply holds_corpus_instance.
Qed.

Lemma bound_extends σ σ' sth st : extends σ σ' → bound σ sth st → bound σ' sth st.
Proof.
  intros Hext (? & ? & ? & Hfpd). repeat split; try done.
  eapply od_rel_impl; [exact Hfpd|]. intros rs vs Hrs.
  eapply Forall2_impl; [exact Hrs|]. intros r v. by apply holds_extends.
Qed.

Ltac run_store :=
  unfold mbind, mret, Store.stateful_bind, Store.stateful_ret, Store.testdata,
    Store.lift, Store.load, Store.alloc, result_bind; simpl.

Lemma bind_arg_sim σ sth st arg :
  bound σ sth st →
  simulates bound σ (Store.bind_arg sth arg) (bind_arg (Store.corpus σ) st arg).
Proof.
  intros (Hinst & Hcount & Hpg & Hfpd).
  assert (od_rel (Forall2 (holds σ))
            (od_set (Store.funcpassdict sth) (name arg) [])
            (od_set (funcpassdict st) (name arg) [])) as Hfpd0
    by (apply od_rel_set; [done|constructor]).
  unfold Store.bind_arg, bind_arg. rewrite Hinst, Hcount, Hpg.
  destruct (decide (role arg = "default")) as [Hrole|Hrole].
  - destruct (od_mem (instancedict st) (Str.of_nat (count st)));
      [by apply simulates_lift|].
    destruct (decide (direction arg = "out")) as [Hout|Hin].
    + pose proof (extends_alloc σ (PyDict ∅)) as Hext.
      assert (od_rel (Forall2 (holds (Store.alloc (PyDict ∅) σ).1))
                (od_append (od_set (Store.funcpassdict sth) (name arg) []) (name arg)
                   (Store.Alloc (length (Store.objects σ))))
                (od_append (od_set (funcpassdict st) (name arg) []) (name arg)
                   (PyDict ∅))) as Hfpd1.
      { apply od_rel_append; [|apply holds_alloc].
        eapply od_rel_impl; [exact Hfpd0|]. intros rs vs Hrs.
        eapply Forall2_impl; [exact Hrs|]. intros r v. by apply holds_extends. }
      pose proof (od_rel_get_length _ _ _ (name arg) Hfpd1) as Hlen.
      unfold simulates. run_store. simpl in Hlen, Hfpd1, Hext. rewrite Hlen.
      destruct (decide (_ = Some 1)); simpl; [|by split].
      split; [done|]. by repeat split.
    + unfold simulates. run_store.
      destruct (Store.corpus σ !! "num") as [num|] eqn:Hnum; simpl;
        [|split; [apply extends_refl|done]].
      assert (od_rel (Forall2 (holds σ))
                (od_append (od_set (Store.funcpassdict sth) (name arg) []) (name arg)
                   (Store.Corpus [Store.Key "num"]))
                (od_append (od_set (funcpassdict st) (name arg) []) (name arg) num))
        as Hfpd1 by (apply od_rel_append; [done|by apply holds_corpus_num]).
      rewrite (od_rel_get_length _ _ _ (name arg) Hfpd1).
      destruct (decide (_ = Some 1)); simpl; (split; [apply extends_refl|]); [|done].
      by repeat split.
  - unfold simulates. run_store.
    destruct (resolve_pseudogroup _ _ _) as [pseudo|]; simpl;
      [|split; [apply extends_refl|done]].
    destruct (Store.corpus σ !! pseudo) as [fixture|] eqn:Hfixture; simpl;
      [|split; [apply extends_refl|done]].
    destruct (py_len fixture) as [n|]; simpl; [|split; [apply extends_refl|done]].
    pose proof (collect_instances_sim σ fixture pseudo
                  (pseudo +:+ Str.slice_from (role arg) (Str.find "-" (role arg)))
                  Hfixture n 0 [] [] (Forall2_nil_2 _ _ _)) as Hvals.
    destruct (Store.collect_instances _ _ _ _ _ _) as [vals_h|],
      (collect_instances _ _ _ _ _) as [vals|]; simpl in *; try done;
      (split; [apply extends_refl|]); try done.
    repeat split; try done. by apply od_rel_set.
Qed.

Lemma bind_args_sim l : ∀ σ sth st,
  bound σ sth st →
  simulates bound σ (Store.bind_args sth l) (bind_args (Store.corpus σ) st l).
Proof.
  induction l as [|arg l IH]; intros σ sth st Hbound; simpl.
  - by apply simulates_ret.
  - eapply simulates_bind; [by apply bind_arg_sim|].
    intros σ' sth' st' [Hcorpus _] Hbound'. rewrite <- Hcorpus. by apply IH.
Qed.

(** *** The combinations hold the objects whose states they hold on values *)

Lemma Forall2_diag {A} (R : A → A → Prop) (l : list A) :
  (∀ x, R x x) → Forall2 R l l.
Proof. intros HR. induction l; by constructor. Qed.

Lemma zip_with_cons_rel {A B} (P : A → B → Prop) l1 l2 k1 k2 :
  Forall2 P l1 l2 → Forall2 (Forall2 P) k1 k2 →
  Forall2 (Forall2 P) (zip_with cons l1 k1) (zip_with cons l2 k2).
Proof.
  intros Hl. revert k1 k2.
  induction Hl as [|a b l1 l2 Hab Hl IH]; intros k1 k2 Hk; [constructor|].
  destruct Hk as [|t1 t2 k1 k2 Ht Hk]; simpl; constructor; [by constructor|by apply IH].
Qed.

Lemma zip_star_rel {A B} (P : A → B → Prop) t1 t2 :
  Forall2 (Forall2 P) t1 t2 → Forall2 (Forall2 P) (zip_star t1) (zip_star t2).
Proof.
  induction 1 as [|l1 l2 t1 t2 Hl Ht IH]; [constructor|].
  destruct Ht as [|l1' l2' t1 t2 Hl' Ht].
  - simpl. apply Forall2_fmap_2. eapply Forall2_impl; [exact Hl|].
    intros a b Hab. by repeat constructor.
  - change (zip_star (l1 :: l1' :: t1)) with (zip_with cons l1 (zip_star (l1' :: t1))).
    change (zip_star (l2 :: l2' :: t2)) with (zip_with cons l2 (zip_star (l2' :: t2))).
    by apply zip_with_cons_rel.
Qed.

Lemma lex_product_rel {A B} (P : A → B → Prop) pools1 pools2 :
  Forall2 (Forall2 P) pools1 pools2 →
  Forall2 (Forall2 P) (lex_product pools1) (lex_product pools2).
Proof.
  induction 1 as [|pool1 pool2 pools1 pools2 Hpool _ IH]; simpl.
  - by repeat constructor.
  - apply Forall2_bind. eapply Forall2_impl; [exact Hpool|]. intros a b Hab.
    apply Forall2_bind. eapply Forall2_impl; [exact IH|]. intros xs ys Hxs.
    by repeat constructor.
Qed.

Lemma product_rel {A B} (P : A → B → Prop) pools1 pools2 :
  Forall2 (Forall2 P) pools1 pools2 →
  Forall2 (Forall2 P) (product pools1) (product pools2).
Proof. rewrite !product_lex. apply lex_product_rel. Qed.

Lemma group_tuples_rel σ sth st group :
  bound σ sth st →
  result_rel (Forall2 (Forall2 (holds σ)))
    (Store.group_tuples sth group) (group_tuples st group).
Proof.
  intros (_ & _ & _ & Hfpd). unfold Store.group_tuples, group_tuples.
  eapply result_rel_bind.
  - apply result_rel_mapM. apply Forall2_diag. intros k.
    destruct (od_rel_get _ _ _ k Hfpd) as [rs vs Hrs|]; simpl; [exact Hrs|done].
  - intros temp_h temp Htemp. simpl. by apply zip_star_rel.
Qed.

Lemma bound_init σ : bound σ Store.bind_init bind_init.
Proof. repeat split. constructor. Qed.

Lemma raw_combinations_sim σ l :
  simulates
    (λ σ' raw_h raw,
       raw_h.1 = raw.1 ∧ Forall2 (Forall2 (Forall2 (holds σ'))) raw_h.2 raw.2)
    σ (Store.raw_combinations l) (raw_combinations l (Store.corpus σ)).
Proof.
  unfold Store.raw_combinations, raw_combinations.
  eapply simulates_bind; [apply bind_args_sim, bound_init|].
  intros σ1 sth st Hext Hbound.
  eapply (simulates_bind (λ σ', Forall2 (Forall2 (Forall2 (holds σ'))))).
  - apply simulates_lift. destruct Hbound as (Hinst & Hrest). rewrite Hinst.
    apply result_rel_mapM. apply Forall2_diag. intros group.
    apply group_tuples_rel. by split.
  - intros σ2 combinations_h combinations _ Hcombinations.
    apply simulates_ret. split; [by destruct Hbound|]. by apply product_rel.
Qed.

Lemma fold_od_set_rel {A B} (P : A → B → Prop) (names : list string) t1 t2 :
  Forall2 P t1 t2 → ∀ o1 o2, od_rel P o1 o2 →
  od_rel P (fold_left (λ o kv, od_set o kv.1 kv.2) (zip names t1) o1)
           (fold_left (λ o kv, od_set o kv.1 kv.2) (zip names t2) o2).
Proof.
  intros Ht. revert names.
  induction Ht as [|a b t1 t2 Hab _ IH]; intros names o1 o2 Ho.
  - by destruct names.
  - destruct names as [|n names]; [done|]. simpl. apply IH. by apply od_rel_set.
Qed.

Lemma bind_combination_rel (P : Store.ref → pyval → Prop) inst x_h x :
  Forall2 (Forall2 P) x_h x →
  od_rel P (Store.bind_combination inst x_h) (bind_combination inst x).
Proof.
  unfold Store.bind_combination, bind_combination. intros Hx.
  assert (od_rel P [] []) as Ho by constructor. revert Ho.
  generalize (@nil (string * Store.ref)) (@nil (string * pyval)). revert inst.
  induction Hx as [|t_h t x_h x Ht _ IH]; intros inst o1 o2 Ho.
  - by destruct inst.
  - destruct inst as [|group inst]; [done|]. simpl. apply IH.
    by apply fold_od_set_rel.
Qed.

Lemma od_set_NoDup {A} (d : odict A) k v :
  NoDup (od_keys d) → NoDup (od_keys (od_set d k v)).
Proof.
  intros Hnd. rewrite od_keys_set. destruct (decide (k ∈ od_keys d)); [done|].
  apply NoDup_app. split; [done|]. split; [|apply NoDup_singleton].
  intros k' Hk' ->%list_elem_of_singleton. done.
Qed.

Lemma bind_combination_NoDup inst x : NoDup (od_keys (bind_combination inst x)).
Proof.
  unfold bind_combination.
  assert (NoDup (od_keys (@nil (string * pyval)))) as Ho by constructor. revert Ho.
  generalize (@nil (string * pyval)).
  generalize (zip inst x) as groups.
  induction groups as [|gt groups IH]; intros o Ho; [done|].
  simpl. apply IH. revert Ho. generalize (zip gt.1.2 gt.2) as items. clear.
  induction items as [|kv items IH] in o |- *; intros Ho; [done|].
  simpl. apply IH. by apply od_set_NoDup.
Qed.

(** *** The copies are new objects *)

Lemma extends_length σ σ' :
  extends σ σ' → length (Store.objects σ) ≤ length (Store.objects σ').
Proof. intros [_ Hprefix]. by apply prefix_length. Qed.

Lemma memo_get_elem memo r copy :
  Store.memo_get memo r = Some copy → (r, copy) ∈ memo.
Proof.
  induction memo as [|[original c] memo IH]; simpl; [done|].
  destruct (decide (original = r)) as [->|_].
  - intros [= ->]. left.
  - intros Hget. right. by apply IH.
Qed.

Lemma od_keys_snoc {A} (d : odict A) k v : od_keys (d ++ [(k, v)]) = od_keys d ++ [k].
Proof. unfold od_keys. by rewrite fmap_app. Qed.

Lemma deepcopy_loop_sim σ0 items_h items :
  od_rel (holds σ0) items_h items →
  ∀ σ memo temp copied,
    extends σ0 σ →
    Forall (λ p, made_since σ0 p.2 ∧ ∀ v, holds σ0 p.1 v → holds σ p.2 v) memo →
    od_rel (holds σ) temp copied →
    Forall (λ kr, made_since σ0 kr.2) temp →
    NoDup (od_keys copied ++ od_keys items) →
    ∃ σ' temp',
      Store.deepcopy_loop items_h memo temp σ = (σ', Ok temp') ∧
      extends σ σ' ∧ od_rel (holds σ') temp' (copied ++ items) ∧
      Forall (λ kr, made_since σ0 kr.2) temp'.
Proof.
  induction 1 as [|[k r] [k' v] items_h items [Hk Hrv] _ IH];
    intros σ memo temp copied Hext Hmemo Htemp Hfresh Hnd.
  - exists σ, temp. rewrite app_nil_r. split; [done|]. split; [apply extends_refl|done].
  - simpl in Hk, Hrv. subst k'.
    assert (od_get temp k = None) as Hnew.
    { apply eq_None_not_Some. rewrite od_get_Some_keys, (od_rel_keys _ _ _ Htemp).
      intros Hin. apply NoDup_app in Hnd as (_ & Hdisjoint & _).
      apply (Hdisjoint k Hin). left. }
    assert (NoDup (od_keys (copied ++ [(k, v)]) ++ od_keys items)) as Hnd'.
    { rewrite od_keys_snoc, <- app_assoc. exact Hnd. }
    assert (∀ σ1 copy, extends σ σ1 → holds σ1 copy v →
              od_rel (holds σ1) (od_set temp k copy) (copied ++ [(k, v)])) as Hset.
    { intros σ1 copy Hext1 Hcopy. rewrite od_set_fresh by done.
      apply Forall2_app; [|by repeat constructor].
      eapply od_rel_impl; [exact Htemp|]. intros ??. by apply holds_extends. }
    assert (∀ copy, made_since σ0 copy →
              Forall (λ kr, made_since σ0 kr.2) (od_set temp k copy)) as Hfresh'.
    { intros copy Hcopy. rewrite od_set_fresh by done.
      apply Forall_app. split; [done|]. by repeat constructor. }
    simpl. destruct (Store.memo_get memo r) as [copy|] eqn:Hget.
    + apply memo_get_elem in Hget. rewrite Forall_forall in Hmemo.
      destruct (Hmemo _ Hget) as [Hsince Hcopy]. simpl in *.
      destruct (IH σ memo (od_set temp k copy) (copied ++ [(k, v)]))
        as (σ' & temp' & Hrun & Hext' & Hrel & Hfresh'');
        [done|by apply Forall_forall|apply Hset; [apply extends_refl|by apply Hcopy]
        |by apply Hfresh'|done|].
      exists σ', temp'. rewrite <- app_assoc in Hrel. done.
    + pose proof (holds_extends _ _ _ _ Hext Hrv) as Hv. unfold holds in Hv.
      rewrite stateful_bind_run. unfold Store.load. rewrite Hv. simpl.
      rewrite stateful_bind_run. simpl.
      pose proof (extends_alloc σ v) as Hext1.
      pose proof (holds_alloc σ v) as Hcopy. simpl in Hext1, Hcopy.
      assert (made_since σ0 (Store.Alloc (length (Store.objects σ)))) as Hsince
        by (eexists; split; [done|by apply extends_length]).
      destruct (IH _ ((r, Store.Alloc (length (Store.objects σ))) :: memo)
                  (od_set temp k (Store.Alloc (length (Store.objects σ))))
                  (copied ++ [(k, v)]) (extends_trans _ _ _ Hext Hext1))
        as (σ' & temp' & Hrun & Hext' & Hrel & Hfresh'');
        [|by apply Hset|by apply Hfresh'|done|].
      * constructor.
        -- split; [done|]. simpl. intros v' Hv'. unfold holds in Hrv, Hv'.
           assert (v' = v) as -> by congruence. exact Hcopy.
        -- eapply Forall_impl; [exact Hmemo|]. intros p [? Hp]. split; [done|].
           intros v' Hv'. eapply holds_extends; [exact Hext1|]. by apply Hp.
      * exists σ', temp'. rewrite <- app_assoc in Hrel.
        split; [done|]. split; [by eapply extends_trans|done].
Qed.

Lemma deepcopy_sim σ origtemp_h origtemp :
  od_rel (holds σ) origtemp_h origtemp → NoDup (od_keys origtemp) →
  ∃ σ' temp,
    Store.deepcopy origtemp_h σ = (σ', Ok temp) ∧
    extends σ σ' ∧ od_rel (holds σ') temp origtemp ∧
    Forall (λ kr, made_since σ kr.2) temp.
Proof.
  intros Hrel Hnd. unfold Store.deepcopy.
  apply (deepcopy_loop_sim σ origtemp_h origtemp Hrel σ [] [] []);
    [apply extends_refl|constructor|constructor|constructor|done].
Qed.

(** *** The call changes the copies alone *)

Lemma load_all_rel σ temp vals :
  od_rel (holds σ) temp vals → Store.load_all temp σ = (σ, Ok vals).
Proof.
  intros Hrel. unfold Store.load_all. f_equal.
  induction Hrel as [|[k r] [k' v] temp vals [Hk Hrv] _ IH]; [done|].
  simpl in Hk, Hrv. subst k'. rewrite mapM_result_cons. simpl.
  unfold holds in Hrv. rewrite Hrv. simpl. by rewrite IH.
Qed.

Lemma write_back_extends σ0 temp temp' :
  Forall (λ kr, made_since σ0 kr.2) temp →
  ∀ σ, extends σ0 σ → extends σ0 (Store.write_back temp temp' σ).
Proof.
  unfold Store.write_back.
  induction 1 as [|[k r] temp Hr _ IH]; intros σ Hext; [done|].
  simpl. apply IH. destruct (od_get temp' k); [|done]. by apply extends_write.
Qed.

Lemma call_sim σ0 σ funcPy temp vals :
  extends σ0 σ → od_rel (holds σ) temp vals →
  Forall (λ kr, made_since σ0 kr.2) temp →
  ∃ σ', Store.call funcPy temp σ = (σ', Ok (funcPy vals)) ∧ extends σ0 σ'.
Proof.
  intros Hext Hrel Hfresh. unfold Store.call.
  rewrite stateful_bind_run, (load_all_rel _ _ _ Hrel). unfold Store.leave.
  eexists. split; [reflexivity|]. by apply write_back_extends.
Qed.

(** *** The generation on the store yields what the generation on values
    yields, and leaves the corpus as it was *)

Lemma run_combination_sim env kernel_name l inst σ x_h x :
  Forall2 (Forall2 (holds σ)) x_h x →
  simulates (λ _, eq) σ
    (Store.run_combination env kernel_name l inst x_h)
    (run_combination env kernel_name l inst x).
Proof.
  intros Hx. unfold Store.run_combination, run_combination.
  destruct (deepcopy_sim σ (Store.bind_combination inst x_h) (bind_combination inst x))
    as (σ1 & temp & Hcopy & Hext1 & Hrel & Hfresh);
    [by apply bind_combination_rel|apply bind_combination_NoDup|].
  unfold simulates. rewrite stateful_bind_run, Hcopy.
  destruct (env kernel_name) as [funcPy|]; run_store; [|done].
  destruct (call_sim σ σ1 funcPy temp _ Hext1 Hrel Hfresh) as (σ2 & Hcall & Hext2).
  rewrite Hcall.
  change (execute l funcPy (bind_combination inst x))
    with (record_outcome l (funcPy (bind_combination inst x))).
  destruct (record_outcome l (funcPy (bind_combination inst x))) as [tempdict|];
    simpl; [|done].
  destruct (retained l tempdict); simpl; done.
Qed.

Lemma gettests_loop_sim env kernel_name l inst σ0 combos_h combos :
  Forall2 (Forall2 (Forall2 (holds σ0))) combos_h combos →
  ∀ σ allvals, extends σ0 σ →
    simulates (λ _, eq) σ
      (Store.gettests_loop env kernel_name l inst combos_h allvals)
      (gettests_loop env kernel_name l inst combos allvals).
Proof.
  induction 1 as [|x_h x combos_h combos Hx _ IH]; intros σ allvals Hext; simpl.
  - by apply simulates_ret.
  - eapply simulates_bind.
    + apply run_combination_sim. eapply Forall2_impl; [exact Hx|].
      intros t_h t Ht. eapply Forall2_impl; [exact Ht|].
      intros r v. by apply holds_extends.
    + intros σ' r ? Hext' <-. apply IH. by eapply extends_trans.
Qed.

Lemma gettests_sim env kernel_name l σ :
  simulates (λ _, eq) σ
    (Store.gettests env kernel_name l)
    (gettests env kernel_name l (Store.corpus σ)).
Proof.
  unfold Store.gettests, gettests.
  eapply simulates_bind; [apply raw_combinations_sim|].
  intros σ1 [inst_h combos_h] [inst combos] _ [Hinst Hcombos]. simpl in *.
  subst inst_h. by apply gettests_loop_sim with (σ0 := σ1); [|apply extends_refl].
Qed.

Lemma gettests_store env kernel_name l σ :
  extends σ (Store.gettests env kernel_name l σ).1 ∧
  (Store.gettests env kernel_name l σ).2 = gettests env kernel_name l (Store.corpus σ).
Proof.
  destruct (gettests_sim env kernel_name l σ) as [Hext Hrel].
  split; [done|]. by apply result_rel_eq.
Qed.

(** A call on objects of the corpus itself would change the corpus: the
    copies are what keeps it as it was. *)
Lemma call_changes_passed_objects :
  Store.deref (Store.mkStore Sample.two_group_fixture [])
    (Store.Corpus [Store.Key "foo"; Store.Index 0; Store.Key "foo-x"])
  = Some (PyList [PyInt 1]) ∧
  Store.deref
    (Store.call Sample.appends_zero
       [("a", Store.Corpus [Store.Key "foo"; Store.Index 0; Store.Key "foo-x"])]
       (Store.mkStore Sample.two_group_fixture [])).1
    (Store.Corpus [Store.Key "foo"; Store.Index 0; Store.Key "foo-x"])
  = Some (PyList [PyInt 1; PyInt 0]).
Proof. split; vm_compute; reflexivity. Qed.

(** C9. Two generations in a row from the same kernel specification and
    fixture corpus yield the same ordered list of test cases, or raise the
    same exception. The first generation leaves the corpus and every object
    that was in the store as they were, although the callable changes the
    objects it is passed: what it is passed are copies. The generation
    yields what the generation on the values of the corpus yields, and its
    list follows the raw combinations: the groups are taken in the order in
    which the arguments declare them, the combinations in the lexicographic
    order of the product of the groups' tuples, each combination is run on
    the values of the corpus as it was at the start, and the retained test
    cases keep the order of their combinations. *)
Theorem gettests_deterministic_ordered (env : kernel_env) (kernel_name : string)
    (args : list Argument) (σ : Store.store) :
  Store.corpus (Store.gettests env kernel_name args σ).1 = Store.corpus σ ∧
  Store.objects σ `prefix_of` Store.objects (Store.gettests env kernel_name args σ).1 ∧
  (Store.gettests env kernel_name args (Store.gettests env kernel_name args σ).1).2
  = (Store.gettests env kernel_name args σ).2 ∧
  (Store.gettests env kernel_name args σ).2
  = gettests env kernel_name args (Store.corpus σ) ∧
  (∀ tests, (Store.gettests env kernel_name args σ).2 = Ok tests →
     ∃ st tuples results,
       bind_args (Store.corpus σ) bind_init args = Ok st ∧
       od_keys (instancedict st) = declared_groups args ∧
       Forall2 (λ group ts, group_tuples st group = Ok ts) (instancedict st) tuples ∧
       Forall2 (λ x r, run_combination env kernel_name args (instancedict st) x = Ok r)
         (lex_product tuples) results ∧
       tests = omap id results).
Proof.
  destruct (gettests_store env kernel_name args σ) as [[Hcorpus Hobjects] Hfirst].
  destruct (gettests_store env kernel_name args
              (Store.gettests env kernel_name args σ).1) as [_ Hsecond].
  split; [done|]. split; [done|]. split; [by rewrite Hsecond, Hcorpus, Hfirst|].
  split; [done|].
  intros tests Hrun. rewrite Hfirst in Hrun. unfold gettests, raw_combinations in Hrun.
  apply bind_Ok in Hrun as ([inst combos] & Hraw & Hrun).
  apply bind_Ok in Hraw as (st & Hst & Hraw).
  apply bind_Ok in Hraw as (tuples & Htuples & [= <- <-]).
  simpl in Hrun. apply gettests_loop_results in Hrun as (results & Hall & ->).
  exists st, tuples, results. split; [done|].
  split; [by rewrite (bind_args_keys _ _ _ _ Hst)|].
  split; [by apply mapM_result_Forall2|].
  split; [by rewrite <- product_lex|done].
Qed.

Lemma gettests_deterministic_ordered_witness :
  Store.corpus
    (Store.gettests (Sample.env Sample.appends_zero) "kernel" Sample.two_group_args
       (Store.mkStore Sample.two_group_fixture [])).1
  = Sample.two_group_fixture ∧
  (Store.gettests (Sample.env Sample.appends_zero) "kernel" Sample.two_group_args
     (Store.gettests (Sample.env Sample.appends_zero) "kernel" Sample.two_group_args
        (Store.mkStore Sample.two_group_fixture [])).1).2
  = Ok ((λ abc, mkTestCase
                  [("a", PyList [PyInt abc.1.1; PyInt 0]);
                   ("b", PyList [PyInt abc.1.2; PyInt 0]);
                   ("c", PyList [PyInt abc.2; PyInt 0])] (Some []) true)
        <$> [(1, 2, 5); (1, 2, 6); (1, 2, 7); (3, 4, 5); (3, 4, 6); (3, 4, 7)]%Z).
Proof.
  destruct (gettests_deterministic_ordered (Sample.env Sample.appends_zero) "kernel"
              Sample.two_group_args (Store.mkStore Sample.two_group_fixture []))
    as (Hcorpus & _ & Hsame & _).
  split; [exact Hcorpus|]. rewrite Hsame. vm_compute. reflexivity.
Defined.

(** * Further properties of the sources *)

(** ** The data source: column lengths and entry ranges *)

Lemma append_empty (s t : string) : s +:+ t = "" → s = "" ∧ t = "".
Proof. destruct s; simpl; [done|discriminate]. Qed.

Lemma ColLenghtChecker_loop_empty first rest err :
  RAwkwardArrayDS.ColLenghtChecker_loop first rest err = "" ↔
  err = "" ∧ Forall (λ col, col.2 = first.2) rest.
Proof.
  revert err. induction rest as [|col rest IH]; intros err; simpl.
  - rewrite Forall_nil. tauto.
  - rewrite IH, Forall_cons. destruct (decide (first.2 ≠ col.2)) as [Hne|Heq].
    + split.
      * intros [[_ Hm]%append_empty _]. discriminate Hm.
      * intros (_ & Heq & _). congruence.
    + apply dec_stable in Heq. intuition congruence.
Qed.

Lemma ColLenghtChecker_passes first rest :
  Forall (λ col, col.2 = first.2) rest →
  RAwkwardArrayDS.ColLenghtChecker (first :: rest) = Ok tt.
Proof.
  intros Hall. unfold RAwkwardArrayDS.ColLenghtChecker.
  destruct rest as [|col rest]; [done|].
  rewrite decide_True; [done|]. by apply ColLenghtChecker_loop_empty.
Qed.

(** The column-length check passes exactly when every column is as long as
    the first one; otherwise it throws with a message that is not empty. *)
Theorem ColLenghtChecker_equal_lengths (first : string * Z)
    (rest : list (string * Z)) :
  (RAwkwardArrayDS.ColLenghtChecker (first :: rest) = Ok tt ↔
   Forall (λ col, col.2 = first.2) rest) ∧
  (¬ Forall (λ col, col.2 = first.2) rest →
   ∃ err, RAwkwardArrayDS.ColLenghtChecker (first :: rest) = Raise (OtherException err)
          ∧ err ≠ "").
Proof.
  unfold RAwkwardArrayDS.ColLenghtChecker.
  destruct rest as [|col rest]; [split; [done|intros []; constructor]|].
  pose proof (ColLenghtChecker_loop_empty first (col :: rest) "") as Hloop.
  destruct (decide (RAwkwardArrayDS.ColLenghtChecker_loop first (col :: rest) "" = ""))
    as [Hempty|Hfull].
  - split; [split; [intros _; by apply Hloop|done]|].
    intros Hne. exfalso. apply Hne. by apply Hloop.
  - split.
    + split; [done|]. intros Hall. exfalso. apply Hfull, Hloop. done.
    + intros _. by eexists.
Qed.

Lemma ColLenghtChecker_equal_lengths_witness :
  ∃ err, RAwkwardArrayDS.ColLenghtChecker [("x", 3%Z); ("y", 2%Z)]
         = Raise (OtherException err) ∧ err ≠ "".
Proof.
  apply (ColLenghtChecker_equal_lengths ("x", 3%Z) [("y", 2%Z)]).
  intros Hall. apply Forall_cons_1 in Hall as [Heq _]. discriminate Heq.
Defined.

Lemma entry_ranges_lookup q r s : ∀ slots i0 init reminder,
  (0 ≤ q)%Z → (0 ≤ r < s)%Z → (s * q + r < 2 ^ 64)%Z →
  (Z.of_nat i0 + Z.of_nat slots = s)%Z →
  init = (Z.of_nat i0 * q + Z.min (Z.of_nat i0) r)%Z →
  reminder = (r - Z.min (Z.of_nat i0) r)%Z →
  length (RAwkwardArrayDS.entry_ranges slots init reminder q) = slots ∧
  ∀ j, j < slots →
    RAwkwardArrayDS.entry_ranges slots init reminder q !! j
    = Some ((Z.of_nat (i0 + j) * q + Z.min (Z.of_nat (i0 + j)) r)%Z,
            (Z.of_nat (S (i0 + j)) * q + Z.min (Z.of_nat (S (i0 + j))) r)%Z).
Proof.
  induction slots as [|slots IH]; intros i0 init reminder Hq Hr Hmax Hs Hinit Hrem.
  - split; [done|]. intros j Hj. lia.
  - simpl.
    set (next := (Z.of_nat (S i0) * q + Z.min (Z.of_nat (S i0)) r)%Z).
    assert (0 ≤ next < 2 ^ 64)%Z as Hnext by (unfold next; nia).
    assert ((if decide (0 ≠ reminder)%Z
             then RAwkwardArrayDS.wrap64 (RAwkwardArrayDS.wrap64 (init + q) + 1)
             else RAwkwardArrayDS.wrap64 (init + q)) = next) as Hend.
    { unfold RAwkwardArrayDS.wrap64.
      destruct (decide (0 ≠ reminder)%Z) as [Hne|Heq%dec_stable].
      - assert (init + q + 1 = next)%Z as <- by (unfold next; lia).
        rewrite (Z.mod_small (init + q)) by lia. apply Z.mod_small. lia.
      - assert (init + q = next)%Z as <- by (unfold next; lia).
        apply Z.mod_small. lia. }
    assert ((if decide (0 ≠ reminder)%Z
             then RAwkwardArrayDS.wrap64 (reminder - 1) else reminder)
            = (r - Z.min (Z.of_nat (S i0)) r)%Z) as Hrem'.
    { unfold RAwkwardArrayDS.wrap64.
      destruct (decide (0 ≠ reminder)%Z) as [Hne|Heq%dec_stable].
      - rewrite Z.mod_small by lia. lia.
      - lia. }
    rewrite Hend, Hrem'.
    destruct (IH (S i0) next (r - Z.min (Z.of_nat (S i0)) r)%Z)
      as [Hlen Hlookup]; try done; try lia.
    split; [by rewrite Hlen|].
    intros [|j] Hj; simpl.
    + rewrite Nat.add_0_r. by rewrite Hinit.
    + rewrite Hlookup by lia. by rewrite Nat.add_succ_r.
Qed.

(** [Initialize] splits the entries of the first column among the slots:
    there is one range per slot, the ranges follow one another from 0 to the
    number of entries, and slot [i] starts at [i * (n / s) + min i (n mod s)],
    so that the first [n mod s] ranges hold one entry more than the others. *)
Theorem Initialize_partitions (first : string * Z) (others : list (string * Z))
    (fNSlots : Z) :
  (0 ≤ first.2 < 2 ^ 64)%Z → (0 < fNSlots < 2 ^ 32)%Z →
  Forall (λ col, col.2 = first.2) others →
  ∃ ranges,
    RAwkwardArrayDS.Initialize first others fNSlots = Ok ranges ∧
    length ranges = Z.to_nat fNSlots ∧
    (∀ i, i < Z.to_nat fNSlots →
       ranges !! i
       = Some ((Z.of_nat i * (first.2 / fNSlots)
                + Z.min (Z.of_nat i) (first.2 mod fNSlots))%Z,
               (Z.of_nat (S i) * (first.2 / fNSlots)
                + Z.min (Z.of_nat (S i)) (first.2 mod fNSlots))%Z)) ∧
    (fst <$> ranges !! 0 = Some 0%Z) ∧
    (snd <$> ranges !! (Z.to_nat fNSlots - 1) = Some first.2).
Proof.
  intros Hn Hs Hall. unfold RAwkwardArrayDS.Initialize.
  rewrite (ColLenghtChecker_passes first others Hall). simpl.
  rewrite decide_False by lia.
  set (n := first.2) in *. set (q := (n / fNSlots)%Z). set (r := (n mod fNSlots)%Z).
  assert (0 ≤ q)%Z as Hq by (apply Z.div_pos; lia).
  assert (0 ≤ r < fNSlots)%Z as Hr by (apply Z.mod_pos_bound; lia).
  assert (n = fNSlots * q + r)%Z as Hdiv by (apply Z.div_mod; lia).
  assert ((if decide (1 = fNSlots)%Z then 0%Z else r) = r) as ->.
  { destruct (decide (1 = fNSlots)%Z) as [<-|]; [|done]. unfold r.
    by rewrite Z.mod_1_r. }
  destruct (entry_ranges_lookup q r fNSlots (Z.to_nat fNSlots) 0 0%Z r)
    as [Hlen Hlookup]; try lia.
  eexists. split; [done|]. split; [done|]. split; [|split].
  - intros i Hi. by rewrite Hlookup.
  - rewrite Hlookup by lia. simpl. f_equal. lia.
  - rewrite Hlookup by lia. simpl. f_equal.
    replace (Z.of_nat (S (Z.to_nat fNSlots - 1))) with fNSlots by lia. lia.
Qed.

Lemma Initialize_partitions_witness :
  RAwkwardArrayDS.Initialize ("x", 10%Z) [("y", 10%Z)] 4
  = Ok [(0, 3); (3, 6); (6, 8); (8, 10)]%Z.
Proof.
  destruct (Initialize_partitions ("x", 10%Z) [("y", 10%Z)] 4)
    as (ranges & Hrun & _).
  - simpl. lia.
  - lia.
  - repeat constructor.
  - rewrite Hrun. vm_compute in Hrun. symmetry. exact Hrun.
Defined.

(** ** The unsigned validator and the merge of inputs and outputs *)

Lemma py_lt0_number n :
  is_number n = true →
  ∃ b, py_lt0 n = Ok b ∧ (b = false ↔ not_negative n).
Proof.
  destruct n as [z|b|f| | | | |]; try done; intros _; simpl.
  - eexists. split; [done|]. apply Z.ltb_ge.
  - eexists. split; [done|]. tauto.
  - eexists. split; [done|]. tauto.
Qed.

Lemma any_negative_numbers items :
  Forall (λ v, is_number v = true) items →
  ∃ b, any_negative items = Ok b ∧ (b = false ↔ Forall not_negative items).
Proof.
  induction 1 as [|n items Hn _ (b & Hrest & Hb)]; simpl.
  - exists false. split; [done|]. split; [constructor|done].
  - destruct (py_lt0_number n Hn) as (bn & -> & Hbn). simpl.
    destruct bn.
    + exists true. split; [done|]. split; [done|].
      intros [Hneg _]%Forall_cons_1. apply Hbn in Hneg. done.
    + exists b. split; [done|]. rewrite Hb, Forall_cons. intuition.
Qed.

(** [checkuint] accepts a record exactly when no sequence declared as a list
    of unsigned integers holds a negative number; it is defined on every
    record whose entries name declared arguments and give such sequences as
    flat lists of numbers. *)
Theorem checkuint_accepts (test_args : list (string * pyval))
    (arguments : list Argument) :
  Forall (λ entry,
    ∃ argument, list_find (λ a, name a = entry.1) arguments = Some argument ∧
      (Str.contains "List[uint" (remove_const (typename argument.2)) = true →
       ∃ items, entry.2 = PyList items ∧ Forall (λ v, is_number v = true) items))
    test_args →
  ∃ accepted, checkuint test_args arguments = Ok accepted ∧
    (accepted = true ↔
     ∀ arg items argument,
       (arg, PyList items) ∈ test_args →
       list_find (λ a, name a = arg) arguments = Some argument →
       Str.contains "List[uint" (remove_const (typename argument.2)) = true →
       Forall not_negative items).
Proof.
  intros Hshape. unfold checkuint.
  assert (∀ flag, ∃ accepted, checkuint_loop test_args arguments flag = Ok accepted ∧
    (accepted = true ↔ flag = true ∧
     ∀ arg items argument,
       (arg, PyList items) ∈ test_args →
       list_find (λ a, name a = arg) arguments = Some argument →
       Str.contains "List[uint" (remove_const (typename argument.2)) = true →
       Forall not_negative items)) as Hgoal.
  { induction Hshape as [|[arg val] rest Hentry _ IH]; intros flag.
    - exists flag. split; [done|]. split; [|tauto]. intros ->. split; [done|].
      intros ??? Hin. by apply elem_of_nil in Hin.
    - destruct Hentry as (argument & Hfind & Hvalue). simpl in *.
      rewrite Hfind. simpl.
      destruct (Str.contains "List[uint" (remove_const (typename argument.2)))
        eqn:Huint.
      + destruct (Hvalue eq_refl) as (items & -> & Hitems).
        unfold any_negative_in. simpl.
        destruct (any_negative_numbers items Hitems) as (neg & -> & Hneg). simpl.
        destruct (IH (if neg then false else flag)) as (accepted & -> & Hacc).
        exists accepted. split; [done|]. rewrite Hacc. split.
        * intros [Hflag Hrest]. destruct neg; [done|]. split; [done|].
          intros arg' items' argument' [Heq|Hin]%elem_of_cons Hfind' Hu.
          -- simplify_eq. by apply Hneg.
          -- by eapply Hrest.
        * intros [-> Hall].
          assert (neg = false) as ->.
          { apply Hneg. apply (Hall arg items argument); [left|done..]. }
          split; [done|]. intros arg' items' argument' Hin.
          apply Hall. by right.
      + simpl. destruct (IH flag) as (accepted & -> & Hacc).
        exists accepted. split; [done|]. rewrite Hacc. split.
        * intros [-> Hrest]. split; [done|].
          intros arg' items' argument' [Heq|Hin]%elem_of_cons Hfind' Hu.
          -- simplify_eq. congruence.
          -- by eapply Hrest.
        * intros [-> Hall]. split; [done|]. intros arg' items' argument' Hin.
          apply Hall. by right. }
  destruct (Hgoal true) as (accepted & Hrun & Hacc). exists accepted.
  split; [done|]. rewrite Hacc. tauto.
Qed.

Lemma checkuint_accepts_witness :
  ∃ accepted,
    checkuint [("x", PyList [PyInt 1; PyInt (-2)]); ("n", PyInt (-7))]
      [mkArgument "x" "Const[List[uint8_t]]" "in" "default";
       mkArgument "n" "int64_t" "in" "default"] = Ok accepted ∧
    (accepted = true ↔
     ∀ arg items argument,
       (arg, PyList items) ∈ [("x", PyList [PyInt 1; PyInt (-2)]); ("n", PyInt (-7))] →
       list_find (λ a, name a = arg)
         [mkArgument "x" "Const[List[uint8_t]]" "in" "default";
          mkArgument "n" "int64_t" "in" "default"] = Some argument →
       Str.contains "List[uint" (remove_const (typename argument.2)) = true →
       Forall not_negative items).
Proof.
  apply checkuint_accepts.
  apply Forall_cons_2; [|apply Forall_cons_2; [|apply Forall_nil_2]].
  - eexists. split; [reflexivity|]. intros _. eexists. split; [reflexivity|].
    repeat constructor.
  - eexists. split; [reflexivity|]. intros Hu. vm_compute in Hu. discriminate Hu.
Defined.

Lemma fold_od_set_get_list (l : odict pyval) : ∀ d k,
  NoDup (od_keys l) →
  od_get (fold_left (λ d kv, od_set d kv.1 kv.2) l d) k
  = match od_get l k with Some v => Some v | None => od_get d k end.
Proof.
  unfold od_keys. induction l as [|[k0 v0] l IH]; intros d k Hnd; [done|].
  rewrite fmap_cons in Hnd. apply NoDup_cons in Hnd as [Hfresh Hnd]. simpl in *.
  rewrite IH by done. destruct (decide (k = k0)) as [->|Hne].
  - destruct (od_get l k0) eqn:Hget.
    + exfalso. apply Hfresh. apply od_get_Some_keys. by eexists.
    + apply od_get_set_eq.
  - destruct (od_get l k); [done|]. by apply od_get_set_ne.
Qed.

Lemma filter_ext_in {A} (P Q : A → Prop) `{∀ x, Decision (P x)}
    `{∀ x, Decision (Q x)} (l : list A) :
  Forall (λ x, P x ↔ Q x) l → filter P l = filter Q l.
Proof.
  induction 1 as [|x l Hx _ IH]; [done|].
  rewrite !filter_cons, IH.
  destruct (decide (P x)), (decide (Q x)); tauto.
Qed.

Lemma filter_all {A} (P : A → Prop) `{∀ x, Decision (P x)} (l : list A) :
  Forall P l → filter P l = l.
Proof.
  induction 1 as [|x l Hx _ IH]; [done|]. by rewrite filter_cons_True, IH.
Qed.

Lemma fold_od_set_keys_list (l : odict pyval) : ∀ d,
  NoDup (od_keys l) →
  od_keys (fold_left (λ d kv, od_set d kv.1 kv.2) l d)
  = od_keys d ++ filter (λ k, k ∉ od_keys d) (od_keys l).
Proof.
  induction l as [|[k0 v0] l IH]; intros d Hnd.
  - simpl. by rewrite app_nil_r.
  - unfold od_keys in Hnd. rewrite fmap_cons in Hnd.
    apply NoDup_cons in Hnd as [Hfresh Hnd]. simpl in *.
    rewrite IH by done. rewrite od_keys_set.
    change (od_keys ((k0, v0) :: l)) with (k0 :: od_keys l).
    rewrite filter_cons. destruct (decide (k0 ∈ od_keys d)) as [Hin|Hnotin].
    + by rewrite decide_False by (by intros ?).
    + rewrite decide_True by done. rewrite <- app_assoc. simpl. do 2 f_equal.
      apply filter_ext_in. apply Forall_forall. intros k Hk.
      rewrite elem_of_app, list_elem_of_singleton.
      split; [tauto|]. intros Hd [?| ->]; done.
Qed.

(** [getunittests] merges the outputs and the inputs of a record with the
    inputs taking precedence: a key of both is looked up to its input value,
    so that this is the value the validators see; the keys are those of the
    outputs, followed by the inputs' keys that are new. *)
Theorem getunittests_inputs_override (test_inputs test_outputs : odict pyval)
    (key : string) :
  NoDup (od_keys test_inputs) → NoDup (od_keys test_outputs) →
  od_get (getunittests test_inputs test_outputs) key
  = match od_get test_inputs key with
    | Some v => Some v
    | None => od_get test_outputs key
    end ∧
  od_keys (getunittests test_inputs test_outputs)
  = od_keys test_outputs
    ++ filter (λ k, k ∉ od_keys test_outputs) (od_keys test_inputs).
Proof.
  intros Hin Hout. unfold getunittests. rewrite fold_left_app.
  assert (filter (λ k, k ∉ od_keys (@nil (string * pyval))) (od_keys test_outputs)
          = od_keys test_outputs) as Hall.
  { apply filter_all, Forall_forall. intros k _. by intros ?%elem_of_nil. }
  rewrite fold_od_set_get_list, fold_od_set_keys_list by done.
  rewrite fold_od_set_get_list, fold_od_set_keys_list by done.
  rewrite Hall. simpl. split; [|done].
  by destruct (od_get test_outputs key).
Qed.

Lemma getunittests_inputs_override_witness :
  od_get (getunittests [("n", PyInt 1); ("x", PyList [PyInt 2])]
                       [("x", PyList [PyInt 300]); ("y", PyList [PyInt 4])]) "x"
  = Some (PyList [PyInt 2]) ∧
  od_keys (getunittests [("n", PyInt 1); ("x", PyList [PyInt 2])]
                        [("x", PyList [PyInt 300]); ("y", PyList [PyInt 4])])
  = ["x"; "y"; "n"].
Proof.
  apply (getunittests_inputs_override
           [("n", PyInt 1); ("x", PyList [PyInt 2])]
           [("x", PyList [PyInt 300]); ("y", PyList [PyInt 4])] "x");
    apply (bool_decide_unpack _); vm_compute; exact I.
Defined.

(** ** Buffers of the retained test cases *)

Lemma execute_success arguments funcPy temp t :
  execute arguments funcPy temp = Ok t → success t = true →
  ∃ temp' outtests,
    funcPy temp = Returned temp' ∧ outargs t = Some outtests ∧
    record_success arguments temp' [] [] = Recorded (inargs t) outtests.
Proof.
  unfold execute. intros Hrun Hsuccess.
  destruct (funcPy temp) as [temp'|e temp'].
  - destruct (record_success arguments temp' [] []) as [intests outtests|e partial]
      eqn:Hrec.
    + injection Hrun as <-. by eexists _, _.
    + destruct e; try done.
      apply bind_Ok in Hrun as (intests & _ & [= <-]). done.
  - destruct e; try done.
    apply bind_Ok in Hrun as (intests & _ & [= <-]). done.
Qed.

Lemma first_item_typed_nonempty typeval l :
  first_item_typed typeval (PyList l) → l ≠ [].
Proof. by destruct l. Qed.

(** In every retained test case of a successful execution, the expected
    sequence of each output argument is not empty, and the buffer recorded
    for it in [inargs] is made of the placeholder of its type and is as long
    as the expected sequence; an input argument has no expected value. *)
Theorem retained_success_buffers (env : kernel_env) (kernel_name : string)
    (arguments : list Argument) (testdata : gmap string pyval)
    (tests : list TestCase) (t : TestCase) (arg : Argument) :
  gettests env kernel_name arguments testdata = Ok tests →
  NoDup (name <$> arguments) →
  t ∈ tests → success t = true → arg ∈ arguments →
  ∃ outtests, outargs t = Some outtests ∧
    if decide (direction arg = "out") then
      ∃ l typeval,
        gettypeval (typename arg) = Ok typeval ∧
        od_get outtests (name arg) = Some (PyList l) ∧ l ≠ [] ∧
        od_get (inargs t) (name arg) = Some (PyList (replicate (length l) typeval))
    else od_get outtests (name arg) = None.
Proof.
  intros Hrun Hnd Ht Hsuccess Harg. unfold gettests in Hrun.
  apply bind_Ok in Hrun as ([inst combos] & _ & Hrun). simpl in Hrun.
  destruct (gettests_loop_retained _ _ _ _ _ _ _ _ Hrun Ht)
    as [[]%elem_of_nil|(x & _ & Hx)].
  apply run_combination_retained in Hx as (funcPy & _ & Hexec & Htypes & _).
  destruct (execute_success _ _ _ _ Hexec Hsuccess) as (temp' & outtests & _ & Houts & Hrec).
  exists outtests. split; [done|].
  pose proof (record_success_spec _ _ _ _ _ _ arg Hrec Hnd Harg) as Hspec.
  destruct (decide (direction arg = "out")).
  - destruct Hspec as (acc & l & typeval & _ & _ & _ & Htv & Hout & Hin).
    exists l, typeval. repeat split; try done.
    destruct (typevalidates_true _ _ arg Htypes Harg) as (v & typeval' & Hv & _ & Hfirst).
    rewrite Hin in Hv. injection Hv as <-.
    apply first_item_typed_nonempty in Hfirst. intros ->. done.
  - by destruct Hspec as (v & _ & _ & ->).
Qed.

Lemma retained_success_buffers_witness :
  ∃ outtests,
    Some [("y", PyList [PyStr "a"])] = Some outtests ∧
    ∃ l typeval,
      gettypeval "List[int64_t]" = Ok typeval ∧
      od_get outtests "y" = Some (PyList l) ∧ l ≠ [] ∧
      od_get [("x", PyList [PyInt 1; PyInt 2]); ("y", PyList [PyInt 123])] "y"
      = Some (PyList (replicate (length l) typeval)).
Proof.
  apply (retained_success_buffers (Sample.env Sample.writes_text) "kernel"
           [Sample.x_in "List[uint8_t]"; Sample.y_out "List[int64_t]"]
           (Sample.num [PyInt 1; PyInt 2])
           [mkTestCase [("x", PyList [PyInt 1; PyInt 2]); ("y", PyList [PyInt 123])]
              (Some [("y", PyList [PyStr "a"])]) true]
           (mkTestCase [("x", PyList [PyInt 1; PyInt 2]); ("y", PyList [PyInt 123])]
              (Some [("y", PyList [PyStr "a"])]) true)
           (Sample.y_out "List[int64_t]")).
  - vm_compute. reflexivity.
  - apply (bool_decide_unpack _). vm_compute. exact I.
  - left.
  - reflexivity.
  - right. left.
Defined.

Lemma dicttolist_any_empty acc typename l :
  py_len acc = Ok 0 → dicttolist_any acc typename = Ok l → l = [].
Proof.
  destruct acc as [| | | | | |d|o]; try done; simpl.
  - intros [= Hsize%map_size_empty_inv]. subst d. unfold dicttolist.
    destruct (gettypeval typename); [|done]. simpl. by intros [= <-].
  - intros [= Hsize]. destruct (gettypeval typename); [|done]. simpl.
    rewrite decide_True by done. by intros [= <-].
Qed.

(** A combination whose kernel leaves the accumulator of some output
    argument empty, whether it returns or raises the domain error, never
    becomes a test case: its buffer would be an empty sequence, which the
    type validator rejects. *)
Theorem untouched_output_yields_no_test (env : kernel_env) (kernel_name : string)
    (arguments : list Argument) (inst : odict (list string))
    (x : list (list pyval)) (funcPy : kernel) (temp' : odict pyval)
    (arg : Argument) (acc : pyval) :
  env kernel_name = Some funcPy →
  (funcPy (bind_combination inst x) = Returned temp' ∨
   ∃ msg, funcPy (bind_combination inst x) = Raised (ValueError msg) temp') →
  NoDup (name <$> arguments) → arg ∈ arguments → direction arg = "out" →
  od_get temp' (name arg) = Some acc → py_len acc = Ok 0 →
  ∀ t, run_combination env kernel_name arguments inst x ≠ Ok (Some t).
Proof.
  intros Henv Hcall Hnd Harg Hdir Hacc Hlen t Hrun.
  apply run_combination_retained in Hrun as (funcPy' & Henv' & Hexec & Htypes & _).
  rewrite Henv in Henv'. injection Henv' as <-.
  destruct (typevalidates_true _ _ arg Htypes Harg) as (v & typeval & Hv & _ & Hfirst).
  assert (v = PyList []) as ->; [|done].
  unfold execute in Hexec. destruct Hcall as [Hcall|[msg Hcall]]; rewrite Hcall in Hexec.
  - destruct (record_success arguments temp' [] []) as [intests outtests|e partial]
      eqn:Hrec.
    + injection Hexec as <-. simpl in Hv.
      pose proof (record_success_spec _ _ _ _ _ _ arg Hrec Hnd Harg) as Hspec.
      rewrite decide_True in Hspec by done.
      destruct Hspec as (acc' & l & typeval' & Hacc' & _ & Hl & _ & _ & Hin).
      rewrite Hacc in Hacc'. injection Hacc' as <-.
      apply (dicttolist_any_empty _ _ _ Hlen) in Hl as ->.
      rewrite Hin in Hv. by injection Hv as <-.
    + destruct e; try done.
      rewrite (record_failure_after_abort _ _ _ _ _ _ partial Hrec) in Hexec. done.
  - apply bind_Ok in Hexec as (intests & Hrec & [= <-]). simpl in Hv.
    pose proof (record_failure_spec _ _ _ _ arg Hrec Hnd Harg) as Hspec.
    rewrite decide_True in Hspec by done.
    destruct Hspec as (typeval' & acc' & n & _ & Hacc' & Hn & Hin).
    rewrite Hacc in Hacc'. injection Hacc' as <-.
    rewrite Hlen in Hn. injection Hn as <-.
    rewrite Hin in Hv. by injection Hv as <-.
Qed.

Lemma untouched_output_yields_no_test_witness :
  (∀ t, run_combination (Sample.env Sample.does_nothing) "kernel"
          [Sample.x_in "List[int64_t]"; Sample.y_out "List[int64_t]"]
          [("0", ["x"]); ("1", ["y"])] [[PyList [PyInt 1]]; [PyDict ∅]]
        ≠ Ok (Some t)) ∧
  run_combination (Sample.env Sample.does_nothing) "kernel"
    [Sample.x_in "List[int64_t]"; Sample.y_out "List[int64_t]"]
    [("0", ["x"]); ("1", ["y"])] [[PyList [PyInt 1]]; [PyDict ∅]] = Ok None.
Proof.
  split; [|vm_compute; reflexivity].
  apply (untouched_output_yields_no_test (Sample.env Sample.does_nothing) "kernel"
           [Sample.x_in "List[int64_t]"; Sample.y_out "List[int64_t]"]
           [("0", ["x"]); ("1", ["y"])] [[PyList [PyInt 1]]; [PyDict ∅]]
           Sample.does_nothing
           [("x", PyList [PyInt 1]); ("y", PyDict ∅)]
           (Sample.y_out "List[int64_t]") (PyDict ∅)).
  - reflexivity.
  - left. reflexivity.
  - apply (bool_decide_unpack _). vm_compute. exact I.
  - right. left.
  - reflexivity.
  - reflexivity.
  - reflexivity.
Defined.

(** ** Type descriptors *)

Lemma prefix_length p s : String.prefix p s = true → String.length p ≤ String.length s.
Proof.
  revert s. induction p as [|a p IH]; intros s; [simpl; lia|].
  destruct s as [|b s]; [done|]. rewrite prefix_cons.
  destruct (Ascii.ascii_dec a b); [|done].
  intros Hp%IH. simpl. lia.
Qed.

Lemma prefix_nil s : String.prefix "" s = true.
Proof. by destruct s. Qed.

Lemma append_cons a s t : String a s +:+ t = String a (s +:+ t).
Proof. reflexivity. Qed.

Lemma append_nil_l t : "" +:+ t = t.
Proof. reflexivity. Qed.

Lemma prefix_first_char c p a s :
  a ≠ c → String.prefix (String c p) (String a s) = false.
Proof. intros Hne. rewrite prefix_cons. destruct (Ascii.ascii_dec c a); congruence. Qed.

Lemma replace_from_cons_skip k old new c s :
  Str.replace_from (S k) old new (String c s) = Str.replace_from k old new s.
Proof. reflexivity. Qed.

Lemma replace_from_cons_0 old new c s :
  Str.replace_from 0 old new (String c s)
  = if String.prefix old (String c s)
    then new +:+ Str.replace_from (String.length old - 1) old new s
    else String c (Str.replace_from 0 old new s).
Proof. reflexivity. Qed.

(** A string without the first character of [old] holds no occurrence. *)
Lemma replace_no_first_char c old new s :
  Forall (λ a, a ≠ c) (list_ascii_of_string s) →
  Str.replace (String c old) new s = s.
Proof.
  unfold Str.replace. induction s as [|a s IH]; [done|].
  simpl list_ascii_of_string. intros [Ha Hs]%Forall_cons_1.
  rewrite replace_from_cons_0, prefix_first_char by done. by rewrite IH.
Qed.

Lemma contains_no_first_char c p s :
  Forall (λ a, a ≠ c) (list_ascii_of_string s) →
  Str.contains (String c p) s = false.
Proof.
  induction s as [|a s IH]; [done|].
  simpl list_ascii_of_string. intros [Ha Hs]%Forall_cons_1.
  rewrite contains_cons, prefix_first_char by done. by apply IH.
Qed.

(** Removing a character distributes over concatenation. *)
Lemma replace_char_app c s t :
  Str.replace (String c "") "" (s +:+ t)
  = Str.replace (String c "") "" s +:+ Str.replace (String c "") "" t.
Proof.
  unfold Str.replace. induction s as [|a s IH]; [done|].
  rewrite append_cons, !replace_from_cons_0, !prefix_cons.
  destruct (Ascii.ascii_dec c a).
  - by rewrite !prefix_nil, !append_nil_l.
  - by rewrite append_cons, IH.
Qed.

Lemma replace_char_chars c s :
  Forall (λ a, a ≠ c) (list_ascii_of_string (Str.replace (String c "") "" s)).
Proof.
  unfold Str.replace. induction s as [|a s IH]; [constructor|].
  rewrite replace_from_cons_0, prefix_cons.
  destruct (Ascii.ascii_dec c a) as [->|Hne].
  - by rewrite prefix_nil, append_nil_l.
  - simpl. constructor; [congruence|done].
Qed.

Lemma replace_char_keeps c (P : ascii → Prop) s :
  Forall P (list_ascii_of_string s) →
  Forall P (list_ascii_of_string (Str.replace (String c "") "" s)).
Proof.
  unfold Str.replace. induction s as [|a s IH]; [done|].
  intros Hs. simpl in Hs. apply Forall_cons_1 in Hs as [Ha Hs].
  rewrite replace_from_cons_0, prefix_cons.
  destruct (Ascii.ascii_dec c a).
  - rewrite prefix_nil, append_nil_l. by apply IH.
  - simpl. constructor; [done|by apply IH].
Qed.

Lemma substring_chars (P : ascii → Prop) s : ∀ n m,
  Forall P (list_ascii_of_string s) →
  Forall P (list_ascii_of_string (String.substring n m s)).
Proof.
  induction s as [|a s IH]; intros n m Hs.
  - destruct n, m; constructor.
  - simpl in Hs. apply Forall_cons_1 in Hs as [Ha Hs].
    destruct n as [|n]; simpl.
    + destruct m as [|m]; [constructor|]. simpl. constructor; [done|by apply IH].
    + by apply IH.
Qed.

(** The name that [gettypename] returns holds no bracket. *)
Theorem gettypename_no_bracket (spectype : string) :
  Forall (λ a, a ≠ "["%char ∧ a ≠ "]"%char)
    (list_ascii_of_string (gettypename spectype)).
Proof.
  unfold gettypename.
  set (t1 := Str.replace "[" "" (Str.replace "List" "" spectype)).
  assert (Forall (λ a, a ≠ "["%char ∧ a ≠ "]"%char)
            (list_ascii_of_string (Str.replace "]" "" t1))) as Hclean.
  { apply Forall_and. split.
    - apply replace_char_keeps. apply replace_char_chars.
    - apply replace_char_chars. }
  destruct (Str.endswith "_t" (Str.replace "]" "" t1)); [|done].
  by apply substring_chars.
Qed.

Lemma append_assoc (s t u : string) : (s +:+ t) +:+ u = s +:+ (t +:+ u).
Proof. induction s as [|a s IH]; [done|]. by rewrite !append_cons, IH. Qed.

Lemma append_nil_r (s : string) : s +:+ "" = s.
Proof. induction s as [|a s IH]; [done|]. by rewrite append_cons, IH. Qed.

Lemma chars_app (s t : string) :
  list_ascii_of_string (s +:+ t) = list_ascii_of_string s ++ list_ascii_of_string t.
Proof. induction s as [|a s IH]; [done|]. rewrite append_cons. simpl. by rewrite IH. Qed.

(** What [rstrip] removes is a run of the stripped character. *)
Lemma rstrip_split c s :
  ∃ t, s = Str.rstrip c s +:+ t ∧ Forall (λ a, a = c) (list_ascii_of_string t).
Proof.
  induction s as [|a s (t & Hs & Ht)]; [by exists ""|].
  simpl. destruct (Str.rstrip c s) as [|b kept] eqn:Hkept.
  - destruct (Ascii.eqb_spec a c) as [->|Hne].
    + exists (String c s). split; [done|]. rewrite Hs. simpl. by constructor.
    + exists t. split; [by rewrite Hs|done].
  - exists t. split; [|done]. rewrite append_cons. by rewrite <- Hs.
Qed.

(** A pattern without the character [c] does not see a run of [c] appended
    to a string. *)
Lemma prefix_snoc_other c p s :
  p ≠ "" → Forall (λ a, a ≠ c) (list_ascii_of_string p) →
  String.prefix p (s +:+ String c "") = String.prefix p s.
Proof.
  revert s. induction p as [|a p IH]; intros s Hne Hp; [done|].
  simpl in Hp. apply Forall_cons_1 in Hp as [Ha Hp].
  destruct s as [|b s].
  - rewrite append_nil_l, prefix_cons.
    destruct (Ascii.ascii_dec a c); [done|]. done.
  - rewrite append_cons, !prefix_cons. destruct (Ascii.ascii_dec a b); [|done].
    destruct p as [|a' p]; [by rewrite !prefix_nil|]. by apply IH.
Qed.

Lemma contains_snoc_other c p s :
  p ≠ "" → Forall (λ a, a ≠ c) (list_ascii_of_string p) →
  Str.contains p (s +:+ String c "") = Str.contains p s.
Proof.
  intros Hne Hp. induction s as [|b s IH].
  - destruct p as [|a p]; [done|]. simpl in Hp. apply Forall_cons_1 in Hp as [Ha _].
    rewrite append_nil_l, contains_cons, prefix_cons.
    destruct (Ascii.ascii_dec a c); [done|]. done.
  - rewrite append_cons, !contains_cons, IH.
    by rewrite <- append_cons, prefix_snoc_other.
Qed.

Lemma contains_app_run c p t : ∀ s,
  p ≠ "" → Forall (λ a, a ≠ c) (list_ascii_of_string p) →
  Forall (λ a, a = c) (list_ascii_of_string t) →
  Str.contains p (s +:+ t) = Str.contains p s.
Proof.
  induction t as [|a t IH]; intros s Hne Hp Ht; [by rewrite append_nil_r|].
  simpl in Ht. apply Forall_cons_1 in Ht as [-> Ht].
  replace (s +:+ String c t) with ((s +:+ String c "") +:+ t)
    by (by rewrite append_assoc).
  rewrite IH by done. by apply contains_snoc_other.
Qed.

(** A pattern without "]" occurs in a string exactly when it occurs in the
    string stripped of its closing brackets. *)
Lemma contains_rstrip p s :
  p ≠ "" → Forall (λ a, a ≠ "]"%char) (list_ascii_of_string p) →
  Str.contains p (Str.rstrip "]" s) = Str.contains p s.
Proof.
  intros Hne Hp. destruct (rstrip_split "]" s) as (t & Hs & Ht).
  rewrite Hs at 2. symmetry. by apply (contains_app_run "]"%char).
Qed.

Lemma prefix_List_snoc s :
  String.prefix "List" (s +:+ "]") = String.prefix "List" s.
Proof.
  apply prefix_snoc_other; [done|]. repeat constructor; done.
Qed.

Lemma replace_List_snoc s : ∀ skip,
  skip ≤ String.length s →
  Str.replace_from skip "List" "" (s +:+ "]")
  = Str.replace_from skip "List" "" s +:+ "]".
Proof.
  induction s as [|a s IH]; intros skip Hskip.
  - simpl in Hskip. by replace skip with 0 by lia.
  - rewrite append_cons. destruct skip as [|k].
    + rewrite !replace_from_cons_0, <- append_cons, prefix_List_snoc.
      destruct (String.prefix "List" (String a s)) eqn:Hp.
      * apply prefix_length in Hp. simpl in Hp.
        rewrite !append_nil_l. apply IH. simpl. lia.
      * rewrite !append_cons. by rewrite IH by lia.
    + rewrite !replace_from_cons_skip. apply IH. simpl in Hskip. lia.
Qed.

Lemma replace_List_app_run t : ∀ s,
  Forall (λ a, a = "]"%char) (list_ascii_of_string t) →
  Str.replace "List" "" (s +:+ t) = Str.replace "List" "" s +:+ t.
Proof.
  unfold Str.replace.
  induction t as [|a t IH]; intros s Ht; [by rewrite !append_nil_r|].
  simpl in Ht. apply Forall_cons_1 in Ht as [-> Ht].
  replace (s +:+ String "]" t) with ((s +:+ "]") +:+ t) by (by rewrite append_assoc).
  rewrite IH by done. rewrite replace_List_snoc by lia. by rewrite append_assoc.
Qed.

Lemma replace_char_run c t :
  Forall (λ a, a = c) (list_ascii_of_string t) → Str.replace (String c "") "" t = "".
Proof.
  unfold Str.replace. induction t as [|a t IH]; [done|].
  intros Ht. simpl in Ht. apply Forall_cons_1 in Ht as [-> Ht].
  rewrite replace_from_cons_0, prefix_cons.
  destruct (Ascii.ascii_dec c c); [|done].
  rewrite prefix_nil, append_nil_l. by apply IH.
Qed.

(** [gettypename] does not see the closing brackets at the end of a
    descriptor. *)
Lemma gettypename_app_run s t :
  Forall (λ a, a = "]"%char) (list_ascii_of_string t) →
  gettypename (s +:+ t) = gettypename s.
Proof.
  intros Ht. unfold gettypename.
  rewrite replace_List_app_run by done.
  rewrite !replace_char_app.
  rewrite (replace_no_first_char "[" "" "" t)
    by (eapply Forall_impl; [done|]; by intros ? ->).
  by rewrite (replace_char_run "]" t), append_nil_r by done.
Qed.

Lemma substring_all s : String.substring 0 (String.length s) s = s.
Proof. induction s as [|a s IH]; [done|]. simpl. by rewrite IH. Qed.

Lemma remove_const_marked descriptor :
  remove_const (const_descriptor descriptor) = Str.rstrip "]" (descriptor +:+ "]").
Proof.
  unfold remove_const, const_descriptor.
  change ("Const[" +:+ descriptor +:+ "]")
    with (String "C" (String "o" (String "n" (String "s" (String "t"
           (String "[" (descriptor +:+ "]"))))))).
  set (rest := descriptor +:+ "]").
  assert (Str.contains "Const["
            (String "C" (String "o" (String "n" (String "s" (String "t"
               (String "[" rest)))))) = true) as ->.
  { rewrite contains_cons. apply orb_true_iff. left.
    rewrite !prefix_cons. repeat (destruct (Ascii.ascii_dec _ _); [|done]).
    apply prefix_nil. }
  f_equal. unfold Str.replace_first; fold Str.replace_first.
  assert (String.prefix "Const["
            (String "C" (String "o" (String "n" (String "s" (String "t"
               (String "[" rest)))))) = true) as ->.
  { rewrite !prefix_cons. repeat (destruct (Ascii.ascii_dec _ _); [|done]).
    apply prefix_nil. }
  rewrite append_nil_l. cbn [String.length].
  rewrite !Nat.sub_succ, Nat.sub_0_r.
  change (String.substring 0 (String.length rest) rest = rest).
  apply substring_all.
Qed.

(** The constant marker is transparent to every reader of a descriptor:
    although [remove_const] strips all the closing brackets at the end, and
    so does not give back the descriptor that was marked, the type name, the
    declared nesting and the placeholder it yields are those of the
    descriptor. *)
Theorem const_marker_transparent (descriptor : string) :
  gettypename (remove_const (const_descriptor descriptor)) = gettypename descriptor ∧
  declared_nesting (remove_const (const_descriptor descriptor))
  = declared_nesting descriptor ∧
  gettypeval (remove_const (const_descriptor descriptor)) = gettypeval descriptor ∧
  Str.contains "List[uint" (remove_const (const_descriptor descriptor))
  = Str.contains "List[uint" descriptor.
Proof.
  rewrite remove_const_marked.
  assert (∀ p, p ≠ "" → Forall (λ a, a ≠ "]"%char) (list_ascii_of_string p) →
    Str.contains p (Str.rstrip "]" (descriptor +:+ "]")) = Str.contains p descriptor)
    as Hcontains.
  { intros p Hne Hp. rewrite contains_rstrip by done.
    by apply contains_snoc_other. }
  split; [|split; [|split]].
  - destruct (rstrip_split "]" (descriptor +:+ "]")) as (t & Hs & Ht).
    rewrite <- (gettypename_app_run _ t Ht), <- Hs.
    apply gettypename_app_run. by repeat constructor.
  - unfold declared_nesting.
    rewrite (Hcontains "List[List"), (Hcontains "List");
      (done || (repeat constructor; done)).
  - unfold gettypeval.
    rewrite (Hcontains "int"), (Hcontains "bool"), (Hcontains "double"),
      (Hcontains "float"); (done || (repeat constructor; done)).
  - apply Hcontains; [done|]. repeat constructor; done.
Qed.

Lemma gettypename_list_marker descriptor :
  gettypename ("List[" +:+ descriptor +:+ "]") = gettypename descriptor.
Proof.
  rewrite <- append_assoc, gettypename_app_run by (by repeat constructor).
  unfold gettypename.
  assert (Str.replace "List" "" ("List[" +:+ descriptor)
          = "[" +:+ Str.replace "List" "" descriptor) as -> by reflexivity.
  rewrite replace_char_app.
  assert (Str.replace "[" "" "[" = "") as -> by reflexivity.
  by rewrite append_nil_l.
Qed.

Lemma prefix_no_first_char c p s :
  Forall (λ a, a ≠ c) (list_ascii_of_string s) → String.prefix (String c p) s = false.
Proof.
  destruct s as [|a s]; [done|]. intros Hs. simpl in Hs.
  apply Forall_cons_1 in Hs as [Ha _]. by apply prefix_first_char.
Qed.

(** The descriptors of the kernel specification are read as written: a base
    type without the characters "L", "[" and "]", wrapped in [n] sequence
    markers, has the base type (less a final "_t") as its type name and
    [min n 2] as its declared nesting. *)
Theorem list_descriptor_parsed (n : nat) (base : string) :
  Forall (λ a, a ≠ "L"%char ∧ a ≠ "["%char ∧ a ≠ "]"%char)
    (list_ascii_of_string base) →
  gettypename (list_descriptor n base)
  = (if Str.endswith "_t" base then Str.slice_to base (-2) else base) ∧
  declared_nesting (list_descriptor n base) = Nat.min n 2.
Proof.
  intros Hbase.
  assert (Forall (λ a, a ≠ "L"%char) (list_ascii_of_string base)) as HL
    by (eapply Forall_impl; [exact Hbase|]; by intros ? (? & ? & ?)).
  assert (Forall (λ a, a ≠ "["%char) (list_ascii_of_string base)) as Hopen
    by (eapply Forall_impl; [exact Hbase|]; by intros ? (? & ? & ?)).
  assert (Forall (λ a, a ≠ "]"%char) (list_ascii_of_string base)) as Hclose
    by (eapply Forall_impl; [exact Hbase|]; by intros ? (? & ? & ?)).
  split.
  - induction n as [|n IH].
    + simpl. unfold gettypename.
      by rewrite (replace_no_first_char "L"), (replace_no_first_char "["),
        (replace_no_first_char "]").
    + simpl. by rewrite gettypename_list_marker.
  - unfold declared_nesting. destruct n as [|[|n]].
    + simpl. by rewrite !contains_no_first_char.
    + assert (Forall (λ a, a ≠ "L"%char) (list_ascii_of_string (base +:+ "]")))
        as HL'.
      { rewrite chars_app. apply Forall_app. split; [done|]. by repeat constructor. }
      assert (Str.contains "List[List" (list_descriptor 1 base) = false) as ->.
      { simpl list_descriptor.
        change ("List[" +:+ base +:+ "]")
          with (String "L" (String "i" (String "s" (String "t"
                  (String "[" (base +:+ "]")))))).
        rewrite !contains_cons, !prefix_cons.
        repeat (destruct (Ascii.ascii_dec _ _); try done).
        rewrite (prefix_no_first_char "L") by done.
        by rewrite (contains_no_first_char "L"). }
      reflexivity.
    + replace (Nat.min (S (S n)) 2) with 2 by lia. reflexivity.
Qed.

Lemma list_descriptor_parsed_witness :
  gettypename "List[List[int64_t]]" = "int64" ∧
  declared_nesting "List[List[int64_t]]" = 2.
Proof.
  apply (list_descriptor_parsed 2 "int64_t").
  repeat constructor; done.
Defined.

(** ** The combinations bind every argument *)

Lemma od_get_set_is_Some {A} (d : odict A) k v k' :
  is_Some (od_get d k') → is_Some (od_get (od_set d k v) k').
Proof. rewrite od_get_set. destruct (decide (k' = k)); [by eexists|done]. Qed.

Lemma od_get_elem_of {A} (d : odict A) k v : od_get d k = Some v → (k, v) ∈ d.
Proof.
  induction d as [|[k0 v0] d IH]; simpl; [done|].
  destruct (decide (k = k0)) as [->|Hne].
  - intros [= ->]. left.
  - intros Hget. right. by apply IH.
Qed.

(** Each step of the loop over the arguments keeps the members of the groups
    and adds the argument to a group. *)
Lemma bind_arg_members testdata st arg st' :
  bind_arg testdata st arg = Ok st' →
  (∀ g ns n, od_get (instancedict st) g = Some ns → n ∈ ns →
     ∃ ns', od_get (instancedict st') g = Some ns' ∧ n ∈ ns') ∧
  ∃ g ns, od_get (instancedict st') g = Some ns ∧ name arg ∈ ns.
Proof.
  unfold bind_arg. intros Hrun.
  destruct (decide (role arg = "default")) as [Hrole|Hrole].
  - destruct (od_mem (instancedict st) (Str.of_nat (count st))) eqn:Hmem; [done|].
    apply od_mem_false in Hmem.
    apply bind_Ok in Hrun as (fpd' & _ & Hrun).
    destruct (decide _); [|done]. injection Hrun as <-. simpl. split.
    + intros g ns n Hg Hn. exists ns. split; [|done].
      rewrite od_get_set_ne; [done|]. intros ->. congruence.
    + exists (Str.of_nat (count st)), [name arg].
      split; [apply od_get_set_eq|left].
  - apply bind_Ok in Hrun as (pseudo & _ & Hrun).
    apply bind_Ok in Hrun as (fixture & _ & Hrun).
    apply bind_Ok in Hrun as (n0 & _ & Hrun).
    apply bind_Ok in Hrun as (vals & _ & [= <-]). simpl.
    set (group := Str.slice_to (role arg) (Str.find "-" (role arg))).
    set (inst0 := if od_mem (instancedict st) group then instancedict st
                  else od_set (instancedict st) group []).
    assert (∃ l0, od_get inst0 group = Some l0 ∧
              (∀ ns, od_get (instancedict st) group = Some ns → l0 = ns) ∧
              (∀ g, g ≠ group → od_get inst0 g = od_get (instancedict st) g))
      as (l0 & Hl0 & Hsame & Hother).
    { unfold inst0. destruct (od_mem (instancedict st) group) eqn:Hmem.
      - apply od_mem_true in Hmem as [l0 Hl0]. exists l0.
        split; [done|]. split; [|done]. intros ns. congruence.
      - apply od_mem_false in Hmem. exists []. split; [apply od_get_set_eq|].
        split; [congruence|]. intros g Hg. by apply od_get_set_ne. }
    unfold od_append. rewrite Hl0. split.
    + intros g ns n Hg Hn. destruct (decide (g = group)) as [->|Hne].
      * exists (l0 ++ [name arg]). split; [apply od_get_set_eq|].
        rewrite (Hsame ns Hg). apply elem_of_app. by left.
      * exists ns. split; [|done]. by rewrite od_get_set_ne, Hother.
    + exists group, (l0 ++ [name arg]). split; [apply od_get_set_eq|].
      apply elem_of_app. right. left.
Qed.

Lemma bind_args_members testdata arguments : ∀ st st',
  bind_args testdata st arguments = Ok st' →
  (∀ g ns n, od_get (instancedict st) g = Some ns → n ∈ ns →
     ∃ ns', od_get (instancedict st') g = Some ns' ∧ n ∈ ns') ∧
  ∀ arg, arg ∈ arguments →
    ∃ g ns, od_get (instancedict st') g = Some ns ∧ name arg ∈ ns.
Proof.
  induction arguments as [|arg0 arguments IH]; intros st st' Hrun.
  - injection Hrun as <-. split; [by eauto|]. by intros arg ?%elem_of_nil.
  - simpl in Hrun. apply bind_Ok in Hrun as (st1 & Harg & Hrun).
    destruct (bind_arg_members _ _ _ _ Harg) as [Hkeep1 (g0 & ns0 & Hg0 & Hn0)].
    destruct (IH _ _ Hrun) as [Hkeep Hrest]. split.
    + intros g ns n Hg Hn. destruct (Hkeep1 g ns n Hg Hn) as (ns1 & Hg1 & Hn1).
      by eapply Hkeep.
    + intros arg [->|Hin]%elem_of_cons; [|by apply Hrest].
      destruct (Hkeep g0 ns0 (name arg0) Hg0 Hn0) as (ns' & ? & ?). by eauto.
Qed.

Lemma zip_star_widths {A} (temp : list (list A)) t :
  t ∈ zip_star temp → length t = length temp.
Proof.
  revert t. induction temp as [|l [|l' temp] IH]; intros t.
  - by intros ?%elem_of_nil.
  - simpl. intros (x & -> & _)%list_elem_of_fmap. done.
  - change (zip_star (l :: l' :: temp))
      with (zip_with cons l (zip_star (l' :: temp))).
    set (rest := zip_star (l' :: temp)) in *. clearbody rest.
    revert rest IH. induction l as [|x l IHl]; intros rest IH; [by intros ?%elem_of_nil|].
    destruct rest as [|t' rest]; [by intros ?%elem_of_nil|].
    simpl. intros [->|Hin]%elem_of_cons.
    + simpl. f_equal. apply IH. left.
    + apply (IHl rest); [|done]. intros t0 Ht0. apply IH. by right.
Qed.

Lemma mapM_result_length {A B} (f : A → result B) l rs :
  mapM (M := result) f l = Ok rs → length rs = length l.
Proof. intros H%mapM_result_Forall2. symmetry. by eapply Forall2_length. Qed.

Lemma group_tuples_widths st group ts t :
  group_tuples st group = Ok ts → t ∈ ts → length t = length group.2.
Proof.
  unfold group_tuples. intros Hrun Ht.
  apply bind_Ok in Hrun as (temp & Htemp & [= <-]).
  rewrite (zip_star_widths _ _ Ht). by eapply mapM_result_length.
Qed.

Lemma lex_product_members {A} (pools : list (list A)) x :
  x ∈ lex_product pools → Forall2 (λ pool t, t ∈ pool) pools x.
Proof.
  revert x. induction pools as [|pool pools IH]; intros x; simpl.
  - intros ->%list_elem_of_singleton. constructor.
  - intros (a & Hx & Ha)%list_elem_of_bind.
    apply list_elem_of_bind in Hx as (xs & Hx & Hxs).
    apply list_elem_of_singleton in Hx as ->. constructor; [done|by apply IH].
Qed.

Lemma fold_od_set_zip_is_Some (names : list string) (t : list pyval) :
  ∀ o k, is_Some (od_get o k) ∨ (k ∈ names ∧ length t = length names) →
  is_Some (od_get (fold_left (λ o kv, od_set o kv.1 kv.2) (zip names t) o) k).
Proof.
  revert t. induction names as [|n names IH]; intros t o k Hk.
  - simpl. destruct Hk as [?|[[]%elem_of_nil _]]. done.
  - destruct t as [|v t].
    + simpl. destruct Hk as [?|[_ ?]]; done.
    + simpl. apply IH. destruct Hk as [Hk|[[->|Hin]%elem_of_cons Hlen]].
      * left. by apply od_get_set_is_Some.
      * left. rewrite od_get_set_eq. by eexists.
      * right. split; [done|]. simpl in Hlen. lia.
Qed.

Lemma bind_combination_is_Some (inst : odict (list string)) (x : list (list pyval)) :
  ∀ g ns n,
  Forall2 (λ group t, length t = length group.2) inst x →
  (g, ns) ∈ inst → n ∈ ns →
  is_Some (od_get (bind_combination inst x) n).
Proof.
  unfold bind_combination. intros g ns n Hwidths Hg Hn.
  assert (∀ o, is_Some (od_get o n) ∨ (g, ns) ∈ inst →
    is_Some (od_get
      (fold_left (λ origtemp gt,
         fold_left (λ o kv, od_set o kv.1 kv.2) (zip (gt.1).2 gt.2) origtemp)
         (zip inst x) o) n)) as Hfold.
  { clear Hg. induction Hwidths as [|group t inst x Hlen _ IH]; intros o Ho.
    - destruct Ho as [?|[]%elem_of_nil]. done.
    - simpl. apply IH. destruct Ho as [Ho|[Heq|Hin]%elem_of_cons]; [| subst group |].
      + left. apply fold_od_set_zip_is_Some. by left.
      + left. apply fold_od_set_zip_is_Some. right. by split.
      + by right. }
  apply Hfold. by right.
Qed.

(** Every raw combination binds every argument of the kernel, so that no
    lookup of an argument in the assignment handed to the kernel can fail. *)
Theorem combination_binds_every_argument (arguments : list Argument)
    (testdata : gmap string pyval) (inst : odict (list string))
    (combos : list (list (list pyval))) (x : list (list pyval)) (arg : Argument) :
  raw_combinations arguments testdata = Ok (inst, combos) →
  x ∈ combos → arg ∈ arguments →
  is_Some (od_get (bind_combination inst x) (name arg)).
Proof.
  unfold raw_combinations. intros Hraw Hx Harg.
  apply bind_Ok in Hraw as (st & Hst & Hraw).
  apply bind_Ok in Hraw as (tuples & Htuples & [= <- <-]).
  destruct (bind_args_members _ _ _ _ Hst) as [_ Hmembers].
  destruct (Hmembers arg Harg) as (g & ns & Hg & Hn).
  apply (bind_combination_is_Some _ _ g ns); [|by apply od_get_elem_of|done].
  rewrite product_lex in Hx. apply lex_product_members in Hx.
  apply mapM_result_Forall2 in Htuples.
  clear -Htuples Hx. revert x Hx.
  induction Htuples as [|group ts inst tuples Hgroup _ IH]; intros x Hx.
  - apply Forall2_nil_inv_l in Hx as ->. constructor.
  - apply Forall2_cons_inv_l in Hx as (t & x' & Ht & Hx' & ->).
    constructor; [by eapply group_tuples_widths|by apply IH].
Qed.

Lemma combination_binds_every_argument_witness :
  is_Some (od_get (bind_combination [("foo", ["a"]); ("bar", ["b"])]
                     [[PyList [PyInt 1]]; [PyList [PyInt 2]]]) "b").
Proof.
  apply (combination_binds_every_argument Sample.stale_args Sample.foo_fixture
           [("foo", ["a"]); ("bar", ["b"])]
           [[[PyList [PyInt 1]]; [PyList [PyInt 2]]]]
           [[PyList [PyInt 1]]; [PyList [PyInt 2]]]
           (mkArgument "b" "List[int64_t]" "in" "bar-y")).
  - vm_compute. reflexivity.
  - left.
  - right. left.
Defined.

(** ** The number of raw combinations *)

Lemma lex_product_length {A} (pools : list (list A)) :
  length (lex_product pools) = foldr (λ pool n, length pool * n) 1 pools.
Proof.
  induction pools as [|pool pools IH]; [done|]. simpl. rewrite <- IH.
  generalize (lex_product pools) as rest. intros rest.
  induction pool as [|a pool IHp]; [done|].
  rewrite bind_cons, length_app, IHp. simpl. f_equal.
  clear. induction rest as [|xs rest IHr]; [done|].
  rewrite bind_cons, length_app, IHr. done.
Qed.

Lemma lex_product_widths {A} (pools : list (list A)) x :
  x ∈ lex_product pools → length x = length pools.
Proof. intros Hx%lex_product_members. symmetry. by eapply Forall2_length. Qed.

(** The raw combinations are as many as the product of the numbers of tuples
    of the groups, and each holds one tuple per group; when some group has no
    tuple, no test is generated and the kernel is not even looked up. *)
Theorem raw_combination_count (arguments : list Argument)
    (testdata : gmap string pyval) (inst : odict (list string))
    (combos : list (list (list pyval))) :
  raw_combinations arguments testdata = Ok (inst, combos) →
  ∃ st tuples,
    bind_args testdata bind_init arguments = Ok st ∧ inst = instancedict st ∧
    Forall2 (λ group ts, group_tuples st group = Ok ts) inst tuples ∧
    length combos = foldr (λ ts n, length ts * n) 1 tuples ∧
    Forall (λ x, length x = length inst) combos ∧
    (Exists (λ ts, ts = []) tuples →
     ∀ env kernel_name, gettests env kernel_name arguments testdata = Ok []).
Proof.
  intros Hraw. pose proof Hraw as Hraw'. unfold raw_combinations in Hraw.
  apply bind_Ok in Hraw as (st & Hst & Hraw).
  apply bind_Ok in Hraw as (tuples & Htuples & [= <- <-]).
  apply mapM_result_Forall2 in Htuples.
  exists st, tuples. rewrite product_lex in *.
  split; [done|]. split; [done|]. split; [done|].
  split; [apply lex_product_length|]. split.
  - apply Forall_forall. intros x Hx%lex_product_widths.
    rewrite Hx. symmetry. by eapply Forall2_length.
  - intros Hempty env kernel_name. unfold gettests. rewrite Hraw'. simpl.
    assert (lex_product tuples = []) as ->; [|done].
    apply length_zero_iff_nil. rewrite lex_product_length.
    clear -Hempty. induction Hempty as [ts tuples ->|ts tuples _ IH]; simpl; [done|].
    rewrite IH. lia.
Qed.

Lemma raw_combination_count_witness :
  ∃ st tuples,
    bind_args Sample.foo_fixture bind_init Sample.stale_args = Ok st ∧
    [("foo", ["a"]); ("bar", ["b"])] = instancedict st ∧
    Forall2 (λ group ts, group_tuples st group = Ok ts)
      [("foo", ["a"]); ("bar", ["b"])] tuples ∧
    length [[[PyList [PyInt 1]]; [PyList [PyInt 2]]]]
    = foldr (λ ts n, length ts * n) 1 tuples ∧
    Forall (λ x, length x = length [("foo", ["a"]); ("bar", ["b"])])
      [[[PyList [PyInt 1]]; [PyList [PyInt 2]]]] ∧
    (Exists (λ ts, ts = []) tuples →
     ∀ env kernel_name,
       gettests env kernel_name Sample.stale_args Sample.foo_fixture = Ok []).
Proof.
  apply (raw_combination_count Sample.stale_args Sample.foo_fixture).
  vm_compute. reflexivity.
Defined.

(** ** An accumulator written at a negative index *)

Lemma sorted_head_least (keys : list Z) k :
  StronglySorted Z.lt keys → k ∈ keys →
  ∃ num rest, keys = num :: rest ∧ (num ≤ k)%Z.
Proof.
  intros Hsorted Hk. destruct Hsorted as [|num rest _ Hall].
  - by apply elem_of_nil in Hk.
  - exists num, rest. split; [done|].
    apply elem_of_cons in Hk as [->|Hk]; [lia|].
    rewrite Forall_forall in Hall. specialize (Hall k Hk). lia.
Qed.

(** When the kernel has written an output at a negative index, the
    reconstruction never returns: the inner loop counts upwards from a count
    that is already above the least key, and exits for no number of
    iterations. *)
Theorem dicttolist_negative_key_never_returns (outputdict : gmap Z pyval)
    (typename : string) (typeval : pyval) (k : Z) :
  gettypeval typename = Ok typeval →
  is_Some (outputdict !! k) → (k < 0)%Z →
  dicttolist outputdict typename = Raise NonTermination ∧
  ∃ num rest, sorted_keys outputdict = num :: rest ∧ (num < 0)%Z ∧
    ∀ fuel, fill_gap fuel num 0 typeval [] = None.
Proof.
  intros Htv Hk Hneg. apply elem_of_sorted_keys in Hk.
  destruct (sorted_head_least _ k (sorted_keys_sorted outputdict) Hk)
    as (num & rest & Hkeys & Hnum).
  assert (∀ fuel, fill_gap fuel num 0 typeval [] = None) as Hnever
    by (intros fuel; apply fill_gap_never; lia).
  split.
  - unfold dicttolist. rewrite Htv, Hkeys. simpl.
    rewrite decide_False by lia. by rewrite Hnever.
  - exists num, rest. split; [done|]. split; [lia|done].
Qed.

Lemma dicttolist_negative_key_never_returns_witness :
  dicttolist {[ (-1)%Z := PyInt 5; 3%Z := PyInt 7 ]} "List[int64_t]"
  = Raise NonTermination.
Proof.
  apply (dicttolist_negative_key_never_returns
           {[ (-1)%Z := PyInt 5; 3%Z := PyInt 7 ]} "List[int64_t]" (PyInt 123) (-1)).
  - reflexivity.
  - by eexists.
  - lia.
Defined.

(** ** [readspec]: the two dictionaries of specifications *)

Lemma readspec_children_spec env spec data children : ∀ dict dict',
  readspec_children env spec data children dict = Ok dict' →
  (∀ k, k ∈ od_keys dict' ↔ k ∈ od_keys dict ∨ k ∈ yaml_spec_name <$> children) ∧
  (∀ k, k ∉ yaml_spec_name <$> children → od_get dict' k = od_get dict k) ∧
  (NoDup (yaml_spec_name <$> children) →
   ∀ childfunc, childfunc ∈ children →
     ∃ s, Specification_init env (yaml_kernel_name spec) childfunc data
            (negb (yaml_automatic_tests spec)) = Ok s ∧
          od_get dict' (yaml_spec_name childfunc) = Some s).
Proof.
  induction children as [|c children IH]; intros dict dict' Hrun.
  - injection Hrun as <-. split; [|split].
    + intros k. rewrite fmap_nil, elem_of_nil. tauto.
    + done.
    + by intros _ ? ?%elem_of_nil.
  - simpl in Hrun. apply bind_Ok in Hrun as (s & Hs & Hrun).
    destruct (IH _ _ Hrun) as (Hkeys & Hframe & Hvalues).
    rewrite fmap_cons. split; [|split].
    + intros k. rewrite Hkeys, od_keys_set, elem_of_cons.
      destruct (decide (yaml_spec_name c ∈ od_keys dict)) as [Hin|Hnotin].
      * split; [tauto|]. intros [?|[->|?]]; tauto.
      * rewrite elem_of_app, list_elem_of_singleton. tauto.
    + intros k [Hne Hk]%not_elem_of_cons.
      rewrite (Hframe k Hk). by apply od_get_set_ne.
    + intros [Hfresh Hnd]%NoDup_cons childfunc [->|Hin]%elem_of_cons.
      * exists s. split; [done|]. rewrite (Hframe _ Hfresh). apply od_get_set_eq.
      * by apply Hvalues.
Qed.

Lemma readspec_loop_spec env data indspec : ∀ specdict specdict_unit result,
  readspec_loop env data indspec specdict specdict_unit = Ok result →
  (∀ k, k ∈ od_keys specdict → k ∈ od_keys specdict_unit) →
  (∀ k, k ∈ od_keys result.1 → k ∈ od_keys result.2) ∧
  (∀ k, k ∈ od_keys result.2 ↔
        k ∈ od_keys specdict_unit ∨
        k ∈ yaml_spec_name <$> all_specializations indspec) ∧
  (NoDup (yaml_spec_name <$> all_specializations indspec) →
   (∀ k, k ∈ yaml_spec_name <$> all_specializations indspec →
         k ∉ od_keys specdict_unit) →
   (∀ k s, od_get specdict k = Some s → od_get specdict_unit k = Some s) →
   ∀ k s, od_get result.1 k = Some s → od_get result.2 k = Some s).
Proof.
  unfold all_specializations.
  induction indspec as [|spec indspec IH]; intros specdict specdict_unit result Hrun Hsub.
  - injection Hrun as <-. simpl. split; [done|]. split; [|done].
    intros k. rewrite elem_of_nil. tauto.
  - simpl in Hrun. apply bind_Ok in Hrun as (unit1 & Hunit & Hrun).
    apply bind_Ok in Hrun as (dict1 & Hdict & Hrun).
    destruct (readspec_children_spec _ _ _ _ _ _ Hunit) as (Hukeys & Huframe & Huvals).
    assert (∀ k, k ∈ od_keys dict1 → k ∈ od_keys unit1) as Hsub1.
    { intros k Hk. apply Hukeys.
      destruct (Str.contains "def " (yaml_definition spec)).
      - destruct (readspec_children_spec _ _ _ _ _ _ Hdict) as (Hdkeys & _ & _).
        apply Hdkeys in Hk as [?|?]; [left; by apply Hsub|by right].
      - injection Hdict as <-. left. by apply Hsub. }
    destruct (IH _ _ _ Hrun Hsub1) as (Hsub' & Hkeys' & Hagree').
    rewrite bind_cons, fmap_app. split; [done|]. split.
    + intros k. rewrite Hkeys', Hukeys, elem_of_app. tauto.
    + intros [Hnd1 [Hdisj Hnd2]]%NoDup_app Hfresh Hagree.
      apply Hagree'; [done| |].
      * intros k Hk [Hold|Hnew]%Hukeys.
        -- apply (Hfresh k); [|done]. apply elem_of_app. by right.
        -- by apply (Hdisj k).
      * intros k s Hk.
        destruct (decide (k ∈ yaml_spec_name <$> yaml_specializations spec))
          as [Hhere|Hnothere].
        -- apply list_elem_of_fmap in Hhere as (childfunc & -> & Hchild).
           destruct (Huvals Hnd1 childfunc Hchild) as (s2 & Hinit2 & ->).
           destruct (Str.contains "def " (yaml_definition spec)).
           ++ destruct (readspec_children_spec _ _ _ _ _ _ Hdict) as (_ & _ & Hdvals).
              destruct (Hdvals Hnd1 childfunc Hchild) as (s1 & Hinit1 & Hget1).
              congruence.
           ++ injection Hdict as <-. exfalso.
              apply (Hfresh (yaml_spec_name childfunc)).
              ** apply elem_of_app. left. apply list_elem_of_fmap. by eauto.
              ** apply Hsub, od_get_Some_keys. by eexists.
        -- rewrite (Huframe k Hnothere). apply Hagree.
           destruct (Str.contains "def " (yaml_definition spec)).
           ++ destruct (readspec_children_spec _ _ _ _ _ _ Hdict) as (_ & Hdframe & _).
              by rewrite <- (Hdframe k Hnothere).
           ++ by injection Hdict as <-.
Qed.

(** [readspec] records every specialization in the dictionary of the unit
    tests, and those of the kernels with a Python definition in the other
    one as well: every key of the latter is a key of the former, and when no
    two specializations share a name the two dictionaries hold the same
    specification under it. *)
Theorem readspec_dictionaries (env : kernel_env) (indspec : list yaml_kernel)
    (data : gmap string pyval) (specdict specdict_unit : odict Specification) :
  readspec env indspec data = Ok (specdict, specdict_unit) →
  (∀ k, k ∈ od_keys specdict → k ∈ od_keys specdict_unit) ∧
  (∀ k, k ∈ od_keys specdict_unit ↔
        k ∈ yaml_spec_name <$> all_specializations indspec) ∧
  (NoDup (yaml_spec_name <$> all_specializations indspec) →
   ∀ k s, od_get specdict k = Some s → od_get specdict_unit k = Some s).
Proof.
  unfold readspec. intros Hrun.
  destruct (readspec_loop_spec _ _ _ _ _ _ Hrun) as (Hsub & Hkeys & Hagree);
    [by intros k ?%elem_of_nil|].
  simpl in *. split; [done|]. split.
  - intros k. rewrite Hkeys, elem_of_nil. tauto.
  - intros Hnd. apply Hagree; [done| |done].
    intros k _ []%elem_of_nil.
Qed.

Lemma readspec_dictionaries_witness :
  ∃ specdict specdict_unit,
    readspec (Sample.env Sample.writes_text)
      [mkYamlKernel "awkward_sort" "def awkward_sort(x): pass" true
         [mkYamlSpec "kernel" [mkYamlArg "x" "List[int64_t]" "in" None]];
       mkYamlKernel "awkward_other" "" false
         [mkYamlSpec "other" [mkYamlArg "x" "List[int64_t]" "in" None]]]
      (Sample.num [PyInt 1]) = Ok (specdict, specdict_unit) ∧
    od_keys specdict = ["kernel"] ∧ od_keys specdict_unit = ["kernel"; "other"] ∧
    ∀ k s, od_get specdict k = Some s → od_get specdict_unit k = Some s.
Proof.
  eexists _, _. split; [vm_compute; reflexivity|].
  split; [reflexivity|]. split; [reflexivity|].
  apply (readspec_dictionaries (Sample.env Sample.writes_text)
    [mkYamlKernel "awkward_sort" "def awkward_sort(x): pass" true
       [mkYamlSpec "kernel" [mkYamlArg "x" "List[int64_t]" "in" None]];
     mkYamlKernel "awkward_other" "" false
       [mkYamlSpec "other" [mkYamlArg "x" "List[int64_t]" "in" None]]]
    (Sample.num [PyInt 1])).
  - vm_compute. reflexivity.
  - apply (bool_decide_unpack _). vm_compute. exact I.
Defined.

(** ** The call line of the generated unit tests *)

Lemma substring_drop_last (s : string) (a : ascii) :
  String.substring 0 (String.length (s +:+ String a "") - 1) (s +:+ String a "") = s.
Proof.
  induction s as [|b s IH]; [done|].
  rewrite append_cons. cbn [String.length]. rewrite Nat.sub_succ, Nat.sub_0_r.
  assert (String.length (s +:+ String a "") = S (String.length s)) as Hlen.
  { clear. induction s as [|b s IH]; [done|]. rewrite append_cons. simpl.
    by rewrite IH. }
  rewrite Hlen in *. cbn [String.substring]. f_equal.
  by rewrite Nat.sub_succ, Nat.sub_0_r in IH.
Qed.

Lemma fold_keyword_arguments (keys : list string) : ∀ line,
  keys ≠ [] →
  fold_left (λ line key, line +:+ keyword_argument key) keys line
  = line +:+ join "," ((λ key, (key +:+ " = ") +:+ key) <$> keys) +:+ ",".
Proof.
  induction keys as [|key keys IH]; intros line Hne; [done|].
  simpl. destruct keys as [|key' keys].
  - simpl. unfold keyword_argument. by rewrite !append_assoc.
  - rewrite IH by done. unfold keyword_argument. csimpl.
    by rewrite !append_assoc.
Qed.

Lemma fold_new_keyword_arguments (outputs inputs : list string) : ∀ line,
  fold_left (λ line key,
               if bool_decide (key ∈ outputs) then line
               else line +:+ keyword_argument key) inputs line
  = fold_left (λ line key, line +:+ keyword_argument key)
      (filter (λ key, key ∉ outputs) inputs) line.
Proof.
  induction inputs as [|key inputs IH]; intros line; [done|].
  simpl. destruct (decide (key ∈ outputs)) as [Hin|Hout].
  - rewrite bool_decide_eq_true_2 by done.
    rewrite filter_cons_False by (by intros []). apply IH.
  - rewrite bool_decide_eq_false_2 by done.
    rewrite filter_cons_True by done. simpl. apply IH.
Qed.

(** The call that [genunittests] writes passes every key of the test by
    keyword, each one once: the output keys in their order, then the input
    keys that are not output keys, separated by commas. For a test with no
    key at all the cut of the last character removes the opening
    parenthesis. *)
Theorem funcPy_line_keywords (outputs inputs : list string) :
  funcPy_line outputs inputs
  = match outputs ++ filter (λ key, key ∉ outputs) inputs with
    | [] => tab +:+ "funcPy" +:+ ")" +:+ newline
    | keys =>
        tab +:+ "funcPy(" +:+
        join "," ((λ key, (key +:+ " = ") +:+ key) <$> keys) +:+ ")" +:+ newline
    end.
Proof.
  unfold funcPy_line.
  rewrite fold_new_keyword_arguments, <-fold_left_app.
  destruct (outputs ++ filter (λ key, key ∉ outputs) inputs) as [|key keys] eqn:Hkeys.
  - reflexivity.
  - rewrite fold_keyword_arguments by done.
    rewrite <-!append_assoc, substring_drop_last.
    by rewrite !append_assoc.
Qed.

(** ** The device types of the arguments *)

Lemma count_from_cons_skip k sub c s :
  str_count_from (S k) sub (String c s) = str_count_from k sub s.
Proof. reflexivity. Qed.

Lemma count_from_cons_0 sub c s :
  str_count_from 0 sub (String c s)
  = if String.prefix sub (String c s)
    then S (str_count_from (String.length sub - 1) sub s)
    else str_count_from 0 sub s.
Proof. reflexivity. Qed.

Lemma count_no_first_char c sub s :
  Forall (λ a, a ≠ c) (list_ascii_of_string s) → str_count (String c sub) s = 0.
Proof.
  unfold str_count. induction s as [|a s IH]; [done|].
  simpl list_ascii_of_string. intros [Ha Hs]%Forall_cons_1.
  rewrite count_from_cons_0, prefix_first_char by done. by apply IH.
Qed.

Lemma count_List_snoc s : ∀ skip,
  skip ≤ String.length s →
  str_count_from skip "List" (s +:+ "]") = str_count_from skip "List" s.
Proof.
  induction s as [|a s IH]; intros skip Hskip.
  - simpl in Hskip. by replace skip with 0 by lia.
  - rewrite append_cons. destruct skip as [|k].
    + rewrite !count_from_cons_0, <- append_cons, prefix_List_snoc.
      destruct (String.prefix "List" (String a s)) eqn:Hp.
      * apply prefix_length in Hp. simpl in Hp. f_equal. apply IH. simpl. lia.
      * apply IH. lia.
    + rewrite !count_from_cons_skip. apply IH. simpl in Hskip. lia.
Qed.

Lemma count_List_app_run t : ∀ s,
  Forall (λ a, a = "]"%char) (list_ascii_of_string t) →
  str_count "List" (s +:+ t) = str_count "List" s.
Proof.
  unfold str_count.
  induction t as [|a t IH]; intros s Ht; [by rewrite append_nil_r|].
  simpl in Ht. apply Forall_cons_1 in Ht as [-> Ht].
  replace (s +:+ String "]" t) with ((s +:+ "]") +:+ t) by (by rewrite append_assoc).
  rewrite IH by done. apply count_List_snoc. lia.
Qed.

Lemma count_List_rstrip s :
  str_count "List" (Str.rstrip "]" s) = str_count "List" s.
Proof.
  destruct (rstrip_split "]" s) as (t & Hs & Ht).
  rewrite Hs at 2. symmetry. by apply count_List_app_run.
Qed.

Lemma count_list_descriptor n base :
  Forall (λ a, a ≠ "L"%char) (list_ascii_of_string base) →
  str_count "List" (list_descriptor n base) = n.
Proof.
  intros HL. induction n as [|n IH]; [by apply count_no_first_char|].
  simpl list_descriptor. rewrite <- append_assoc.
  rewrite count_List_app_run by (by repeat constructor).
  rewrite <- IH at 2. reflexivity.
Qed.

Lemma contains_list_descriptor n base :
  Forall (λ a, a ≠ "L"%char) (list_ascii_of_string base) →
  Str.contains "List" (list_descriptor n base) = negb (Nat.eqb n 0).
Proof.
  intros HL. destruct n as [|n]; [by apply contains_no_first_char|].
  reflexivity.
Qed.

Lemma gettypename_list_descriptor n base :
  Forall (λ a, a ≠ "L"%char ∧ a ≠ "["%char ∧ a ≠ "]"%char)
    (list_ascii_of_string base) →
  gettypename (list_descriptor n base)
  = if Str.endswith "_t" base then Str.slice_to base (-2) else base.
Proof.
  intros Hbase. induction n as [|n IH].
  - simpl. unfold gettypename.
    rewrite (replace_no_first_char "L"), (replace_no_first_char "["),
      (replace_no_first_char "]");
      (done || (eapply Forall_impl; [exact Hbase|]; by intros ? (? & ? & ?))).
  - simpl. by rewrite gettypename_list_marker.
Qed.

Lemma prefix_chars p s c :
  String.prefix p s = true →
  c ∈ list_ascii_of_string p → c ∈ list_ascii_of_string s.
Proof.
  revert s. induction p as [|a p IH]; intros s Hp Hc; [by apply elem_of_nil in Hc|].
  destruct s as [|b s]; [done|]. rewrite prefix_cons in Hp.
  destruct (Ascii.ascii_dec a b) as [->|]; [|done].
  simpl in *. apply elem_of_cons in Hc as [->|Hc]; [left|right; by apply IH].
Qed.

Lemma contains_chars p s c :
  Str.contains p s = true →
  c ∈ list_ascii_of_string p → c ∈ list_ascii_of_string s.
Proof.
  intros Hp Hc. induction s as [|b s IH].
  - destruct p; [by apply elem_of_nil in Hc|done].
  - rewrite contains_cons in Hp. apply orb_true_iff in Hp as [Hp|Hp].
    + by eapply prefix_chars.
    + simpl. right. by apply IH.
Qed.

Lemma list_descriptor_not_marked n base :
  Forall (λ a, a ≠ "["%char) (list_ascii_of_string base) →
  remove_const (list_descriptor n base) = list_descriptor n base.
Proof.
  intros Hopen. unfold remove_const.
  assert (Str.contains "Const[" (list_descriptor n base) = false) as ->; [|done].
  induction n as [|n IH].
  - simpl. destruct (Str.contains "Const[" base) eqn:Hc; [|done].
    apply (contains_chars _ _ "["%char) in Hc; [|by repeat constructor].
    rewrite Forall_forall in Hopen. by destruct (Hopen _ Hc).
  - simpl list_descriptor.
    change ("List[" +:+ list_descriptor n base +:+ "]")
      with (String "L" (String "i" (String "s" (String "t"
              (String "[" (list_descriptor n base +:+ "]")))))).
    rewrite !contains_cons, !prefix_first_char by done. simpl orb.
    etrans; [|exact IH]. apply contains_snoc_other; [done|]. by repeat constructor.
Qed.

(** What [getdtypes] reads from a descriptor, marked constant or not. *)
Lemma getdtypes_reads (descriptor typename : string) :
  typename = descriptor ∧ remove_const descriptor = descriptor
  ∨ typename = const_descriptor descriptor →
  Str.contains "List" (remove_const typename) = Str.contains "List" descriptor ∧
  str_count "List" (remove_const typename) = str_count "List" descriptor ∧
  gettypename (remove_const typename) = gettypename descriptor.
Proof.
  intros [[-> ->]| ->]; [done|]. rewrite remove_const_marked.
  split; [|split].
  - rewrite contains_rstrip by (done || by repeat constructor).
    apply contains_snoc_other; [done|]. by repeat constructor.
  - rewrite count_List_rstrip. apply count_List_app_run. by repeat constructor.
  - destruct (rstrip_split "]" (descriptor +:+ "]")) as (t & Hs & Ht).
    rewrite <- (gettypename_app_run _ t Ht), <- Hs.
    apply gettypename_app_run. by repeat constructor.
Qed.

(** [getdtypes] gives one device type for each argument that is a sequence
    or a sequence of sequences, in the order of the arguments, and none for
    a scalar or for a deeper nesting, which it passes over in silence; the
    type is the name of the base type with "bool" turned into "bool_" and
    "float" into "float32". The constant marker changes nothing. *)
Theorem getdtypes_by_nesting (arguments : list Argument)
    (shapes : list (nat * string)) :
  Forall2 (λ arg shape,
    Forall (λ a, a ≠ "L"%char ∧ a ≠ "["%char ∧ a ≠ "]"%char)
      (list_ascii_of_string shape.2) ∧
    (typename arg = list_descriptor shape.1 shape.2 ∨
     typename arg = const_descriptor (list_descriptor shape.1 shape.2)))
    arguments shapes →
  getdtypes arguments
  = shapes ≫= (λ shape,
      let base :=
        if Str.endswith "_t" shape.2 then Str.slice_to shape.2 (-2) else shape.2 in
      if decide (shape.1 = 1 ∨ shape.1 = 2)
      then ["cupy." +:+ (if String.eqb base "bool" then "bool_"
                         else if String.eqb base "float" then "float32"
                         else base)]
      else []).
Proof.
  intros Hshapes. unfold getdtypes.
  match goal with
  | |- _ = ?dtypes' =>
      enough (∀ dtypes, fold_left getdtypes_step arguments dtypes = dtypes ++ dtypes')
        as Hloop by exact (Hloop [])
  end.
  induction Hshapes as [|arg [n base] l shapes' [Hbase Htype] _ IH]; intros dtypes.
  - by rewrite app_nil_r.
  - simpl fold_left. rewrite IH. rewrite bind_cons, app_assoc. f_equal.
    simpl in Hbase, Htype. cbn [fst snd].
    assert (Forall (λ a, a ≠ "L"%char) (list_ascii_of_string base)) as HL
      by (eapply Forall_impl; [exact Hbase|]; by intros ? (? & ? & ?)).
    assert (Forall (λ a, a ≠ "["%char) (list_ascii_of_string base)) as Hopen
      by (eapply Forall_impl; [exact Hbase|]; by intros ? (? & ? & ?)).
    destruct (getdtypes_reads (list_descriptor n base) (typename arg))
      as (Hlist & Hcount & Hname).
    { destruct Htype as [Htype|Htype]; [left|by right].
      split; [done|]. by apply list_descriptor_not_marked. }
    unfold getdtypes_step.
    rewrite Hlist, Hcount, Hname.
    rewrite contains_list_descriptor, count_list_descriptor,
      gettypename_list_descriptor by done.
    set (name := if Str.endswith "_t" base then Str.slice_to base (-2) else base).
    assert ((if String.eqb (if String.eqb name "bool" then name +:+ "_" else name)
                  "float"
             then (if String.eqb name "bool" then name +:+ "_" else name) +:+ "32"
             else (if String.eqb name "bool" then name +:+ "_" else name))
            = (if String.eqb name "bool" then "bool_"
               else if String.eqb name "float" then "float32" else name)) as ->.
    { destruct (String.eqb_spec name "bool") as [->|_]; [done|].
      by destruct (String.eqb_spec name "float") as [->|_]. }
    destruct n as [|[|[|n]]]; simpl negb; cbn [Nat.eqb].
    + rewrite decide_False by lia. by rewrite app_nil_r.
    + by rewrite decide_True by lia.
    + by rewrite decide_True by lia.
    + rewrite decide_False by lia. by rewrite app_nil_r.
Qed.

Lemma getdtypes_by_nesting_witness :
  getdtypes [mkArgument "toptr" "List[bool]" "out" "default";
             mkArgument "fromptr" "Const[List[List[float]]]" "in" "default";
             mkArgument "length" "int64_t" "in" "default";
             mkArgument "deep" "List[List[List[uint8_t]]]" "in" "default"]
  = ["cupy.bool_"; "cupy.float32"].
Proof.
  apply (getdtypes_by_nesting
           [mkArgument "toptr" "List[bool]" "out" "default";
            mkArgument "fromptr" "Const[List[List[float]]]" "in" "default";
            mkArgument "length" "int64_t" "in" "default";
            mkArgument "deep" "List[List[List[uint8_t]]]" "in" "default"]
           [(1, "bool"); (2, "float"); (0, "int64_t"); (3, "uint8_t")]).
  repeat (constructor;
          [split; [apply (bool_decide_unpack _); vm_compute; exact I
                  |(by left) || (by right)]|]).
  constructor.
Defined.
